(** * VoiceDi_MIPT: feature extraction and IEMOCAP loader

  A shallow embedding of
  - [Decomposition/make_spect_f0.py], the script that turns a corpus of
    waveforms into mel-spectrogram, pitch and embedding artifacts, and
  - [utils/iemocap_loader_ft.py], the dataset index ([IEMOCAP]) and the
    batch assembler ([MyCollator]), and
  - [Decomposition/tfcompat/hparam.py], the functions that precede the
    class [HParams],
  followed by the properties of these programs.

  Conventions.  Python exceptions are values of [exn]; code that can raise
  returns [exn + A].  The script, which writes to the file system, runs in a
  state-and-exception monad over [fsys].  Array entries of the script are
  real numbers (the script takes means, standard deviations and logarithms);
  array entries of the collator, which only compares, clips and pads, are
  rationals.  Both idealise finite floating-point values. *)

From Stdlib Require Import ZArith QArith Reals Lra Lia List Ascii String Bool Arith.
From Stdlib Require Import Sorted Permutation.
From stdpp Require Import gmap strings.
Import ListNotations.

Local Open Scope string_scope.
Local Open Scope list_scope.
Local Open Scope nat_scope.

(** ** Python values shared by both programs *)

Module Py.

(** The exceptions the two programs can raise. *)
Inductive exn : Type :=
| NameError (name : string)
| KeyError (key : string)
| ValueError
| AssertionError
| StopIteration
| IOError (path : string)
| IndexError
| FileExistsError (path : string).

(** A reader of strings of decimal digits, on which Python's [int] returns
    the same number.  It stands for [int] in the concrete inputs below; the
    script itself calls [py_int], which is not restricted to such strings. *)
Definition digit_of (c : ascii) : option Z :=
  let n := Z.of_nat (nat_of_ascii c) in
  if ((48 <=? n) && (n <=? 57))%Z then Some (n - 48)%Z else None.

Fixpoint parse_digits (acc : Z) (s : string) : option Z :=
  match s with
  | EmptyString => Some acc
  | String c s' =>
      match digit_of c with
      | Some d => parse_digits (acc * 10 + d)%Z s'
      | None => None
      end
  end.

Definition int_of_str (s : string) : exn + Z :=
  match s with
  | EmptyString => inl ValueError
  | _ => match parse_digits 0%Z s with
         | Some z => inr z
         | None => inl ValueError
         end
  end.

(** [s[i:j]] for [0 <= i <= j]: out-of-range bounds are clamped. *)
Definition slice {A} (i j : nat) (l : list A) : list A :=
  firstn (j - i) (skipn i l).

(** [s[i:j]] on a string. *)
Definition str_slice (i j : nat) (s : string) : string :=
  String.substring i (j - i) s.

(** [s[-k:]]: the last [k] characters, the whole string when shorter. *)
Definition str_suffix (k : nat) (s : string) : string :=
  String.substring (String.length s - k) k s.

(** [s[:-k]] for [k > 0]: all but the last [k] characters. *)
Definition str_drop_suffix (k : nat) (s : string) : string :=
  String.substring 0 (String.length s - k) s.

(** [s[k:]]. *)
Definition str_from (k : nat) (s : string) : string :=
  String.substring k (String.length s - k) s.

(** [os.path.join] on relative components. *)
Definition path_join (a b : string) : string := a ++ "/" ++ b.

(** [sorted] on a list of strings: insertion by code-point order. *)
Fixpoint insert_sorted (x : string) (l : list string) : list string :=
  match l with
  | [] => [x]
  | y :: l' => if String.leb x y then x :: l else y :: insert_sorted x l'
  end.

Definition sorted (l : list string) : list string :=
  fold_right insert_sorted [] l.

End Py.

(** ** [Decomposition/make_spect_f0.py] *)

Module MakeSpectF0.
Import Py.

(** *** The file system and the monad of the script *)

(** What [np.save] writes: a one- or a two-dimensional array, or the
    zero-dimensional [nan] that NumPy returns as the mean of no values. *)
Inductive artifact : Type :=
| Arr1 (a : list R)
| Arr2 (m : list (list R))
| ArrNaN.

(** The part of the outside world the script changes: the directories that
    exist, the log of [np.save] calls (oldest first) and the log of the
    waveform files read by [librosa.load]. *)
Record fsys : Type := mkFsys {
  dirs : gset string;
  saved : list (string * artifact);
  loaded : list string
}.

Definition M (A : Type) : Type := fsys -> fsys * (exn + A).

Definition ret {A} (a : A) : M A := fun fs => (fs, inr a).

Definition raise {A} (e : exn) : M A := fun fs => (fs, inl e).

Definition bind {A B} (c : M A) (k : A -> M B) : M B :=
  fun fs =>
    match c fs with
    | (fs', inl e) => (fs', inl e)
    | (fs', inr a) => k a fs'
    end.

Local Notation "'do' x <- c ; k" := (bind c (fun x => k))
  (at level 10, x name, c at level 100, k at level 200).
Local Notation "'run' c ; k" := (bind c (fun _ => k))
  (at level 10, c at level 100, k at level 200).

Definition lift {A} (r : exn + A) : M A := fun fs => (fs, r).

(** [assert b]. *)
Definition assert (b : bool) : M unit :=
  if b then ret tt else raise AssertionError.

(** [for x in l: body x]; an exception leaves the loop. *)
Fixpoint for_each {A} (l : list A) (body : A -> M unit) : M unit :=
  match l with
  | [] => ret tt
  | x :: l' => run body x; for_each l' body
  end.

(** The same loop threading the variables the body rebinds. *)
Fixpoint for_fold {A S} (l : list A) (body : S -> A -> M S) (s : S) : M S :=
  match l with
  | [] => ret s
  | x :: l' => do s' <- body s x; for_fold l' body s'
  end.

(** Reading a global name whose value is a string.  The other globals of
    the module ([encoder], [mel_basis], [b], [a], [spk2gen], the imported
    functions) are bound before the loop and appear below as the fields of
    [extern] and [corpus]. *)
Definition name_lookup (genv : gmap string string) (n : string) : M string :=
  match genv !! n with
  | Some v => ret v
  | None => raise (NameError n)
  end.

Definition path_exists (p : string) : M bool :=
  fun fs => (fs, inr (bool_decide (p ∈ dirs fs))).

(** [os.makedirs(p)]: a path that exists already is an error.  [dirs]
    records the directory that is asked for; the missing parents, which
    [os.makedirs] creates on the way, are not recorded. *)
Definition makedirs (p : string) : M unit :=
  fun fs =>
    if bool_decide (p ∈ dirs fs) then (fs, inl (FileExistsError p))
    else (mkFsys ({[ p ]} ∪ dirs fs) (saved fs) (loaded fs), inr tt).

Definition np_save (p : string) (a : artifact) : M unit :=
  fun fs => (mkFsys (dirs fs) (saved fs ++ [(p, a)]) (loaded fs), inr tt).

(** *** The inputs of the script *)

(** The corpus on disk and the pickled speaker-to-gender dictionary.
    [walk p] is [next(os.walk(p))] without the directory name: sub-directory
    names and file names, [None] when [p] is not a directory.  [load p] is
    [librosa.load(p, sr=16000)]: samples and sampling rate. *)
Record corpus : Type := mkCorpus {
  walk : string -> option (list string * list string);
  spk2gen : gmap string string;
  load : string -> exn + (list R * Z)
}.

(** The numerical libraries the script calls, and the builtin [int].  A
    field of a library gives the value its call returns; a run in which such
    a call raises instead is not described. *)
Record extern : Type := mkExtern {
  (** [int(s)] on a string: the number, or the exception raised *)
  py_int : string -> exn + Z;
  (** [signal.filtfilt(b, a, x)] *)
  filtfilt : list R -> list R;
  (** [RandomState(seed).rand(n)] after [k] numbers were drawn *)
  rand : Z -> nat -> nat -> list R;
  (** [encoder.embed_utterance(preprocess_wav(wav, source_sr=16000))] *)
  embed_utterance : list R -> list R;
  (** [20 * np.log10(np.maximum(min_level, np.dot(pySTFT(wav).T, mel_basis)))] *)
  db_mel : list R -> list (list R);
  (** [sptk.rapt(x, fs, hopsize, min=lo, max=hi, otype=2)] *)
  rapt : list R -> Z -> Z -> Z -> Z -> list R
}.

Local Open Scope R_scope.

(** *** The steps of the loop body *)

(** Lines 63-64: one sample [1e-06] is appended when the sample count is a
    multiple of 256. *)
Definition length_adjust (x : list R) : list R :=
  if (length x mod 256 =? 0)%nat then x ++ [1 / 1000000] else x.

(** Line 66: [y * 0.96 + (prng.rand(y.shape[0]) - 0.5) * 1e-06]. *)
Definition dither (y r : list R) : list R :=
  map (fun p => fst p * (96 / 100) + (snd p - 5 / 10) * (1 / 1000000)) (combine y r).

(** Line 76: [S = (D_db + 100) / 100] with [D_db] 16 dB below [db_mel]. *)
Definition normalize_db (D : list (list R)) : list (list R) :=
  map (map (fun d => ((d - 16) + 100) / 100)) D.

Definition sentinel : R := - 10000000000.

(** Line 82: [f0_rapt != -1e10]. *)
Definition voiced (v : R) : bool :=
  if Req_dec_T v sentinel then false else true.

(** [f0[mask]]. *)
Definition select (f0 : list R) (mask : list bool) : list R :=
  map fst (List.filter snd (combine f0 mask)).

Definition sum (l : list R) : R := fold_right Rplus 0 l.

(** [np.mean]. *)
Definition mean (l : list R) : R := sum l / INR (length l).

(** [np.std]: the population standard deviation. *)
Definition std (l : list R) : R :=
  sqrt (mean (map (fun v => (v - mean l) * (v - mean l)) l)).

(** Modelled from the spec: [utils.speaker_normalization], imported by the
    script and absent from the sources.  Voiced frames become the z-score
    [(f0 - mean) / std]; unvoiced frames keep the sentinel value. *)
Definition speaker_normalization
    (f0 : list R) (index_nonzero : list bool) (mean_f0 std_f0 : R) : list R :=
  map (fun p => if (snd p : bool) then (fst p - mean_f0) / std_f0 else fst p)
      (combine f0 index_nonzero).

(** [f0_rapt[index_nonzero]], the voiced frames of a contour. *)
Definition voiced_values (f0 : list R) : list R := select f0 (map voiced f0).

(** Lines 82-86. *)
Definition normalize_f0 (f0_rapt : list R) : list R :=
  let index_nonzero := map voiced f0_rapt in
  let mean_f0 := mean (select f0_rapt index_nonzero) in
  let std_f0 := std (select f0_rapt index_nonzero) in
  speaker_normalization f0_rapt index_nonzero mean_f0 std_f0.

(** [f0_norm[index_nonzero]], the normalized values of the voiced frames. *)
Definition normalized_voiced (f0_rapt : list R) : list R :=
  select (normalize_f0 f0_rapt) (map voiced f0_rapt).

Definition vec_add (u v : list R) : list R :=
  map (fun p => fst p + snd p) (combine u v).

(** Line 106: [np.array(uttr_embs).mean(axis=0)] on a list that is not
    empty (see [spkr_emb] for the empty list). *)
Definition mean_axis0 (vs : list (list R)) : list R :=
  match vs with
  | [] => []
  | v :: vs' => map (fun s => s / INR (length vs)) (fold_left vec_add vs' v)
  end.

(** Lines 106-107, the array that is saved as the speaker's embedding: the
    mean over the utterances, and the zero-dimensional [nan] when the
    speaker has no utterance. *)
Definition spkr_emb (uttr_embs : list (list R)) : artifact :=
  match uttr_embs with
  | [] => ArrNaN
  | _ :: _ => Arr1 (mean_axis0 uttr_embs)
  end.

Local Close Scope R_scope.

(** *** The script *)

(** [librosa.load(path, sr=16000)], recording the read. *)
Definition librosa_load (c : corpus) (p : string) : M (list R * Z) :=
  fun fs => (mkFsys (dirs fs) (saved fs) (loaded fs ++ [p]), load c p).

(** [next(os.walk(p))]. *)
Definition next_walk (c : corpus) (p : string) : M (list string * list string) :=
  match walk c p with
  | Some r => ret r
  | None => raise StopIteration
  end.

(** [spk2gen[subdir]]. *)
Definition spk2gen_get (c : corpus) (k : string) : M string :=
  match spk2gen c !! k with
  | Some g => ret g
  | None => raise (KeyError k)
  end.

(** [RandomState(seed)]: the seed must fit in 32 bits. *)
Definition RandomState (seed : Z) : M Z :=
  if ((0 <=? seed) && (seed <? 2 ^ 32))%Z then ret seed else raise ValueError.

(** Lines 39-44, one of the three blocks. *)
Definition ensure_dir (genv : gmap string string) (n subdir : string) : M unit :=
  do d <- name_lookup genv n;
  do e <- path_exists (path_join d subdir);
  if negb e then
    do d' <- name_lookup genv n;
    makedirs (path_join d' subdir)
  else ret tt.

(** Lines 47-52. *)
Definition select_bounds (c : corpus) (subdir : string) : M (Z * Z) :=
  do g <- spk2gen_get c subdir;
  if String.eqb g "M" then ret (50, 250)%Z
  else
    do g' <- spk2gen_get c subdir;
    if String.eqb g' "F" then ret (100, 600)%Z
    else raise ValueError.

(** Lines 63-65. *)
Definition filtered (ex : extern) (x : list R) : list R :=
  filtfilt ex (length_adjust x).

(** Line 66: the cleaned waveform. *)
Definition clean (ex : extern) (seed : Z) (drawn : nat) (x : list R) : list R :=
  let y := filtered ex x in
  dither y (rand ex seed drawn (length y)).

(** Lines 73-76. *)
Definition spectrogram (ex : extern) (wav : list R) : list (list R) :=
  normalize_db (db_mel ex wav).

(** Lines 79-81. *)
Definition pitch (ex : extern) (wav : list R) (fs lo hi : Z) : list R :=
  rapt ex (map (fun v => (v * 32768)%R) wav) fs 256 lo hi.

(** Line 61: [os.path.join(dirName, subdir, fileName)]. *)
Definition wav_path (dn subdir fileName : string) : string :=
  path_join (path_join dn subdir) fileName.

(** Lines 91, 96, 101: [os.path.join(target, subdir, fileName[:-4])]. *)
Definition out_path (t subdir fileName : string) : string :=
  path_join (path_join t subdir) (str_drop_suffix 4 fileName).

(** Lines 56-104, the body of the inner loop.  The loop state is the
    number of random numbers drawn from [prng] and the list [uttr_embs]. *)
Definition process_file (genv : gmap string string) (ex : extern) (c : corpus)
    (subdir : string) (lo hi seed : Z)
    (st : nat * list (list R)) (fileName : string) : M (nat * list (list R)) :=
  if negb (String.eqb (str_suffix 4 fileName) ".wav") then ret st
  else
    do dn <- name_lookup genv "dirName";
    do xfs <- librosa_load c (wav_path dn subdir fileName);
    let '(x, fs) := xfs in
    run assert (fs =? 16000)%Z;
    let wav := clean ex seed (fst st) x in
    let uttr_emb := embed_utterance ex wav in
    let uttr_embs := snd st ++ [uttr_emb] in
    let S := spectrogram ex wav in
    let f0_rapt := pitch ex wav fs lo hi in
    let f0_norm := normalize_f0 f0_rapt in
    run assert (length S =? length f0_rapt);
    do t <- name_lookup genv "targetDir";
    run np_save (out_path t subdir fileName) (Arr2 S);
    do t0 <- name_lookup genv "targetDir_f0";
    run np_save (out_path t0 subdir fileName) (Arr1 f0_norm);
    do te <- name_lookup genv "targetDir_emb";
    run np_save (out_path te subdir fileName) (Arr1 uttr_emb);
    ret (fst st + length (filtered ex x), uttr_embs).

(** Lines 37-111, the body of the outer loop. *)
Definition process_speaker (genv : gmap string string) (ex : extern) (c : corpus)
    (subdir : string) : M unit :=
  run ensure_dir genv "targetDir" subdir;
  run ensure_dir genv "targetDir_f0" subdir;
  run ensure_dir genv "targetDir_emb" subdir;
  do dn <- name_lookup genv "dirName";
  do w <- next_walk c (path_join dn subdir);
  let fileList := snd w in
  do lohi <- select_bounds c subdir;
  do n <- lift (py_int ex (str_from 1 subdir));
  do seed <- RandomState n;
  do st <- for_fold (sorted fileList)
             (process_file genv ex c subdir (fst lohi) (snd lohi) seed) (0, []);
  let spkr_emb := spkr_emb (snd st) in
  do te <- name_lookup genv "targetDir_emb";
  np_save (path_join (path_join te subdir) (subdir ++ "_avg")) spkr_emb.

(** Lines 36-111. *)
Definition speaker_loop (genv : gmap string string) (ex : extern) (c : corpus)
    (subdirList : list string) : M unit :=
  for_each (sorted subdirList) (process_speaker genv ex c).

(** The string-valued globals after lines 29-31. *)
Definition module_globals : gmap string string :=
  <["targetDir" := "assets/vctk_full_spmel"]>
    (<["targetDir_f0" := "assets/vctk_full_raptf0"]>
       (<["rootDir" := "assets/vctk_full"]> ∅)).

(** The whole script from line 29 on. *)
Definition script (ex : extern) (c : corpus) : M unit :=
  let genv := module_globals in
  do root <- name_lookup genv "rootDir";
  do w <- next_walk c root;
  let genv := <["dirName" := root]> genv in
  let subdirList := fst w in
  speaker_loop genv ex c subdirList.

(** Line 59: the test that keeps a file name, [fileName[-4:] == ".wav"]. *)
Definition is_wav (fileName : string) : bool :=
  String.eqb (str_suffix 4 fileName) ".wav".

(** Line 56 and line 59 together: the waveform files of a speaker in the
    order the inner loop visits them. *)
Definition wav_files (fileList : list string) : list string :=
  List.filter is_wav (sorted fileList).

(** *** The inner loop, file by file *)

(** What one iteration of lines 61-86 computes from a waveform file: the
    normalized spectrogram, the pitch contour, the normalized pitch contour
    and the embedding. *)
Record utterance : Type := mkUtterance {
  u_file : string;
  u_S : list (list R);
  u_f0_rapt : list R;
  u_f0_norm : list R;
  u_emb : list R
}.

(** Lines 61-86 on the samples [x] of the file [fileName], when [drawn]
    random numbers were taken from [prng] by the files before it. *)
Definition utterance_of (ex : extern) (lo hi seed : Z) (drawn : nat)
    (fileName : string) (x : list R) : utterance :=
  let wav := clean ex seed drawn x in
  let f0_rapt := pitch ex wav 16000 lo hi in
  mkUtterance fileName (spectrogram ex wav) f0_rapt (normalize_f0 f0_rapt)
    (embed_utterance ex wav).

(** Lines 90-104: the three [np.save] calls of an utterance. *)
Definition utterance_artifacts (t t0 te subdir : string) (u : utterance)
    : list (string * artifact) :=
  [(out_path t subdir (u_file u), Arr2 (u_S u));
   (out_path t0 subdir (u_file u), Arr1 (u_f0_norm u));
   (out_path te subdir (u_file u), Arr1 (u_emb u))].

(** The utterances of the waveform files [files] in loop order.  Each file
    is cleaned with the random numbers that follow those of the files before
    it; the list stops at a file that does not load. *)
Fixpoint utterances (ex : extern) (c : corpus) (dn subdir : string)
    (lo hi seed : Z) (drawn : nat) (files : list string) : list utterance :=
  match files with
  | [] => []
  | fileName :: rest =>
      match load c (wav_path dn subdir fileName) with
      | inr (x, _) =>
          utterance_of ex lo hi seed drawn fileName x ::
          utterances ex c dn subdir lo hi seed (drawn + length (filtered ex x)) rest
      | inl _ => []
      end
  end.

End MakeSpectF0.

(** ** [utils/iemocap_loader_ft.py] *)

Module Iemocap.
Import Py.

(** *** The dataset index, [IEMOCAP.preprocess] *)

(** A cell of the [emotion] column: a label, or its code after line 48. *)
Inductive cell : Type :=
| Str (s : string)
| Int (n : nat).

(** A row of the manifest; [index] is its label in the frame's index.  The
    [session] column is empty until line 50 fills it. *)
Record row : Type := mkRow {
  index : nat;
  wav_file : string;
  emotion : cell;
  path_spmel : string;
  path_raptf0 : string;
  path_emb : string;
  session : string
}.

Definition set_emotion (r : row) (c : cell) : row :=
  mkRow (index r) (wav_file r) c (path_spmel r) (path_raptf0 r) (path_emb r) (session r).

Definition set_session (r : row) (s : string) : row :=
  mkRow (index r) (wav_file r) (emotion r) (path_spmel r) (path_raptf0 r) (path_emb r) s.

(** Line 24: [{emo: idx for idx, emo in enumerate(selected_emos)}]; a label
    listed twice keeps its last position. *)
Fixpoint emo2idx_from (i : nat) (selected_emos : list string) (m : gmap string nat)
    : gmap string nat :=
  match selected_emos with
  | [] => m
  | emo :: rest => emo2idx_from (S i) rest (<[emo := i]> m)
  end.

Definition emo2idx (selected_emos : list string) : gmap string nat :=
  emo2idx_from 0 selected_emos ∅.

(** Line 46: [isin(selected_emos)] on one cell. *)
Definition isin (selected_emos : list string) (c : cell) : bool :=
  match c with
  | Str s => bool_decide (s ∈ selected_emos)
  | Int _ => false
  end.

(** Line 48: [replace(emo2idx)] on one cell. *)
Definition replace (m : gmap string nat) (c : cell) : cell :=
  match c with
  | Str s => match m !! s with Some i => Int i | None => c end
  | Int _ => c
  end.

(** Lines 52-56, 57, 58: the three boolean masks. *)
Definition in_train (r : row) : bool :=
  String.eqb (session r) "01" || String.eqb (session r) "02" || String.eqb (session r) "03".

Definition in_val (r : row) : bool := String.eqb (session r) "04".

Definition in_test (r : row) : bool := String.eqb (session r) "05".

(** [np.unique] on integer codes: sorted, without repetition. *)
Fixpoint insert_unique (x : nat) (l : list nat) : list nat :=
  match l with
  | [] => [x]
  | y :: l' =>
      if x <? y then x :: l
      else if x =? y then l
      else y :: insert_unique x l'
  end.

Definition np_unique (l : list nat) : list nat := fold_right insert_unique [] l.

(** [np.bincount] at one code. *)
Definition bincount (y : list nat) (c : nat) : nat := count_occ Nat.eq_dec y c.

(** scikit-learn's [compute_class_weight("balanced", classes=classes, y=y)]:
    [len(y) / (n_classes * bincount(y))] read at each class, where
    [n_classes] counts the distinct values of [y]. *)
Definition compute_class_weight (classes y : list nat) : list Q :=
  let n_samples := inject_Z (Z.of_nat (length y)) in
  let n_classes := inject_Z (Z.of_nat (length (np_unique y))) in
  map (fun c => (n_samples / (n_classes * inject_Z (Z.of_nat (bincount y c))))%Q) classes.

(** The integer codes of a column ([.emotion.values]). *)
Definition codes (rs : list row) : list nat :=
  omap (fun r => match emotion r with Int n => Some n | Str _ => None end) rs.

Record dataset : Type := mkDataset {
  meta : list row;
  meta_train : list row;
  meta_val : list row;
  meta_test : list row;
  class_weight : list Q
}.

(** Line 48 on one row. *)
Definition encode (selected_emos : list string) (r : row) : row :=
  set_emotion r (replace (emo2idx selected_emos) (emotion r)).

(** Line 50 on one row: [s[3:5]] of the wav identifier. *)
Definition add_session (r : row) : row :=
  set_session r (str_slice 3 5 (wav_file r)).

(** Lines 46-71: the frames and the weights [preprocess] assigns.  The
    weights are those of a train partition that is not empty; [init] below
    has the exception of the empty one. *)
Definition preprocess (selected_emos : list string) (meta0 : list row) : dataset :=
  let meta1 := List.filter (fun r => isin selected_emos (emotion r)) meta0 in
  let meta2 := map (encode selected_emos) meta1 in
  let meta3 := map add_session meta2 in
  let train := List.filter in_train meta3 in
  let val := List.filter in_val meta3 in
  let test := List.filter in_test meta3 in
  let y := codes train in
  mkDataset meta3 train val test (compute_class_weight (np_unique y) y).

(** *** The batch assembler, [MyCollator] *)

(** A two-dimensional array: the frames of a spectrogram, each with
    [ncols] entries. *)
Record array2 : Type := mkArray2 {
  ncols : nat;
  rows : list (list Q)
}.

(** One output of [__getitem__]: [(melsp, emb_org, f0_org, emo)]. *)
Record token : Type := mkToken {
  melsp : array2;
  emb_org : list Q;
  f0_org : list Q;
  emo : nat
}.

Record hparams : Type := mkHparams {
  min_len_seq : nat;
  max_len_seq : nat;
  max_len_pad : nat
}.

(** The state of NumPy's global generator: the numbers it will deliver and
    how many were taken. *)
Record rng : Type := mkRng {
  draws : nat -> nat;
  pos : nat
}.

Local Notation "'do' x <- c ; k" :=
  (match c with inl e => inl e | inr x => k end)
  (at level 10, x name, c at level 100, k at level 200).

(** [np.random.randint(0, high)]: a number below [high], an error when
    there is none. *)
Definition randint (g : rng) (high : nat) : exn + (nat * rng) :=
  if 0 <? high then inr (draws g (pos g) mod high, mkRng (draws g) (S (pos g)))
  else inl ValueError.

(** [np.clip(a, 0, 1)] on one entry. *)
Definition clip (x : Q) : Q :=
  if Qle_bool x 0 then 0%Q else if Qle_bool 1 x then 1%Q else x.

Definition np_clip (a : array2) : array2 :=
  mkArray2 (ncols a) (map (map clip) (rows a)).

(** [np.pad(l, ((0, target - len(l)), (0, 0)), "constant", constant_values=fill)]:
    a negative pad width is an error. *)
Definition np_pad {A} (l : list A) (target : nat) (fill : A) : exn + list A :=
  if length l <=? target then inr (l ++ repeat fill (target - length l))
  else inl ValueError.

Definition sentinel : Q := (- 10000000000)%Q.

(** Lines 119-126: the crop.  The result is [(a, c, len_crop)] and the
    generator. *)
Definition crop (hp : hparams) (g : rng) (tok : token)
    : exn + (array2 * list Q * nat * rng) :=
  let aa := melsp tok in
  let c := f0_org tok in
  if max_len_seq hp <? length (rows aa) then
    let len_crop := max_len_seq hp in
    do lg <- randint g (length (rows aa) - len_crop);
    let left := fst lg in
    let a := mkArray2 (ncols aa) (slice left (left + len_crop) (rows aa)) in
    let c := slice left (left + len_crop) c in
    inr (a, c, len_crop, snd lg)
  else
    let len_crop := length (rows aa) in
    inr (aa, c, len_crop, g).

(** The same utterance under another label. *)
Definition relabel (f : nat -> nat) (tok : token) : token :=
  mkToken (melsp tok) (emb_org tok) (f0_org tok) (f (emo tok)).

(** An element of [new_batch]: [(a_pad, b, c_pad, len_crop, emo)]. *)
Record item : Type := mkItem {
  a_pad : array2;
  b_emb : list Q;
  c_pad : list (list Q);
  len_crop : nat;
  emo_lbl : nat
}.

(** Lines 118-137, the body of the loop. *)
Definition assemble (hp : hparams) (g : rng) (tok : token) : exn + (item * rng) :=
  do r <- crop hp g tok;
  let '(a, c, len_crop, g') := r in
  let a := np_clip a in
  do a_rows <- np_pad (rows a) (max_len_pad hp) (repeat 0%Q (ncols a));
  do c_pad <- np_pad (map (fun v => [v]) c) (max_len_pad hp) [sentinel];
  inr (mkItem (mkArray2 (ncols a) a_rows) (emb_org tok) c_pad len_crop (emo tok), g').

(** Lines 116-139, the loop. *)
Fixpoint assemble_all (hp : hparams) (g : rng) (batch : list token)
    : exn + (list item * rng) :=
  match batch with
  | [] => inr ([], g)
  | tok :: rest =>
      do r <- assemble hp g tok;
      do rs <- assemble_all hp (snd r) rest;
      inr (fst r :: fst rs, snd rs)
  end.

(** [np.stack(l, axis=0)]: the arrays must have one shape. *)
Definition np_stack {A} (shape : A -> nat) (l : list A) : exn + list A :=
  match l with
  | [] => inl ValueError
  | x :: l' =>
      if forallb (fun y => shape y =? shape x) l' then inr l else inl ValueError
  end.

(** What [__call__] returns: [(melsp, spk_emb, pitch, len_org)]. *)
Definition batch_out : Type :=
  (list array2 * list (list Q) * list (list (list Q)) * list nat)%type.

(** Lines 114-148, [MyCollator.__call__].  Unpacking the transposed [zip] of an
    empty batch is an error. *)
Definition collate (hp : hparams) (g : rng) (batch : list token)
    : exn + (batch_out * rng) :=
  do nb <- assemble_all hp g batch;
  let new_batch := fst nb in
  match new_batch with
  | [] => inl ValueError
  | _ =>
      do melsp <- np_stack ncols (map a_pad new_batch);
      do spk_emb <- np_stack (@length Q) (map b_emb new_batch);
      do pitch <- np_stack (@length (list Q)) (map c_pad new_batch);
      let len_org := map len_crop new_batch in
      let emo_org := map emo_lbl new_batch in
      inr ((melsp, spk_emb, pitch, len_org), snd nb)
  end.

(** Line 119: the test [len(aa) > self.max_len_seq]. *)
Definition is_long (hp : hparams) (tok : token) : bool :=
  max_len_seq hp <? length (rows (melsp tok)).

(** The pad widths of lines 129 and 132 are not negative: the cropped
    length, or else both original lengths, are at most [max_len_pad]. *)
Definition fits (hp : hparams) (tok : token) : bool :=
  if is_long hp tok then max_len_seq hp <=? max_len_pad hp
  else (length (rows (melsp tok)) <=? max_len_pad hp) &&
       (length (f0_org tok) <=? max_len_pad hp).

(** *** The dataset accessors, [IEMOCAP.__init__], [__getitem__], [__len__] *)

(** Line 25: [{idx: emo for idx, emo in enumerate(selected_emos)}]. *)
Fixpoint idx2emo_from (i : nat) (selected_emos : list string) (m : gmap nat string)
    : gmap nat string :=
  match selected_emos with
  | [] => m
  | emo :: rest => idx2emo_from (S i) rest (<[i := emo]> m)
  end.

Definition idx2emo (selected_emos : list string) : gmap nat string :=
  idx2emo_from 0 selected_emos ∅.

(** An array stored in a [.npy] file. *)
Inductive ndarray : Type :=
| Nd1 (a : list Q)
| Nd2 (a : array2).

(** The exceptions of [__getitem__]: a row label that [meta.loc] does not
    find, a file that [np.load] does not find. *)
Inductive item_error : Type :=
| IndexKeyError (index : nat)
| FileNotFoundError (path : string).

(** Lines 79-84: the partition [__getitem__] reads. *)
Definition getitem_meta (d : dataset) (mode : string) : list row :=
  if String.eqb mode "train" then meta_train d
  else if String.eqb mode "val" then meta_val d
  else meta_test d.

(** [np.load(path + ".npy")] on a store of files. *)
Definition np_load (files : gmap string ndarray) (path : string)
    : item_error + ndarray :=
  match files !! (path ++ ".npy")%string with
  | Some a => inr a
  | None => inl (FileNotFoundError (path ++ ".npy")%string)
  end.

(** Lines 76-96, [__getitem__]: after [reset_index] the rows of a partition
    are labelled by their positions. *)
Definition getitem (d : dataset) (mode : string) (files : gmap string ndarray)
    (index : nat) : item_error + (ndarray * ndarray * ndarray * cell) :=
  match nth_error (getitem_meta d mode) index with
  | None => inl (IndexKeyError index)
  | Some r =>
      let emo := emotion r in
      match np_load files (path_spmel r) with
      | inl e => inl e
      | inr melsp =>
          match np_load files (path_raptf0 r) with
          | inl e => inl e
          | inr f0_org =>
              match np_load files (path_emb r) with
              | inl e => inl e
              | inr emb_org => inr (melsp, emb_org, f0_org, emo)
              end
          end
      end
  end.

(** Lines 98-105, [__len__]. *)
Definition len (d : dataset) (mode : string) : nat :=
  if String.eqb mode "train" then length (meta_train d)
  else if String.eqb mode "test" then length (meta_test d)
  else length (meta_val d).

(** Lines 19-33, [IEMOCAP.__init__] on the frame [meta0] (the argument
    [meta], or the manifest read from disk): the index is built by
    [preprocess], whose last statement calls scikit-learn.  When the train
    partition is empty that call reads an empty array at an empty array of
    floats, which raises [IndexError], and no index is built. *)
Definition init (selected_emos : list string) (meta0 : list row) : exn + dataset :=
  let d := preprocess selected_emos meta0 in
  match codes (meta_train d) with
  | [] => inl IndexError
  | _ :: _ => inr d
  end.

End Iemocap.

(** ** [Decomposition/tfcompat/hparam.py], the functions before the class *)

Module HParam.

(** The [ValueError]s the functions raise, by message, the [OverflowError]
    of [float] on an integer and the [TypeError] of [bytes] on a string. *)
Inductive error : Type :=
| ParseFail (name : string)
| ReuseFail (name : string) (index : option nat)
| ListIndexFail
| CastFail (name : string)
| OverflowError
| TypeError.

(** A value of [results_dictionary]: a parsed scalar, a parsed list, or a
    dictionary from indices to parsed scalars. *)
Inductive entry (V : Type) : Type :=
| Scalar (v : V)
| Listed (vs : list V)
| Indexed (m : gmap nat V).

Arguments Scalar {V} v.
Arguments Listed {V} vs.
Arguments Indexed {V} m.

(** Lines 54-57: the assignment [results_dictionary[name][index] = parsed_value]
    once [results_dictionary[name]] is the dictionary [m]. *)
Definition assign_index {V} (name : string) (index : nat) (parsed_value : V)
    (m : gmap nat V) (results : gmap string (entry V))
    : error + gmap string (entry V) :=
  match m !! index with
  | Some _ => inl (ReuseFail name (Some index))
  | None => inr (<[name := Indexed (<[index := parsed_value]> m)]> results)
  end.

(** Lines 35-57, [_process_scalar_value].  [parse_fn] returns [None] where
    the Python function raises [ValueError]; [index] is the group of digits
    the regular expression matched, as a number, or [None]. *)
Definition process_scalar_value {V} (name : string) (parse_fn : string -> option V)
    (val : string) (index : option nat) (results : gmap string (entry V))
    : error + gmap string (entry V) :=
  match parse_fn val with
  | None => inl (ParseFail name)
  | Some parsed_value =>
      match index with
      | None =>
          match results !! name with
          | Some _ => inl (ReuseFail name None)
          | None => inr (<[name := Scalar parsed_value]> results)
          end
      | Some index =>
          match results !! name with
          | Some (Indexed m) => assign_index name index parsed_value m results
          | Some _ => inl (ReuseFail name None)
          | None =>
              assign_index name index parsed_value ∅ (<[name := Indexed ∅]> results)
          end
      end
  end.

(** [re.split('[ ,]', s)]: the pieces between blanks and commas, empty
    pieces included; [cur] is the piece being read. *)
Definition is_sep (c : ascii) : bool :=
  Ascii.eqb c " "%char || Ascii.eqb c ","%char.

Fixpoint re_split (cur s : string) : list string :=
  match s with
  | EmptyString => [cur]
  | String c s' =>
      if is_sep c then cur :: re_split EmptyString s'
      else re_split (cur ++ String c EmptyString)%string s'
  end.

(** Line 64: [filter(None, re.split('[ ,]', vals))]. *)
Definition elements (vals : string) : list string :=
  List.filter (fun e => negb (String.eqb e "")) (re_split "" vals).

(** [[parse_fn(e) for e in elements]]: [None] when some call raises. *)
Fixpoint parse_each {V} (parse_fn : string -> option V) (es : list string)
    : option (list V) :=
  match es with
  | [] => Some []
  | e :: es' =>
      match parse_fn e with
      | None => None
      | Some v =>
          match parse_each parse_fn es' with
          | None => None
          | Some vs => Some (v :: vs)
          end
      end
  end.

(** Lines 60-70, [_process_list_value]. *)
Definition process_list_value {V} (name : string) (parse_fn : string -> option V)
    (vals : string) (index : option nat) (results : gmap string (entry V))
    : error + gmap string (entry V) :=
  match index with
  | Some _ => inl ListIndexFail
  | None =>
      let es := elements vals in
      match results !! name with
      | Some _ => inl (ReuseFail name None)
      | None =>
          match parse_each parse_fn es with
          | None => inl (ParseFail name)
          | Some vs => inr (<[name := Listed vs]> results)
          end
      end
  end.

(** The parameter types and the values of hyperparameters: [NoneType],
    [bool], [int], [float], [str] and [bytes], the types the function tests
    for.  [F] is the type of floats. *)
Inductive ptype : Type := TNone | TBool | TInt | TFloat | TStr | TBytes.

Inductive value (F : Type) : Type :=
| VNone
| VBool (b : bool)
| VInt (z : Z)
| VFloat (f : F)
| VStr (s : string)
| VBytes (b : string).

Arguments VNone {F}.
Arguments VBool {F} b.
Arguments VInt {F} z.
Arguments VFloat {F} f.
Arguments VStr {F} s.
Arguments VBytes {F} b.

(** [type(value)]. *)
Definition type_of {F} (v : value F) : ptype :=
  match v with
  | VNone => TNone
  | VBool _ => TBool
  | VInt _ => TInt
  | VFloat _ => TFloat
  | VStr _ => TStr
  | VBytes _ => TBytes
  end.

(** [issubclass(param_type, c)] and [isinstance(value, c)] for the classes
    the function tests: [(six.string_types, six.binary_type)] (which holds
    [str] and [bytes]), [bool], [numbers.Integral] (which holds [bool] and
    [int]) and [numbers.Number] (which also holds [float]). *)
Definition is_string_type (t : ptype) : bool :=
  match t with TStr | TBytes => true | _ => false end.

Definition is_bool_type (t : ptype) : bool :=
  match t with TBool => true | _ => false end.

Definition is_integral_type (t : ptype) : bool :=
  match t with TBool | TInt => true | _ => false end.

Definition is_number_type (t : ptype) : bool :=
  match t with TBool | TInt | TFloat => true | _ => false end.

(** Line 96, [param_type(value)], on the arguments the tests let through.
    [float_of_int] is [float] on an integer, [None] when it overflows;
    [str_of_bytes] is [str] on a [bytes] value, the text of its literal.
    [bytes] on a string, which names no encoding, raises [TypeError]. *)
Definition construct {F} (float_of_int : Z -> option F)
    (str_of_bytes : string -> string) (name : string)
    (t : ptype) (v : value F) : error + value F :=
  match t, v with
  | TBool, VBool b => inr (VBool b)
  | TInt, VInt z => inr (VInt z)
  | TFloat, VFloat f => inr (VFloat f)
  | TFloat, VInt z =>
      match float_of_int z with
      | Some f => inr (VFloat f)
      | None => inl OverflowError
      end
  | TStr, VStr s => inr (VStr s)
  | TStr, VBytes b => inr (VStr (str_of_bytes b))
  | TBytes, VBytes b => inr (VBytes b)
  | TBytes, VStr _ => inl TypeError
  | _, _ => inl (CastFail name)
  end.

(** Lines 73-96, [_cast_to_type_if_compatible]. *)
Definition cast_to_type_if_compatible {F} (float_of_int : Z -> option F)
    (str_of_bytes : string -> string)
    (name : string) (param_type : ptype) (v : value F) : error + value F :=
  if match param_type with TNone => true | _ => false end then inr v
  else if is_string_type param_type && negb (is_string_type (type_of v)) then
    inl (CastFail name)
  else if negb (Bool.eqb (is_bool_type param_type) (is_bool_type (type_of v))) then
    inl (CastFail name)
  else if is_integral_type param_type && negb (is_integral_type (type_of v)) then
    inl (CastFail name)
  else if is_number_type param_type && negb (is_number_type (type_of v)) then
    inl (CastFail name)
  else construct float_of_int str_of_bytes name param_type v.

End HParam.

(** ** Concrete inputs *)

Module Samples.
Import Py.

(** Stand-ins for the numerical libraries: one frame and one pitch value per
    sample.  The speaker names of the concrete corpus are a letter followed
    by decimal digits, which [int_of_str] reads as [int] does. *)
Definition ex_aligned : MakeSpectF0.extern :=
MakeSpectF0.mkExtern
  int_of_str
  (fun x => x)
  (fun _ _ n => repeat 0%R n)
  (fun _ => [0%R])
  (fun w => map (fun v => [v]) w)
  (fun x _ _ _ _ => x).

(** Stand-ins whose pitch tracker returns one value more than there are
    frames. *)
Definition ex_misaligned : MakeSpectF0.extern :=
MakeSpectF0.mkExtern
  int_of_str
  (fun x => x)
  (fun _ _ n => repeat 0%R n)
  (fun _ => [0%R])
  (fun w => map (fun v => [v]) w)
  (fun x _ _ _ _ => 0%R :: x).

(** A corpus of two speakers; the gender of [p226] is neither ["M"] nor
    ["F"]. *)
Definition two_speakers : MakeSpectF0.corpus :=
MakeSpectF0.mkCorpus
  (fun p =>
     if String.eqb p "assets/vctk_full" then Some (["p226"; "p225"], [])
     else if String.eqb p "assets/vctk_full/p225" then Some ([], ["p225_001.wav"])
     else if String.eqb p "assets/vctk_full/p226" then Some ([], ["p226_001.wav"])
     else None)
  (<["p226" := "X"]> (<["p225" := "F"]> ∅))
  (fun _ => inr ([0%R; 0%R], 16000%Z)).

Definition empty_fs : MakeSpectF0.fsys := MakeSpectF0.mkFsys ∅ [] [].

(** The globals of the script inside the loop, and the same with the
    missing name assigned. *)
Definition loop_globals : gmap string string :=
<["dirName" := "assets/vctk_full"]> MakeSpectF0.module_globals.

Definition repaired_globals : gmap string string :=
<["targetDir_emb" := "assets/vctk_full_emb"]> loop_globals.

(** A manifest: two angry and one neutral utterance in the train sessions,
    one sad utterance in session 05. *)
Definition manifest : list Iemocap.row :=
[ Iemocap.mkRow 0 "Ses01F_impro01_F000" (Iemocap.Str "ang") "s0" "f0" "e0" "";
  Iemocap.mkRow 1 "Ses02M_impro02_M001" (Iemocap.Str "ang") "s1" "f1" "e1" "";
  Iemocap.mkRow 2 "Ses03F_script01_F002" (Iemocap.Str "neu") "s2" "f2" "e2" "";
  Iemocap.mkRow 3 "Ses05M_impro03_M003" (Iemocap.Str "sad") "s3" "f3" "e3" "" ].

(** A manifest whose second row belongs to a session beyond the five of
    the corpus. *)
Definition manifest_session_06 : list Iemocap.row :=
[ Iemocap.mkRow 0 "Ses01F_impro01_F000" (Iemocap.Str "ang") "s0" "f0" "e0" "";
  Iemocap.mkRow 1 "Ses06F_impro01_F001" (Iemocap.Str "ang") "s1" "f1" "e1" "" ].

(** A generator that always delivers 1. *)
Definition ones : Iemocap.rng := Iemocap.mkRng (fun _ => 1) 0.

(** An utterance of [n] frames with one mel bin. *)
Definition utterance (n label : nat) : Iemocap.token :=
Iemocap.mkToken (Iemocap.mkArray2 1 (repeat [(3 # 2)%Q] n)) [(1 # 4)%Q]
                (repeat (7 # 1)%Q n) label.

Definition hp_2_3 : Iemocap.hparams := Iemocap.mkHparams 0 2 3.

Definition hp_10_20 : Iemocap.hparams := Iemocap.mkHparams 0 10 20.

Definition hp_15_20 : Iemocap.hparams := Iemocap.mkHparams 0 15 20.

End Samples.

(** * Properties of [make_spect_f0.py] *)

Section MakeSpectF0Facts.
Import Py MakeSpectF0.

Example sorted_ex : sorted ["p226"; "p225"; "p3"] = ["p225"; "p226"; "p3"].
Proof. reflexivity. Qed.

Example str_suffix_ex :
  str_suffix 4 "a_001.wav" = ".wav" /\ str_drop_suffix 4 "a_001.wav" = "a_001".
Proof. split; reflexivity. Qed.

Example int_of_str_ex : int_of_str (str_from 1 "p225") = inr 225%Z.
Proof. reflexivity. Qed.

Lemma insert_sorted_cons x l : exists y r, insert_sorted x l = y :: r.
Proof.
  destruct l as [|z l]; simpl; [eauto|].
  destruct (String.leb x z); eauto.
Qed.

Lemma sorted_cons x l : exists y r, sorted (x :: l) = y :: r.
Proof. unfold sorted. simpl. apply insert_sorted_cons. Qed.

(** The two equations of [bind]. *)
Lemma bind_value {A B} (c : M A) (k : A -> M B) fs fs' a :
  c fs = (fs', inr a) -> bind c k fs = k a fs'.
Proof. intros H. unfold bind. now rewrite H. Qed.

Lemma bind_raise {A B} (c : M A) (k : A -> M B) fs fs' e :
  c fs = (fs', inl e) -> bind c k fs = (fs', inl e).
Proof. intros H. unfold bind. now rewrite H. Qed.

Lemma name_lookup_bound genv n v fs :
  genv !! n = Some v -> name_lookup genv n fs = (fs, inr v).
Proof. intros H. unfold name_lookup. now rewrite H. Qed.

Lemma name_lookup_unbound genv n fs :
  genv !! n = None -> name_lookup genv n fs = (fs, inl (NameError n)).
Proof. intros H. unfold name_lookup. now rewrite H. Qed.

(** A block of lines 39-44 whose directory name is bound leaves the
    directory in place and touches nothing else. *)
Lemma ensure_dir_bound genv n d subdir fs :
  genv !! n = Some d ->
  ensure_dir genv n subdir fs =
    (mkFsys ({[ path_join d subdir ]} ∪ dirs fs) (saved fs) (loaded fs), inr tt).
Proof.
  intros H. unfold ensure_dir, bind.
  rewrite (name_lookup_bound _ _ _ _ H). unfold path_exists.
  destruct (bool_decide (path_join d subdir ∈ dirs fs)) eqn:E; simpl.
  - apply bool_decide_eq_true in E. unfold ret.
    destruct fs as [ds sv ld]; simpl in *.
    assert (Hin : {[path_join d subdir]} ∪ ds = ds)
      by now apply subseteq_union_1_L, singleton_subseteq_l.
    now rewrite Hin.
  - rewrite (name_lookup_bound _ _ _ _ H). unfold makedirs. now rewrite E.
Qed.

Lemma ensure_dir_unbound genv n subdir fs :
  genv !! n = None -> ensure_dir genv n subdir fs = (fs, inl (NameError n)).
Proof.
  intros H. unfold ensure_dir, bind.
  now rewrite (name_lookup_unbound _ _ _ H).
Qed.

Lemma module_globals_rootDir : module_globals !! "rootDir" = Some "assets/vctk_full".
Proof. unfold module_globals. now simplify_map_eq. Qed.

Lemma module_globals_targetDir : module_globals !! "targetDir" = Some "assets/vctk_full_spmel".
Proof. unfold module_globals. now simplify_map_eq. Qed.

Lemma module_globals_targetDir_f0 :
  module_globals !! "targetDir_f0" = Some "assets/vctk_full_raptf0".
Proof. unfold module_globals. now simplify_map_eq. Qed.

Lemma module_globals_targetDir_emb : module_globals !! "targetDir_emb" = None.
Proof. unfold module_globals. now simplify_map_eq. Qed.

Lemma module_globals_dirName v :
  <["dirName" := v]> module_globals !! "targetDir_emb" = None.
Proof. unfold module_globals. now simplify_map_eq. Qed.

Lemma script_globals_targetDir v :
  <["dirName" := v]> module_globals !! "targetDir" = Some "assets/vctk_full_spmel".
Proof. unfold module_globals. now simplify_map_eq. Qed.

Lemma script_globals_targetDir_f0 v :
  <["dirName" := v]> module_globals !! "targetDir_f0" = Some "assets/vctk_full_raptf0".
Proof. unfold module_globals. now simplify_map_eq. Qed.

(** The outer loop stops at the first speaker whose body raises. *)
Lemma for_each_raises {A} (body : A -> M unit) x rest fs fs' e :
  body x fs = (fs', inl e) -> for_each (x :: rest) body fs = (fs', inl e).
Proof. intros H. simpl. unfold bind. now rewrite H. Qed.

(** With [targetDir] and [targetDir_f0] bound and [targetDir_emb] unbound,
    the body of the outer loop creates two directories and raises at
    line 43. *)
Lemma process_speaker_unbound genv ex c subdir fs t t0 :
  genv !! "targetDir" = Some t ->
  genv !! "targetDir_f0" = Some t0 ->
  genv !! "targetDir_emb" = None ->
  process_speaker genv ex c subdir fs =
    (mkFsys ({[ path_join t0 subdir ]} ∪ ({[ path_join t subdir ]} ∪ dirs fs))
            (saved fs) (loaded fs),
     inl (NameError "targetDir_emb")).
Proof.
  intros Ht Ht0 He. unfold process_speaker, bind.
  rewrite (ensure_dir_bound _ _ _ _ _ Ht).
  rewrite (ensure_dir_bound _ _ _ _ _ Ht0). simpl.
  now rewrite (ensure_dir_unbound _ _ _ _ He).
Qed.

(** C1.  On every corpus whose root directory holds at least one speaker
    sub-directory the script raises [NameError] for [targetDir_emb], a name
    no line of the module assigns, while it prepares the output directories
    of the first speaker (in sorted order): two directories at most are
    created, no waveform is read and no artifact is saved. *)
Theorem script_raises_NameError_targetDir_emb
    (ex : extern) (c : corpus) (fs0 : fsys) (subdirs files : list string) :
  walk c "assets/vctk_full" = Some (subdirs, files) ->
  subdirs <> [] ->
  module_globals !! "targetDir_emb" = None /\
  exists first rest,
    sorted subdirs = first :: rest /\
    script ex c fs0 =
      (mkFsys ({[ path_join "assets/vctk_full_raptf0" first ]} ∪
               ({[ path_join "assets/vctk_full_spmel" first ]} ∪ dirs fs0))
              (saved fs0) (loaded fs0),
       inl (NameError "targetDir_emb")).
Proof.
  intros Hw Hne. split; [apply module_globals_targetDir_emb|].
  destruct subdirs as [|s0 ss]; [congruence|].
  destruct (sorted_cons s0 ss) as (first & rest & Hs).
  exists first, rest. split; [exact Hs|].
  unfold script, bind.
  rewrite (name_lookup_bound _ _ _ _ module_globals_rootDir).
  unfold next_walk. rewrite Hw. unfold ret, speaker_loop. cbn [fst].
  rewrite Hs. apply for_each_raises.
  apply process_speaker_unbound.
  - apply script_globals_targetDir.
  - apply script_globals_targetDir_f0.
  - apply module_globals_dirName.
Qed.

(** An instance: the corpus of two speakers on an empty output tree. *)
Lemma script_raises_NameError_two_speakers :
snd (script Samples.ex_aligned Samples.two_speakers Samples.empty_fs) =
  inl (NameError "targetDir_emb") /\
saved (fst (script Samples.ex_aligned Samples.two_speakers Samples.empty_fs)) = [].
Proof.
destruct (script_raises_NameError_targetDir_emb
            Samples.ex_aligned Samples.two_speakers Samples.empty_fs
            ["p226"; "p225"] [] eq_refl ltac:(discriminate))
  as (_ & first & rest & _ & Hrun).
rewrite Hrun. split; reflexivity.
Defined.

(** C9.  The length adjustment appends the single sample [1e-06] exactly
    when the sample count is a multiple of 256: the length grows by one in
    that case and the waveform is unchanged otherwise. *)
Theorem length_adjust_multiple_of_256 (x : list R) :
  (length x mod 256 = 0 <-> length_adjust x = x ++ [(1 / 1000000)%R]) /\
  (length x mod 256 <> 0 <-> length_adjust x = x) /\
  length (length_adjust x) =
    (if Nat.eq_dec (length x mod 256) 0 then length x + 1 else length x).
Proof.
  assert (Hgrow : x ++ [(1 / 1000000)%R] <> x).
  { intros Hx. apply (f_equal (@length R)) in Hx.
    rewrite length_app in Hx. simpl in Hx. lia. }
  unfold length_adjust.
  destruct (Nat.eq_dec (length x mod 256) 0) as [E|E].
  - rewrite E. simpl. split; [|split].
    + split; auto.
    + split; [congruence|]. intros Hx. now elim Hgrow.
    + rewrite length_app. simpl. lia.
  - apply Nat.eqb_neq in E as E'. rewrite E'. split; [|split].
    + split; [congruence|]. intros Hx. now elim Hgrow.
    + split; auto.
    + reflexivity.
Qed.

(** C4.  In the body of the inner loop the assertion on the two frame
    counts precedes the three [np.save] calls.  (1) When the counts differ
    the body raises [AssertionError] with the save log untouched.  (2) If
    the body adds anything to the save log, the counts were equal.  (3) When
    they are equal and the three directory names are bound, the spectrogram,
    the normalized pitch contour and the embedding are saved, in this
    order. *)
Theorem frame_count_mismatch_saves_nothing
    (genv : gmap string string) (ex : extern) (c : corpus) (subdir : string)
    (lo hi seed : Z) (st : nat * list (list R)) (fileName dn : string)
    (x : list R) (fs0 : fsys) :
  str_suffix 4 fileName = ".wav" ->
  genv !! "dirName" = Some dn ->
  load c (wav_path dn subdir fileName) = inr (x, 16000%Z) ->
  let wav := clean ex seed (fst st) x in
  let S := spectrogram ex wav in
  let f0_rapt := pitch ex wav 16000 lo hi in
  let r := process_file genv ex c subdir lo hi seed st fileName fs0 in
  let fs1 := mkFsys (dirs fs0) (saved fs0) (loaded fs0 ++ [wav_path dn subdir fileName]) in
  (length S <> length f0_rapt -> r = (fs1, inl AssertionError)) /\
  (saved (fst r) <> saved fs0 -> length S = length f0_rapt) /\
  (length S = length f0_rapt ->
   forall t t0 te,
     genv !! "targetDir" = Some t ->
     genv !! "targetDir_f0" = Some t0 ->
     genv !! "targetDir_emb" = Some te ->
     r = (mkFsys (dirs fs0)
            (saved fs0 ++
               [(out_path t subdir fileName, Arr2 S);
                (out_path t0 subdir fileName, Arr1 (normalize_f0 f0_rapt));
                (out_path te subdir fileName, Arr1 (embed_utterance ex wav))])
            (loaded fs0 ++ [wav_path dn subdir fileName]),
          inr (fst st + length (filtered ex x), snd st ++ [embed_utterance ex wav]))).
Proof.
  intros Hsuf Hdn Hload wav S f0_rapt r fs1.
  assert (Hr : r =
    bind (assert (length S =? length f0_rapt))
      (fun _ =>
         bind (name_lookup genv "targetDir") (fun t =>
         bind (np_save (out_path t subdir fileName) (Arr2 S)) (fun _ =>
         bind (name_lookup genv "targetDir_f0") (fun t0 =>
         bind (np_save (out_path t0 subdir fileName) (Arr1 (normalize_f0 f0_rapt))) (fun _ =>
         bind (name_lookup genv "targetDir_emb") (fun te =>
         bind (np_save (out_path te subdir fileName) (Arr1 (embed_utterance ex wav))) (fun _ =>
         ret (fst st + length (filtered ex x), snd st ++ [embed_utterance ex wav])))))))) fs1).
  { subst r. unfold process_file. rewrite Hsuf, String.eqb_refl. cbn [negb].
    rewrite (bind_value _ _ _ _ _ (name_lookup_bound _ _ _ _ Hdn)).
    rewrite (bind_value _ _ fs0 fs1 (x, 16000%Z)).
    - now rewrite (bind_value _ _ fs1 fs1 tt).
    - unfold librosa_load. now rewrite Hload. }
  split; [|split].
  - intros Hneq. rewrite Hr. unfold bind, assert.
    apply Nat.eqb_neq in Hneq. now rewrite Hneq.
  - intros Hsaved. destruct (Nat.eq_dec (length S) (length f0_rapt)) as [E|E]; [exact E|].
    exfalso. apply Hsaved. rewrite Hr. unfold bind, assert.
    apply Nat.eqb_neq in E. now rewrite E.
  - intros Heq t t0 te Ht Ht0 Hte. rewrite Hr.
    apply Nat.eqb_eq in Heq. rewrite Heq.
    rewrite (bind_value _ _ fs1 fs1 tt) by reflexivity.
    rewrite (bind_value _ _ _ _ _ (name_lookup_bound _ _ _ _ Ht)).
    erewrite bind_value by reflexivity.
    rewrite (bind_value _ _ _ _ _ (name_lookup_bound _ _ _ _ Ht0)).
    erewrite bind_value by reflexivity.
    rewrite (bind_value _ _ _ _ _ (name_lookup_bound _ _ _ _ Hte)).
    erewrite bind_value by reflexivity.
    unfold ret. subst fs1. cbn [dirs saved loaded].
    rewrite <- !app_assoc. reflexivity.
Qed.

Lemma select_bounds_M c subdir fs :
  spk2gen c !! subdir = Some "M" -> select_bounds c subdir fs = (fs, inr (50, 250)%Z).
Proof.
  intros H. unfold select_bounds, bind, spk2gen_get. rewrite H. reflexivity.
Qed.

Lemma select_bounds_F c subdir fs :
  spk2gen c !! subdir = Some "F" -> select_bounds c subdir fs = (fs, inr (100, 600)%Z).
Proof.
  intros H. unfold select_bounds, bind, spk2gen_get. rewrite H. reflexivity.
Qed.

Lemma select_bounds_other c subdir g fs :
  spk2gen c !! subdir = Some g -> g <> "M" -> g <> "F" ->
  select_bounds c subdir fs = (fs, inl ValueError).
Proof.
  intros H HM HF. unfold select_bounds, bind, spk2gen_get. rewrite H. unfold ret.
  apply String.eqb_neq in HM, HF. now rewrite HM, HF.
Qed.

(** The body of the outer loop up to the gender test: it raises, or it
    reaches line 47 having changed the directories only. *)
Lemma process_speaker_prefix genv c subdir fs
    (k : list string * list string -> M unit) :
  let prefix :=
    bind (ensure_dir genv "targetDir" subdir) (fun _ =>
    bind (ensure_dir genv "targetDir_f0" subdir) (fun _ =>
    bind (ensure_dir genv "targetDir_emb" subdir) (fun _ =>
    bind (name_lookup genv "dirName") (fun dn =>
    bind (next_walk c (path_join dn subdir)) k)))) in
  (exists fs' e, prefix fs = (fs', inl e) /\
      saved fs' = saved fs /\ loaded fs' = loaded fs /\
      ~ (is_Some (genv !! "targetDir") /\ is_Some (genv !! "targetDir_f0") /\
         is_Some (genv !! "targetDir_emb") /\
         exists dn, genv !! "dirName" = Some dn /\
                    is_Some (walk c (path_join dn subdir)))) \/
  (exists fs' w, prefix fs = k w fs' /\ saved fs' = saved fs /\ loaded fs' = loaded fs).
Proof.
  intros prefix. subst prefix.
  destruct (genv !! "targetDir") as [t|] eqn:Ht.
  2:{ left. exists fs, (NameError "targetDir"). repeat split; auto.
      - apply bind_raise. now apply ensure_dir_unbound.
      - intros ([? ?] & _). discriminate. }
  rewrite (bind_value _ _ _ _ _ (ensure_dir_bound _ _ _ subdir fs Ht)).
  set (fs1 := mkFsys _ _ _).
  destruct (genv !! "targetDir_f0") as [t0|] eqn:Ht0.
  2:{ left. exists fs1, (NameError "targetDir_f0"). repeat split; auto.
      - apply bind_raise. now apply ensure_dir_unbound.
      - intros (_ & [? ?] & _). discriminate. }
  rewrite (bind_value _ _ _ _ _ (ensure_dir_bound _ _ _ subdir fs1 Ht0)).
  set (fs2 := mkFsys _ _ _).
  destruct (genv !! "targetDir_emb") as [te|] eqn:Hte.
  2:{ left. exists fs2, (NameError "targetDir_emb"). repeat split; auto.
      - apply bind_raise. now apply ensure_dir_unbound.
      - intros (_ & _ & [? ?] & _). discriminate. }
  rewrite (bind_value _ _ _ _ _ (ensure_dir_bound _ _ _ subdir fs2 Hte)).
  set (fs3 := mkFsys _ _ _).
  destruct (genv !! "dirName") as [dn|] eqn:Hdn.
  2:{ left. exists fs3, (NameError "dirName"). repeat split; auto.
      - apply bind_raise. now apply name_lookup_unbound.
      - intros (_ & _ & _ & dn & ? & _). discriminate. }
  rewrite (bind_value _ _ _ _ _ (name_lookup_bound _ _ _ fs3 Hdn)).
  destruct (walk c (path_join dn subdir)) as [w|] eqn:Hw.
  2:{ left. exists fs3, StopIteration. repeat split; auto.
      - apply bind_raise. unfold next_walk. now rewrite Hw.
      - intros (_ & _ & _ & dn' & Hdn' & [? Hw']).
        assert (dn' = dn) by congruence. subst dn'. congruence. }
  right. exists fs3, w. repeat split; auto.
  apply bind_value. unfold next_walk. now rewrite Hw.
Qed.

(** C8.  The pitch bounds follow the speaker's gender: ["M"] gives
    [(50, 250)], ["F"] gives [(100, 600)], and any other value raises
    [ValueError].  For such a speaker the body of the outer loop raises
    before any waveform is read or any artifact saved, and the loop over
    the speakers stops there, whatever speakers follow; when the body gets
    as far as the gender test the exception is [ValueError]. *)
Theorem gender_selects_pitch_bounds
    (genv : gmap string string) (ex : extern) (c : corpus) (subdir g : string)
    (fs0 : fsys) :
  spk2gen c !! subdir = Some g ->
  (g = "M" -> select_bounds c subdir fs0 = (fs0, inr (50, 250)%Z)) /\
  (g = "F" -> select_bounds c subdir fs0 = (fs0, inr (100, 600)%Z)) /\
  (g <> "M" -> g <> "F" ->
   select_bounds c subdir fs0 = (fs0, inl ValueError) /\
   exists fs' e,
     process_speaker genv ex c subdir fs0 = (fs', inl e) /\
     saved fs' = saved fs0 /\ loaded fs' = loaded fs0 /\
     (forall rest,
        for_each (subdir :: rest) (process_speaker genv ex c) fs0 = (fs', inl e)) /\
     (is_Some (genv !! "targetDir") /\ is_Some (genv !! "targetDir_f0") /\
      is_Some (genv !! "targetDir_emb") /\
      (exists dn, genv !! "dirName" = Some dn /\
                  is_Some (walk c (path_join dn subdir))) ->
      e = ValueError)).
Proof.
  intros Hg. split; [|split].
  - intros ->. now apply select_bounds_M.
  - intros ->. now apply select_bounds_F.
  - intros HM HF. split; [now apply (select_bounds_other _ _ g)|].
    unfold process_speaker.
    edestruct (process_speaker_prefix genv c subdir fs0) as
      [(fs' & e & Hrun & Hs & Hl & Hnot) | (fs' & w & Hrun & Hs & Hl)].
    + exists fs', e. rewrite Hrun. repeat split; auto.
      * intros rest. apply for_each_raises. unfold process_speaker. exact Hrun.
      * intros Hall. now elim Hnot.
    + exists fs', ValueError.
      assert (Hbody : process_speaker genv ex c subdir fs0 = (fs', inl ValueError)).
      { unfold process_speaker. rewrite Hrun.
        apply bind_raise. now apply (select_bounds_other _ _ g). }
      unfold process_speaker in Hbody. rewrite Hbody. repeat split; auto.
      intros rest. now apply for_each_raises.
Qed.

(** Instances: 512 samples become 513, three samples stay three. *)
Lemma length_adjust_512_and_3 :
length (length_adjust (repeat 0%R 512)) = 513 /\
length_adjust [0%R; 0%R; 0%R] = [0%R; 0%R; 0%R].
Proof.
split.
- destruct (length_adjust_multiple_of_256 (repeat 0%R 512)) as (_ & _ & H).
  rewrite H. reflexivity.
- destruct (length_adjust_multiple_of_256 [0%R; 0%R; 0%R]) as (_ & H & _).
  apply H. simpl. discriminate.
Defined.

(** An instance: a pitch tracker that returns one value too many. *)
Lemma frame_count_mismatch_p225 :
snd (process_file Samples.loop_globals Samples.ex_misaligned Samples.two_speakers
       "p225" 100 600 225 (0, []) "p225_001.wav" Samples.empty_fs) =
  inl AssertionError /\
saved (fst (process_file Samples.loop_globals Samples.ex_misaligned
              Samples.two_speakers "p225" 100 600 225 (0, []) "p225_001.wav"
              Samples.empty_fs)) = [].
Proof.
destruct (frame_count_mismatch_saves_nothing
            Samples.loop_globals Samples.ex_misaligned Samples.two_speakers
            "p225" 100 600 225 (0, []) "p225_001.wav" "assets/vctk_full"
            [0%R; 0%R] Samples.empty_fs eq_refl eq_refl eq_refl)
  as (Hmis & _ & _).
rewrite Hmis; [split; reflexivity|].
simpl. discriminate.
Defined.

(** An instance: speaker [p226], whose gender is ["X"]. *)
Lemma gender_X_raises_ValueError :
select_bounds Samples.two_speakers "p226" Samples.empty_fs =
  (Samples.empty_fs, inl ValueError) /\
exists fs',
  for_each ["p226"; "p227"]
    (process_speaker Samples.repaired_globals Samples.ex_aligned Samples.two_speakers)
    Samples.empty_fs = (fs', inl ValueError) /\
  saved fs' = [] /\ loaded fs' = [].
Proof.
destruct (gender_selects_pitch_bounds
            Samples.repaired_globals Samples.ex_aligned Samples.two_speakers
            "p226" "X" Samples.empty_fs eq_refl)
  as (_ & _ & H).
destruct H as (Hsel & fs' & e & _ & Hs & Hl & Hloop & He);
  [discriminate | discriminate |].
split; [exact Hsel|]. exists fs'.
rewrite (Hloop ["p227"]), He; [repeat split; assumption|].
repeat split; try (eexists; reflexivity).
exists "assets/vctk_full". split; [reflexivity | eexists; reflexivity].
Defined.

End MakeSpectF0Facts.

(** ** Pitch normalization *)

Section PitchNormalization.
Import Py MakeSpectF0.
Local Open Scope R_scope.

Lemma voiced_true v : v <> sentinel -> voiced v = true.
Proof. intros H. unfold voiced. now destruct (Req_dec_T v sentinel). Qed.

Lemma voiced_false v : v = sentinel -> voiced v = false.
Proof. intros H. unfold voiced. now destruct (Req_dec_T v sentinel). Qed.

Lemma speaker_normalization_length f0 m s :
  length (speaker_normalization f0 (map voiced f0) m s) = length f0.
Proof.
  unfold speaker_normalization.
  now rewrite length_map, length_combine, length_map, Nat.min_id.
Qed.

Lemma speaker_normalization_nth f0 m s i v :
  nth_error f0 i = Some v ->
  nth_error (speaker_normalization f0 (map voiced f0) m s) i =
    Some (if voiced v then (v - m) / s else v).
Proof.
  unfold speaker_normalization. revert i.
  induction f0 as [|a f0 IH]; intros [|i] H; simpl in *; try discriminate.
  - now inversion H.
  - now apply IH.
Qed.

Lemma select_speaker_normalization f0 m s :
  select (speaker_normalization f0 (map voiced f0) m s) (map voiced f0) =
  map (fun v => (v - m) / s) (voiced_values f0).
Proof.
  unfold voiced_values, select, speaker_normalization.
  induction f0 as [|a f0 IH]; simpl; [reflexivity|].
  destruct (voiced a); simpl; now rewrite IH.
Qed.

Lemma sum_map_div (f : R -> R) k l :
  sum (map (fun v => f v / k) l) = sum (map f l) / k.
Proof.
  unfold sum. induction l as [|a l IH]; simpl.
  - unfold Rdiv. now rewrite Rmult_0_l.
  - rewrite IH. unfold Rdiv. ring.
Qed.

Lemma sum_map_minus m l :
  sum (map (fun v => v - m) l) = sum l - INR (length l) * m.
Proof.
  unfold sum. induction l as [|a l IH].
  - simpl. ring.
  - cbn [map fold_right length]. rewrite IH, S_INR. ring.
Qed.

Lemma sum_squares_nonneg m l : 0 <= sum (map (fun v => (v - m) * (v - m)) l).
Proof.
  unfold sum. induction l as [|a l IH]; cbn [map fold_right]; [lra|].
  pose proof (Rle_0_sqr (a - m)) as Hsq. unfold Rsqr in Hsq. lra.
Qed.

Lemma std_nonzero_length l : std l <> 0 -> (0 < length l)%nat.
Proof.
  intros H. destruct l as [|a l]; [|simpl; lia].
  exfalso. apply H. unfold std, mean, sum. simpl.
  unfold Rdiv. rewrite Rmult_0_l. apply sqrt_0.
Qed.

(** The z-scores of a list have mean zero. *)
Lemma zscore_mean l s :
  (0 < length l)%nat -> mean (map (fun v => (v - mean l) / s) l) = 0.
Proof.
  intros Hn. unfold mean at 1. rewrite length_map.
  rewrite (sum_map_div (fun v => v - mean l)), sum_map_minus.
  assert (Hz : INR (length l) <> 0) by (apply not_0_INR; lia).
  assert (Hnum : sum l - INR (length l) * mean l = 0).
  { unfold mean. field. exact Hz. }
  rewrite Hnum. unfold Rdiv. ring.
Qed.

(** The z-scores of a list with non-zero deviation have deviation one. *)
Lemma zscore_std l :
  std l <> 0 -> std (map (fun v => (v - mean l) / std l) l) = 1.
Proof.
  intros Hs. pose proof (std_nonzero_length l Hs) as Hn.
  assert (Hz : INR (length l) <> 0) by (apply not_0_INR; lia).
  set (var := mean (map (fun v => (v - mean l) * (v - mean l)) l)).
  assert (Hvar : 0 <= var).
  { unfold var, mean. apply Rmult_le_pos; [apply sum_squares_nonneg|].
    apply Rlt_le, Rinv_0_lt_compat, lt_0_INR. rewrite length_map. lia. }
  assert (Hsq : std l * std l = var) by (apply sqrt_sqrt; exact Hvar).
  unfold std at 1. rewrite (zscore_mean l (std l) Hn).
  rewrite map_map.
  rewrite (map_ext _ (fun v => (v - mean l) * (v - mean l) / (std l * std l))).
  2:{ intros v. field. exact Hs. }
  unfold mean at 1. rewrite length_map.
  rewrite (sum_map_div (fun v => (v - mean l) * (v - mean l))).
  set (S := sum (map (fun v => (v - mean l) * (v - mean l)) l)).
  assert (Hvar_eq : var = S / INR (length l)).
  { unfold var, mean. now rewrite length_map. }
  assert (Hv : var <> 0) by (rewrite <- Hsq; now apply Rmult_integral_contrapositive).
  assert (HS : S <> 0).
  { intros H0. apply Hv. rewrite Hvar_eq, H0. unfold Rdiv. ring. }
  rewrite Hsq, Hvar_eq.
  replace (S / (S / INR (length l)) / INR (length l)) with 1
    by (field; split; assumption).
  apply sqrt_1.
Qed.

(** C7, as amended.  Normalization keeps the length of the contour, leaves
    every unvoiced frame equal to the sentinel and maps every voiced frame
    to its z-score, with mean and deviation taken over the voiced frames
    only.  When that deviation is not zero, the normalized voiced values
    have mean 0 and standard deviation 1. *)
Theorem normalize_f0_zscore (f0 : list R) :
  let V := voiced_values f0 in
  length (normalize_f0 f0) = length f0 /\
  (forall i v, nth_error f0 i = Some v -> v = sentinel ->
     nth_error (normalize_f0 f0) i = Some sentinel) /\
  (forall i v, nth_error f0 i = Some v -> v <> sentinel ->
     nth_error (normalize_f0 f0) i = Some ((v - mean V) / std V)) /\
  (std V <> 0 ->
     mean (normalized_voiced f0) = 0 /\ std (normalized_voiced f0) = 1).
Proof.
  intros V. unfold normalized_voiced, normalize_f0.
  fold (voiced_values f0). fold V.
  split; [apply speaker_normalization_length|].
  split; [|split].
  - intros i v Hi Hv.
    rewrite (speaker_normalization_nth _ _ _ _ _ Hi).
    rewrite (voiced_false _ Hv). now rewrite Hv.
  - intros i v Hi Hv.
    rewrite (speaker_normalization_nth _ _ _ _ _ Hi).
    now rewrite (voiced_true _ Hv).
  - intros Hs. rewrite select_speaker_normalization. fold V. split.
    + apply zscore_mean. now apply std_nonzero_length.
    + now apply zscore_std.
Qed.

(** C7 as stated fails on a contour with a single voiced frame: the
    deviation of the voiced frames is zero and the normalized voiced values
    do not have deviation 1. *)
Lemma normalize_f0_single_voiced_frame :
  let f0 := [120; sentinel] in
  voiced_values f0 = [120] /\
  std (voiced_values f0) = 0 /\
  std (normalized_voiced f0) <> 1.
Proof.
  assert (Hv : voiced 120 = true).
  { apply voiced_true. unfold sentinel. lra. }
  assert (Hu : voiced sentinel = false) by now apply voiced_false.
  assert (HV : voiced_values [120; sentinel] = [120]).
  { unfold voiced_values, select. simpl. now rewrite Hv, Hu. }
  assert (Hm : mean [120] = 120).
  { unfold mean, sum. simpl. field. }
  assert (Hs : std [120] = 0).
  { unfold std. rewrite Hm. unfold mean, sum. simpl.
    replace ((120 - 120) * (120 - 120) + 0) with 0 by ring.
    unfold Rdiv. rewrite Rmult_0_l. apply sqrt_0. }
  cbv zeta. rewrite HV. split; [reflexivity|]. split; [exact Hs|].
  unfold normalized_voiced, normalize_f0. cbv zeta.
  fold (voiced_values [120; sentinel]).
  rewrite select_speaker_normalization, HV, Hm. simpl map.
  replace ((120 - 120) / std [120]) with 0 by (unfold Rdiv; ring).
  unfold std, mean, sum. simpl.
  replace (((0 - (0 + 0) / 1) * (0 - (0 + 0) / 1) + 0) / 1) with 0 by field.
  rewrite sqrt_0. lra.
Qed.

(** An instance: two voiced frames around 120 and one unvoiced frame. *)
Lemma normalize_f0_two_voiced_frames :
let f0 := [100; 140; sentinel] in
mean (normalized_voiced f0) = 0 /\ std (normalized_voiced f0) = 1 /\
nth_error (normalize_f0 f0) 2 = Some sentinel.
Proof.
assert (H100 : voiced 100 = true) by (apply voiced_true; unfold sentinel; lra).
assert (H140 : voiced 140 = true) by (apply voiced_true; unfold sentinel; lra).
assert (Hu : voiced sentinel = false) by now apply voiced_false.
assert (HV : voiced_values [100; 140; sentinel] = [100; 140]).
{ unfold voiced_values, select. simpl. now rewrite H100, H140, Hu. }
assert (Hm : mean [100; 140] = 120).
{ unfold mean, sum. simpl. field. }
assert (Hs : std (voiced_values [100; 140; sentinel]) <> 0).
{ rewrite HV. unfold std. rewrite Hm. apply Rgt_not_eq, Rlt_gt, sqrt_lt_R0.
  unfold mean, sum. simpl. lra. }
destruct (normalize_f0_zscore [100; 140; sentinel]) as (_ & Hun & _ & Hz).
destruct (Hz Hs) as [Hmean Hstd].
cbv zeta. split; [exact Hmean|]. split; [exact Hstd|].
now apply (Hun 2%nat sentinel).
Defined.

End PitchNormalization.

(** * Properties of [iemocap_loader_ft.py] *)

Section DatasetIndexFacts.
Import Py Iemocap.

Example emo2idx_ex :
  emo2idx ["ang"; "neu"; "hap"; "sad"] !! "hap" = Some 2.
Proof. reflexivity. Qed.

Example session_ex : str_slice 3 5 "Ses01F_impro01_F000" = "01".
Proof. reflexivity. Qed.

Lemma in_train_val r : in_train r = true -> in_val r = true -> False.
Proof.
  unfold in_train, in_val. intros Ht Hv.
  apply String.eqb_eq in Hv. rewrite Hv in Ht. discriminate.
Qed.

Lemma in_train_test r : in_train r = true -> in_test r = true -> False.
Proof.
  unfold in_train, in_test. intros Ht Hv.
  apply String.eqb_eq in Hv. rewrite Hv in Ht. discriminate.
Qed.

Lemma in_val_test r : in_val r = true -> in_test r = true -> False.
Proof.
  unfold in_val, in_test. intros Ht Hv.
  apply String.eqb_eq in Hv. rewrite Hv in Ht. discriminate.
Qed.

Lemma in_some_partition r :
  in_train r || in_val r || in_test r = true <->
  In (session r) ["01"; "02"; "03"; "04"; "05"].
Proof.
  unfold in_train, in_val, in_test. simpl. split.
  - rewrite !orb_true_iff, !String.eqb_eq. intuition auto.
  - rewrite !orb_true_iff, !String.eqb_eq. intuition auto.
Qed.

(** The frames [preprocess] assigns: the three partitions are pairwise
    disjoint, train holds the rows of sessions 01-03, validation those of
    session 04 and test those of session 05; their union is the set of
    label-selected rows whose session is one of 01-05. *)
Lemma preprocess_partitions (selected_emos : list string) (meta0 : list row) :
  let d := preprocess selected_emos meta0 in
  meta d = map add_session (map (encode selected_emos)
             (List.filter (fun r => isin selected_emos (emotion r)) meta0)) /\
  (forall r, In r (meta_train d) <->
             In r (meta d) /\ In (session r) ["01"; "02"; "03"]) /\
  (forall r, In r (meta_val d) <-> In r (meta d) /\ session r = "04") /\
  (forall r, In r (meta_test d) <-> In r (meta d) /\ session r = "05") /\
  (forall r, ~ (In r (meta_train d) /\ In r (meta_val d)) /\
             ~ (In r (meta_train d) /\ In r (meta_test d)) /\
             ~ (In r (meta_val d) /\ In r (meta_test d))) /\
  (forall r, In r (meta_train d) \/ In r (meta_val d) \/ In r (meta_test d) <->
             In r (meta d) /\ In (session r) ["01"; "02"; "03"; "04"; "05"]).
Proof.
  intros d. subst d. unfold preprocess. cbn [meta meta_train meta_val meta_test].
  set (m := map add_session _).
  split; [reflexivity|].
  split; [|split; [|split; [|split]]].
  - intros r. rewrite filter_In. unfold in_train. simpl.
    rewrite !orb_true_iff, !String.eqb_eq. intuition auto.
  - intros r. rewrite filter_In. unfold in_val. now rewrite String.eqb_eq.
  - intros r. rewrite filter_In. unfold in_test. now rewrite String.eqb_eq.
  - intros r. rewrite !filter_In. repeat split; intros [[_ H1] [_ H2]].
    + exact (in_train_val r H1 H2).
    + exact (in_train_test r H1 H2).
    + exact (in_val_test r H1 H2).
  - intros r. rewrite !filter_In, <- in_some_partition, !orb_true_iff. tauto.
Qed.

(** No row has its label in the empty label set. *)
Lemma isin_nil_filter (meta0 : list row) :
  List.filter (fun r => isin [] (emotion r)) meta0 = [].
Proof.
  induction meta0 as [|r meta0 IH]; cbn [List.filter]; [reflexivity|].
  destruct (emotion r) as [e|n]; cbn [isin]; [|exact IH].
  destruct (bool_decide (e ∈ [])) eqn:Hb; [|exact IH].
  apply bool_decide_eq_true in Hb. now apply not_elem_of_nil in Hb.
Qed.

(** The index is built only when the train partition is not empty; the
    label set is then not empty either. *)
Lemma init_inr selected_emos meta0 d :
  init selected_emos meta0 = inr d ->
  d = preprocess selected_emos meta0 /\ meta_train d <> [] /\ selected_emos <> [].
Proof.
  unfold init. destruct (codes (meta_train (preprocess selected_emos meta0))) eqn:E;
    [discriminate|].
  intros H. inversion H; subst. clear H. split; [reflexivity|]. split.
  - intros Ht. rewrite Ht in E. discriminate.
  - intros ->. unfold preprocess in E. cbn [meta_train] in E.
    rewrite isin_nil_filter in E. discriminate.
Qed.

(** C2, as amended.  Whenever the index is built, for a label set that is
    then not empty, the three partitions are pairwise disjoint, train holds
    the rows of sessions 01-03, validation those of session 04 and test
    those of session 05; their union is the set of label-selected rows whose
    session is one of 01-05, and a row of any other session is in no
    partition. *)
Theorem partitions_disjoint_cover_sessions
    (selected_emos : list string) (meta0 : list row) (d : dataset) :
  init selected_emos meta0 = inr d ->
  selected_emos <> [] /\
  meta d = map add_session (map (encode selected_emos)
             (List.filter (fun r => isin selected_emos (emotion r)) meta0)) /\
  (forall r, In r (meta_train d) <->
             In r (meta d) /\ In (session r) ["01"; "02"; "03"]) /\
  (forall r, In r (meta_val d) <-> In r (meta d) /\ session r = "04") /\
  (forall r, In r (meta_test d) <-> In r (meta d) /\ session r = "05") /\
  (forall r, ~ (In r (meta_train d) /\ In r (meta_val d)) /\
             ~ (In r (meta_train d) /\ In r (meta_test d)) /\
             ~ (In r (meta_val d) /\ In r (meta_test d))) /\
  (forall r, In r (meta_train d) \/ In r (meta_val d) \/ In r (meta_test d) <->
             In r (meta d) /\ In (session r) ["01"; "02"; "03"; "04"; "05"]).
Proof.
  intros H. apply init_inr in H as (-> & _ & Hsel).
  split; [exact Hsel|]. apply preprocess_partitions.
Qed.

(** With no row in the train sessions no index is built. *)
Example init_empty_train :
  init ["ang"] [mkRow 0 "Ses06F_impro01_F000" (Str "ang") "s" "f" "e" ""] =
  inl IndexError.
Proof. reflexivity. Qed.

(** An instance: the index of the sample manifest. *)
Lemma partitions_of_sample_manifest :
exists d,
  init ["ang"; "neu"; "hap"; "sad"] Samples.manifest = inr d /\
  (forall r, In r (meta_train d) \/ In r (meta_val d) \/ In r (meta_test d) <->
             In r (meta d) /\ In (session r) ["01"; "02"; "03"; "04"; "05"]).
Proof.
exists (preprocess ["ang"; "neu"; "hap"; "sad"] Samples.manifest).
split; [reflexivity|].
destruct (partitions_disjoint_cover_sessions
            ["ang"; "neu"; "hap"; "sad"] Samples.manifest
            (preprocess ["ang"; "neu"; "hap"; "sad"] Samples.manifest) eq_refl)
  as (_ & _ & _ & _ & _ & _ & H).
exact H.
Defined.

(** C2 as stated fails: the index of this manifest is built, its selected
    row of session 06 survives the label filter and is in none of the three
    partitions. *)
Lemma partitions_miss_session_06 :
exists d,
  init ["ang"] Samples.manifest_session_06 = inr d /\
  meta d = [mkRow 0 "Ses01F_impro01_F000" (Int 0) "s0" "f0" "e0" "01";
            mkRow 1 "Ses06F_impro01_F001" (Int 0) "s1" "f1" "e1" "06"] /\
  meta_train d ++ meta_val d ++ meta_test d =
    [mkRow 0 "Ses01F_impro01_F000" (Int 0) "s0" "f0" "e0" "01"].
Proof. eexists. split; [reflexivity|]. split; reflexivity. Qed.

Lemma insert_unique_In x y l : In y (insert_unique x l) <-> y = x \/ In y l.
Proof.
  induction l as [|z l IH]; simpl; [intuition auto|].
  destruct (x <? z) eqn:Hlt; [simpl; intuition auto|].
  destruct (x =? z) eqn:Heq.
  - apply Nat.eqb_eq in Heq. subst z. simpl. intuition auto.
  - simpl. rewrite IH. intuition auto.
Qed.

(** [np.unique] keeps exactly the values that occur. *)
Lemma np_unique_In y l : In y (np_unique l) <-> In y l.
Proof.
  unfold np_unique. induction l as [|z l IH]; simpl; [tauto|].
  rewrite insert_unique_In, IH. intuition auto.
Qed.

Lemma bincount_pos y c : In c y <-> 0 < bincount y c.
Proof. unfold bincount. apply count_occ_In. Qed.

(** The balanced weight of a class, as a function of its count. *)
Lemma balanced_weight_decreasing (n k ca cb : nat) :
  0 < n -> 0 < k -> 0 < cb -> cb < ca ->
  (inject_Z (Z.of_nat n) / (inject_Z (Z.of_nat k) * inject_Z (Z.of_nat ca)) <
   inject_Z (Z.of_nat n) / (inject_Z (Z.of_nat k) * inject_Z (Z.of_nat cb)))%Q.
Proof.
  intros Hn Hk Hb Hab.
  assert (Hpos : forall m, 0 < m -> (0 < inject_Z (Z.of_nat m))%Q).
  { intros m Hm. unfold Qlt. simpl. lia. }
  unfold Qdiv. apply Qmult_lt_l; [now apply Hpos|].
  apply -> Qinv_lt_contravar.
  - apply Qmult_lt_l; [now apply Hpos|].
    unfold Qlt. simpl. lia.
  - apply Qmult_lt_0_compat; apply Hpos; lia.
  - apply Qmult_lt_0_compat; apply Hpos; lia.
Qed.

(** C10.  Among the labels of the train partition the balanced weights
    decrease strictly with the label count: [class_weight] is aligned with
    the sorted distinct train labels, and a label that occurs strictly more
    often than another has the strictly smaller weight. *)
Theorem class_weight_strictly_decreasing
    (selected_emos : list string) (meta0 : list row) (a b : nat) :
  let d := preprocess selected_emos meta0 in
  let y := codes (meta_train d) in
  In b y -> bincount y b < bincount y a ->
  length (class_weight d) = length (np_unique y) /\
  exists i j wa wb,
    nth_error (np_unique y) i = Some a /\
    nth_error (np_unique y) j = Some b /\
    nth_error (class_weight d) i = Some wa /\
    nth_error (class_weight d) j = Some wb /\
    (wa < wb)%Q.
Proof.
  intros d y Hb Hlt.
  assert (Ha : In a y) by (apply bincount_pos; lia).
  assert (Hcw : class_weight d = compute_class_weight (np_unique y) y) by reflexivity.
  rewrite Hcw. unfold compute_class_weight. split; [apply length_map|].
  destruct (In_nth_error _ _ (proj2 (np_unique_In a y) Ha)) as [i Hi].
  destruct (In_nth_error _ _ (proj2 (np_unique_In b y) Hb)) as [j Hj].
  exists i, j. eexists. eexists.
  split; [exact Hi|]. split; [exact Hj|].
  split; [apply map_nth_error; exact Hi|].
  split; [apply map_nth_error; exact Hj|].
  apply balanced_weight_decreasing.
  - destruct y; [contradiction | simpl; lia].
  - destruct (np_unique y) eqn:E; [|simpl; lia].
    apply np_unique_In in Ha. rewrite E in Ha. contradiction.
  - now apply bincount_pos.
  - exact Hlt.
Qed.

(** An instance: two angry utterances and one neutral utterance in the
    train partition. *)
Lemma class_weight_ang_below_neu :
let d := preprocess ["ang"; "neu"; "hap"; "sad"] Samples.manifest in
let y := codes (meta_train d) in
y = [0; 0; 1] /\
exists i j wa wb,
  nth_error (np_unique y) i = Some 0 /\
  nth_error (np_unique y) j = Some 1 /\
  nth_error (class_weight d) i = Some wa /\
  nth_error (class_weight d) j = Some wb /\
  (wa < wb)%Q.
Proof.
split; [reflexivity|].
apply (class_weight_strictly_decreasing
         ["ang"; "neu"; "hap"; "sad"] Samples.manifest 0 1).
- vm_compute. right. right. left. reflexivity.
- apply Nat.ltb_lt. vm_compute. reflexivity.
Defined.

End DatasetIndexFacts.

Section BatchAssemblerFacts.
Import Py Iemocap.

Lemma slice_length {A} (l : list A) left n :
  left + n <= length l -> length (slice left (left + n) l) = n.
Proof.
  intros H. unfold slice. rewrite length_firstn, length_skipn. lia.
Qed.

Lemma slice_nth_error {A} (l : list A) left n j :
  j < n -> nth_error (slice left (left + n) l) j = nth_error l (left + j).
Proof.
  intros H. unfold slice.
  replace (left + n - left) with n by lia.
  rewrite nth_error_firstn.
  destruct (j <? n) eqn:E; [|apply Nat.ltb_ge in E; lia].
  apply nth_error_skipn.
Qed.

Lemma randint_range g high :
  0 < high ->
  exists left, left < high /\
    randint g high = inr (left, mkRng (draws g) (S (pos g))).
Proof.
  intros H. unfold randint.
  destruct (0 <? high) eqn:E; [|apply Nat.ltb_ge in E; lia].
  exists (draws g (pos g) mod high). split; [|reflexivity].
  apply Nat.mod_upper_bound. lia.
Qed.

Lemma crop_short hp g tok :
length (rows (melsp tok)) <= max_len_seq hp ->
crop hp g tok = inr (melsp tok, f0_org tok, length (rows (melsp tok)), g).
Proof.
intros Hle. unfold crop.
destruct (max_len_seq hp <? length (rows (melsp tok))) eqn:E;
  [apply Nat.ltb_lt in E; lia | reflexivity].
Qed.

Lemma crop_long hp g tok :
max_len_seq hp < length (rows (melsp tok)) ->
exists left g',
  left + max_len_seq hp < length (rows (melsp tok)) /\
  crop hp g tok =
    inr (mkArray2 (ncols (melsp tok))
           (slice left (left + max_len_seq hp) (rows (melsp tok))),
         slice left (left + max_len_seq hp) (f0_org tok), max_len_seq hp, g').
Proof.
intros Hlt. unfold crop.
destruct (max_len_seq hp <? length (rows (melsp tok))) eqn:E;
  [|apply Nat.ltb_ge in E; lia].
destruct (randint_range g (length (rows (melsp tok)) - max_len_seq hp))
  as (left & Hleft & Hr); [lia|].
rewrite Hr. cbn [fst snd]. exists left. eexists. split; [lia | reflexivity].
Qed.

(** C5.  An utterance of at most [max_len_seq] frames keeps its
    spectrogram and its pitch contour, and its crop length is its frame
    count.  A longer one is cropped to [max_len_seq] frames: for some
    offset [left] with [left + max_len_seq] inside the utterance, the kept
    spectrogram frames and the kept pitch values are those at positions
    [left], ..., [left + max_len_seq - 1] of the originals. *)
Theorem crop_keeps_contiguous_window (hp : hparams) (g : rng) (tok : token) :
let aa := rows (melsp tok) in
let L := max_len_seq hp in
(length aa <= L ->
 crop hp g tok = inr (melsp tok, f0_org tok, length aa, g)) /\
(L < length aa ->
 exists left g',
   left + L < length aa /\
   crop hp g tok =
     inr (mkArray2 (ncols (melsp tok)) (slice left (left + L) aa),
          slice left (left + L) (f0_org tok), L, g') /\
   length (slice left (left + L) aa) = L /\
   (forall j, j < L ->
      nth_error (slice left (left + L) aa) j = nth_error aa (left + j)) /\
   (forall j, j < L ->
      nth_error (slice left (left + L) (f0_org tok)) j =
      nth_error (f0_org tok) (left + j))).
Proof.
intros aa L. split.
- apply crop_short.
- intros Hlt. destruct (crop_long hp g tok Hlt) as (left & g' & Hin & Hc).
  exists left, g'. fold aa in Hin, Hc. fold L in Hin, Hc.
  split; [exact Hin|]. split; [exact Hc|].
  split; [apply slice_length; lia|].
  split; intros j Hj; now apply slice_nth_error.
Qed.

Lemma clip_range x : (0 <= clip x /\ clip x <= 1)%Q.
Proof.
  unfold clip. destruct (Qle_bool x 0) eqn:E0.
  - split; [apply Qle_refl | discriminate].
  - destruct (Qle_bool 1 x) eqn:E1.
    + split; [discriminate | apply Qle_refl].
    + assert (H0 : ~ (x <= 0)%Q) by (rewrite <- Qle_bool_iff; congruence).
      assert (H1 : ~ (1 <= x)%Q) by (rewrite <- Qle_bool_iff; congruence).
      apply Qnot_le_lt in H0, H1. split; now apply Qlt_le_weak.
Qed.

Lemma np_pad_inr {A} (l r : list A) target fill :
  np_pad l target fill = inr r ->
  length l <= target /\ r = l ++ repeat fill (target - length l) /\
  length r = target.
Proof.
  unfold np_pad. destruct (length l <=? target) eqn:E; [|discriminate].
  apply Nat.leb_le in E. intros H. inversion H; subst. repeat split; auto.
  rewrite length_app, repeat_length. lia.
Qed.

Lemma np_pad_le {A} (l : list A) target fill :
  length l <= target ->
  np_pad l target fill = inr (l ++ repeat fill (target - length l)).
Proof.
  intros H. unfold np_pad. apply Nat.leb_le in H. now rewrite H.
Qed.

Lemma crop_len_crop hp g tok a c n g' :
  crop hp g tok = inr (a, c, n, g') ->
  n = Nat.min (length (rows (melsp tok))) (max_len_seq hp) /\
  ncols a = ncols (melsp tok).
Proof.
  unfold crop. destruct (max_len_seq hp <? length (rows (melsp tok))) eqn:E.
  - apply Nat.ltb_lt in E. destruct (randint g _) as [e|[left g1]]; [discriminate|].
    intros H. inversion H; subst. simpl. split; [lia | reflexivity].
  - apply Nat.ltb_ge in E. intros H. inversion H; subst. split; [lia | reflexivity].
Qed.

(** What the loop body makes of one utterance. *)
Lemma assemble_inr hp g tok it g' :
  assemble hp g tok = inr (it, g') ->
  exists a c,
    crop hp g tok = inr (a, c, len_crop it, g') /\
    ncols (a_pad it) = ncols a /\
    rows (a_pad it) =
      map (map clip) (rows a) ++
      repeat (repeat 0%Q (ncols a)) (max_len_pad hp - length (rows a)) /\
    c_pad it =
      map (fun v => [v]) c ++ repeat [sentinel] (max_len_pad hp - length c) /\
    b_emb it = emb_org tok /\ emo_lbl it = emo tok /\
    length (rows (a_pad it)) = max_len_pad hp /\
    length (c_pad it) = max_len_pad hp.
Proof.
  unfold assemble. destruct (crop hp g tok) as [e|[[[a c] n] g1]]; [discriminate|].
  destruct (np_pad (rows (np_clip a)) _ _) as [e|ar] eqn:Ea; [discriminate|].
  destruct (np_pad (map _ c) _ _) as [e|cp] eqn:Ec; [discriminate|].
  intros H. inversion H; subst. clear H. exists a, c. cbn.
  apply np_pad_inr in Ea as (_ & Ha & Hla).
  apply np_pad_inr in Ec as (_ & Hc & Hlc).
  cbn in Ha. rewrite !length_map in Ha, Hc.
  repeat split; auto.
Qed.

Lemma assemble_crop hp g tok a c n g' :
  crop hp g tok = inr (a, c, n, g') ->
  length (rows a) <= max_len_pad hp -> length c <= max_len_pad hp ->
  exists it, assemble hp g tok = inr (it, g') /\ len_crop it = n.
Proof.
  intros Hc Ha Hlc. unfold assemble. rewrite Hc.
  rewrite np_pad_le by (cbn; now rewrite length_map).
  rewrite np_pad_le by (now rewrite length_map).
  eexists. split; reflexivity.
Qed.

(** C6, as amended.  (1) Whatever the loop body returns for an utterance is
    its crop with every spectrogram entry clipped to [[0, 1]], followed by
    zero rows up to [max_len_pad], and the cropped pitch followed by
    entries [-1e10] up to [max_len_pad].  (2) The body returns whenever
    [max_len_seq <= max_len_pad] and the pitch contour has as many entries
    as the spectrogram has frames.  (3) With [max_len_pad = 20],
    [max_len_seq >= 15] and an utterance of 15 frames, the output
    spectrogram has the 15 clipped frames and 5 zero rows, the output pitch
    the 15 values and 5 entries [-1e10], and the crop length is 15. *)
Theorem assemble_clips_then_pads (hp : hparams) (g : rng) (tok : token) :
  (forall it g', assemble hp g tok = inr (it, g') ->
     exists a c,
       crop hp g tok = inr (a, c, len_crop it, g') /\
       rows (a_pad it) =
         map (map clip) (rows a) ++
         repeat (repeat 0%Q (ncols a)) (max_len_pad hp - length (rows a)) /\
       c_pad it =
         map (fun v => [v]) c ++ repeat [sentinel] (max_len_pad hp - length c) /\
       length (rows (a_pad it)) = max_len_pad hp /\
       length (c_pad it) = max_len_pad hp /\
       (forall row x, In row (rows (a_pad it)) -> In x row ->
                      (0 <= x /\ x <= 1)%Q)) /\
  (max_len_seq hp <= max_len_pad hp ->
   length (f0_org tok) = length (rows (melsp tok)) ->
   exists it g', assemble hp g tok = inr (it, g')) /\
  (max_len_pad hp = 20 -> 15 <= max_len_seq hp ->
   length (rows (melsp tok)) = 15 -> length (f0_org tok) = 15 ->
   exists it,
     assemble hp g tok = inr (it, g) /\
     len_crop it = 15 /\
     rows (a_pad it) =
       map (map clip) (rows (melsp tok)) ++
       repeat (repeat 0%Q (ncols (melsp tok))) 5 /\
     length (rows (a_pad it)) = 20 /\
     c_pad it = map (fun v => [v]) (f0_org tok) ++ repeat [sentinel] 5 /\
     length (c_pad it) = 20).
Proof.
  split; [|split].
  - intros it g' H.
    destruct (assemble_inr _ _ _ _ _ H) as (a & c & Hc & _ & Ha & Hcp & _ & _ & Hla & Hlc).
    exists a, c.
    split; [exact Hc|]. split; [exact Ha|]. split; [exact Hcp|].
    split; [exact Hla|]. split; [exact Hlc|].
    intros row x Hrow Hx. rewrite Ha in Hrow.
    apply in_app_or in Hrow as [Hin | Hin].
    + apply in_map_iff in Hin as (row0 & <- & _).
      apply in_map_iff in Hx as (x0 & <- & _). apply clip_range.
    + apply repeat_spec in Hin. subst row.
      apply repeat_spec in Hx. subst x. split; discriminate.
  - intros Hsp Hlen.
    destruct (crop_keeps_contiguous_window hp g tok) as [Hshort Hlong].
    destruct (le_lt_dec (length (rows (melsp tok))) (max_len_seq hp)) as [Hle|Hlt].
    + destruct (assemble_crop _ _ _ _ _ _ _ (Hshort Hle)) as (it & Hit & _);
        [lia | lia | eauto].
    + destruct (Hlong Hlt) as (left & g' & Hin & Hc & Hl & _).
      destruct (assemble_crop _ _ _ _ _ _ _ Hc) as (it & Hit & _); cbn.
      * lia.
      * unfold slice. rewrite length_firstn. lia.
      * eauto.
  - intros Hpad Hseq Hrows Hf0.
    destruct (crop_keeps_contiguous_window hp g tok) as [Hshort _].
    assert (Hc := Hshort ltac:(lia)).
    destruct (assemble_crop _ _ _ _ _ _ _ Hc) as (it & Hit & Hn); [lia | lia |].
    exists it. split; [exact Hit|].
    destruct (assemble_inr _ _ _ _ _ Hit) as (a & c & Hc' & _ & Ha & Hcp & _ & _ & Hla & Hlc).
    rewrite Hc in Hc'. inversion Hc'; subst a c.
    split; [congruence|].
    split; [rewrite Ha, Hpad, Hrows; reflexivity|].
    split; [rewrite Hla; exact Hpad|].
    split; [rewrite Hcp, Hpad, Hf0; reflexivity|].
    rewrite Hlc. exact Hpad.
Qed.

Lemma assemble_all_inr hp batch : forall g items g',
  assemble_all hp g batch = inr (items, g') ->
  length items = length batch /\
  forall i tok, nth_error batch i = Some tok ->
    exists it gi gi',
      nth_error items i = Some it /\ assemble hp gi tok = inr (it, gi').
Proof.
  induction batch as [|tok0 batch IH]; intros g items g' H; simpl in H.
  - inversion H; subst. split; [reflexivity|]. intros [|i] tok Hi; discriminate.
  - destruct (assemble hp g tok0) as [e|[it0 g1]] eqn:E0; [discriminate|].
    cbn [fst snd] in H.
    destruct (assemble_all hp g1 batch) as [e|[its g2]] eqn:E1; [discriminate|].
    inversion H; subst. clear H.
    destruct (IH _ _ _ E1) as [Hlen Hnth]. split; [simpl; now rewrite Hlen|].
    intros [|i] tok Hi; simpl in Hi.
    + inversion Hi; subst. exists it0, g, g1. split; [reflexivity | exact E0].
    + destruct (Hnth i tok Hi) as (it & gi & gi' & Hit & Has).
      exists it, gi, gi'. split; [exact Hit | exact Has].
Qed.

Lemma np_stack_inr {A} (shape : A -> nat) (l r : list A) :
  np_stack shape l = inr r -> r = l.
Proof.
  unfold np_stack. destruct l as [|x l]; [discriminate|].
  destruct (forallb _ l); [|discriminate]. now inversion 1.
Qed.

(** The returned tuple is read off the list [new_batch]. *)
Lemma collate_inr hp g batch out g' :
  collate hp g batch = inr (out, g') ->
  exists items,
    assemble_all hp g batch = inr (items, g') /\
    out = (map a_pad items, map b_emb items, map c_pad items, map len_crop items).
Proof.
  unfold collate.
  destruct (assemble_all hp g batch) as [e|[items g1]]; [discriminate|].
  cbn [fst snd]. destruct items as [|it items]; [discriminate|].
  destruct (np_stack ncols _) as [e|m] eqn:Em; [discriminate|].
  destruct (np_stack (@length Q) _) as [e|sp] eqn:Es; [discriminate|].
  destruct (np_stack (@length (list Q)) _) as [e|pt] eqn:Ep; [discriminate|].
  apply np_stack_inr in Em, Es, Ep. subst.
  intros H. inversion H; subst. exists (it :: items). split; reflexivity.
Qed.

Lemma assemble_relabel hp g f tok :
  match assemble hp g tok with
  | inl e => assemble hp g (relabel f tok) = inl e
  | inr (it, g') =>
      exists it',
        assemble hp g (relabel f tok) = inr (it', g') /\
        a_pad it' = a_pad it /\ b_emb it' = b_emb it /\
        c_pad it' = c_pad it /\ len_crop it' = len_crop it
  end.
Proof.
  unfold assemble.
  change (crop hp g (relabel f tok)) with (crop hp g tok).
  destruct (crop hp g tok) as [e|[[[a c] n] g1]]; [reflexivity|].
  destruct (np_pad (rows (np_clip a)) _ _) as [e|ar]; [reflexivity|].
  destruct (np_pad (map _ c) _ _) as [e|cp]; [reflexivity|].
  eexists. split; [reflexivity|]. repeat split.
Qed.

(** The label of an utterance reaches [new_batch] and nothing else. *)
Lemma assemble_all_relabel hp f batch : forall g,
  match assemble_all hp g batch with
  | inl e => assemble_all hp g (map (relabel f) batch) = inl e
  | inr (items, g') =>
      exists items',
        assemble_all hp g (map (relabel f) batch) = inr (items', g') /\
        map a_pad items' = map a_pad items /\
        map b_emb items' = map b_emb items /\
        map c_pad items' = map c_pad items /\
        map len_crop items' = map len_crop items
  end.
Proof.
  induction batch as [|tok batch IH]; intros g; simpl.
  - exists []. repeat split.
  - pose proof (assemble_relabel hp g f tok) as Hone.
    destruct (assemble hp g tok) as [e|[it g1]].
    + now rewrite Hone.
    + destruct Hone as (it' & -> & Ha1 & Hb1 & Hc1 & Hd1).
      cbn [fst snd]. specialize (IH g1).
      destruct (assemble_all hp g1 batch) as [e|[items g2]].
      * now rewrite IH.
      * destruct IH as (items' & -> & Ha & Hb & Hc & Hd). cbn [fst snd].
        eexists. split; [reflexivity|]. cbn.
        now rewrite Ha, Hb, Hc, Hd, Ha1, Hb1, Hc1, Hd1.
Qed.

Lemma collate_relabel hp g f batch :
  collate hp g (map (relabel f) batch) = collate hp g batch.
Proof.
  unfold collate. pose proof (assemble_all_relabel hp f batch g) as H.
  destruct (assemble_all hp g batch) as [e|[items g']].
  - now rewrite H.
  - destruct H as (items' & -> & Ha & Hb & Hc & Hd). cbn [fst snd].
    destruct items as [|it items]; destruct items' as [|it' items'];
      try discriminate; [reflexivity|].
    now rewrite Ha, Hb, Hc, Hd.
Qed.

(** C3, as amended.  A batch the collator returns has four components of
    the length of the input; at each position it holds the padded
    spectrogram and padded pitch that the loop body made of the utterance
    at that position, the utterance's speaker embedding and its crop
    length, the smaller of its frame count and [max_len_seq].  The labels
    are not part of it: changing the labels of the input changes nothing
    in the result. *)
Theorem collate_carries_lengths_not_labels
    (hp : hparams) (g : rng) (batch : list token)
    (m_out : list array2) (spk_emb : list (list Q))
    (pitch : list (list (list Q))) (len_org : list nat) (g' : rng) :
  collate hp g batch = inr ((m_out, spk_emb, pitch, len_org), g') ->
  (length m_out = length batch /\ length spk_emb = length batch /\
   length pitch = length batch /\ length len_org = length batch) /\
  (forall i tok, nth_error batch i = Some tok ->
     exists it gi gi',
       assemble hp gi tok = inr (it, gi') /\
       nth_error m_out i = Some (a_pad it) /\
       nth_error spk_emb i = Some (emb_org tok) /\
       nth_error pitch i = Some (c_pad it) /\
       nth_error len_org i =
         Some (Nat.min (length (rows (melsp tok))) (max_len_seq hp))) /\
  (forall f, collate hp g (map (relabel f) batch) =
             inr ((m_out, spk_emb, pitch, len_org), g')).
Proof.
  intros H. destruct (collate_inr _ _ _ _ _ H) as (items & Hall & Hout).
  inversion Hout; subst. clear Hout.
  destruct (assemble_all_inr _ _ _ _ _ Hall) as [Hlen Hnth].
  split; [now rewrite !length_map|]. split.
  - intros i tok Hi. destruct (Hnth i tok Hi) as (it & gi & gi' & Hit & Has).
    exists it, gi, gi'. split; [exact Has|].
    destruct (assemble_inr _ _ _ _ _ Has) as (a & c & Hc & _ & _ & _ & Hb & _).
    destruct (crop_len_crop _ _ _ _ _ _ _ Hc) as [Hn _].
    rewrite <- Hb, <- Hn.
    repeat split; now apply map_nth_error.
  - intros f. now rewrite collate_relabel.
Qed.

(** An instance of C5: four frames cropped to two, from offset 1. *)
Lemma crop_four_frames_to_two :
exists left g',
  left + 2 < 4 /\
  crop Samples.hp_2_3 Samples.ones (Samples.utterance 4 0) =
    inr (mkArray2 1 (slice left (left + 2) (repeat [(3 # 2)%Q] 4)),
         slice left (left + 2) (repeat (7 # 1)%Q 4), 2, g').
Proof.
destruct (crop_keeps_contiguous_window Samples.hp_2_3 Samples.ones
            (Samples.utterance 4 0)) as [_ Hlong].
destruct Hlong as (left & g' & Hin & Hc & _); [simpl; lia|].
exists left, g'. split; [exact Hin | exact Hc].
Defined.

(** An instance of C6: 15 frames, [max_len_seq = 15], [max_len_pad = 20]. *)
Lemma assemble_15_frames_pad_20 :
exists it,
  assemble Samples.hp_15_20 Samples.ones (Samples.utterance 15 0) =
    inr (it, Samples.ones) /\
  len_crop it = 15 /\
  rows (a_pad it) = repeat [1%Q] 15 ++ repeat [0%Q] 5 /\
  c_pad it = repeat [(7 # 1)%Q] 15 ++ repeat [sentinel] 5.
Proof.
destruct (assemble_clips_then_pads Samples.hp_15_20 Samples.ones
            (Samples.utterance 15 0)) as (_ & _ & Hex).
destruct Hex as (it & Hit & Hn & Ha & _ & Hc & _);
  [reflexivity | simpl; lia | reflexivity | reflexivity |].
exists it. split; [exact Hit|]. split; [exact Hn|].
split; [rewrite Ha | rewrite Hc]; reflexivity.
Defined.

(** C6 as stated fails when [max_len_seq] is below the frame count: with
    [max_len_pad = 20] and [max_len_seq = 10] an utterance of 15 frames is
    cropped first, so the output has 10 real and 10 zero rows, 10 pitch
    values and 10 entries [-1e10], and the crop length is 10. *)
Lemma assemble_15_frames_max_len_seq_10 :
max_len_pad Samples.hp_10_20 = 20 /\
length (rows (melsp (Samples.utterance 15 0))) = 15 /\
length (f0_org (Samples.utterance 15 0)) = 15 /\
exists it g',
  assemble Samples.hp_10_20 Samples.ones (Samples.utterance 15 0) = inr (it, g') /\
  len_crop it = 10 /\
  rows (a_pad it) = repeat [1%Q] 10 ++ repeat [0%Q] 10 /\
  c_pad it = repeat [(7 # 1)%Q] 10 ++ repeat [sentinel] 10.
Proof.
split; [reflexivity|]. split; [reflexivity|]. split; [reflexivity|].
eexists. eexists. split; [vm_compute; reflexivity|].
repeat split.
Qed.

(** An instance of C3: one utterance of one frame, relabelled. *)
Lemma collate_one_utterance :
collate Samples.hp_2_3 Samples.ones (map (relabel S) [Samples.utterance 1 7]) =
  inr (([mkArray2 1 [[1%Q]; [0%Q]; [0%Q]]],
        [[(1 # 4)%Q]],
        [[[(7 # 1)%Q]; [sentinel]; [sentinel]]],
        [1]), Samples.ones).
Proof.
destruct (collate_carries_lengths_not_labels
            Samples.hp_2_3 Samples.ones [Samples.utterance 1 7]
            [mkArray2 1 [[1%Q]; [0%Q]; [0%Q]]]
            [[(1 # 4)%Q]]
            [[[(7 # 1)%Q]; [sentinel]; [sentinel]]]
            [1] Samples.ones) as (_ & _ & Hlab).
- vm_compute. reflexivity.
- exact (Hlab S).
Defined.

(** C3 as stated fails: two batches that differ in their labels only are
    assembled into the same result, so no reading of the result gives the
    labels of the utterances. *)
Lemma collate_output_hides_labels :
emo (Samples.utterance 1 7) <> emo (Samples.utterance 1 8) /\
collate Samples.hp_2_3 Samples.ones [Samples.utterance 1 7] =
  collate Samples.hp_2_3 Samples.ones [Samples.utterance 1 8] /\
~ (exists recover : batch_out -> list nat,
     forall batch out g',
       collate Samples.hp_2_3 Samples.ones batch = inr (out, g') ->
       recover out = map emo batch).
Proof.
split; [discriminate|]. split; [reflexivity|].
intros [recover Hrec].
assert (H7 := Hrec [Samples.utterance 1 7] _ _ eq_refl).
assert (H8 := Hrec [Samples.utterance 1 8] _ _ eq_refl).
simpl in H7, H8. rewrite H7 in H8. discriminate.
Qed.

End BatchAssemblerFacts.

(** * Further properties of [make_spect_f0.py] *)

Section ScriptEdgeCases.
Import Py MakeSpectF0.

(** X1.  When the root directory is absent, [next(os.walk(rootDir))] makes
    the script raise [StopIteration]; when it exists and has no
    sub-directory, the script ends normally.  In both cases the file system
    is left as it was. *)
Theorem script_without_speakers (ex : extern) (c : corpus) (fs0 : fsys) :
(walk c "assets/vctk_full" = None ->
 script ex c fs0 = (fs0, inl StopIteration)) /\
(forall files, walk c "assets/vctk_full" = Some ([], files) ->
 script ex c fs0 = (fs0, inr tt)).
Proof.
split.
- intros Hw. unfold script.
  rewrite (bind_value _ _ _ _ _ (name_lookup_bound _ _ _ _ module_globals_rootDir)).
  apply bind_raise. unfold next_walk. now rewrite Hw.
- intros files Hw. unfold script.
  rewrite (bind_value _ _ _ _ _ (name_lookup_bound _ _ _ _ module_globals_rootDir)).
  rewrite (bind_value _ _ fs0 fs0 ([], files)); [reflexivity|].
  unfold next_walk. now rewrite Hw.
Qed.

(** [os.makedirs] creates a directory that does not exist and raises on one
    that does. *)
Lemma makedirs_new p fs :
p ∉ dirs fs ->
makedirs p fs = (mkFsys ({[ p ]} ∪ dirs fs) (saved fs) (loaded fs), inr tt).
Proof.
intros H. unfold makedirs. now rewrite bool_decide_eq_false_2.
Qed.

Lemma makedirs_existing p fs :
p ∈ dirs fs -> makedirs p fs = (fs, inl (FileExistsError p)).
Proof.
intros H. unfold makedirs. now rewrite bool_decide_eq_true_2.
Qed.

(** X2.  A directory block of lines 39-44 whose directory name is bound
    never raises, leaves the directory in place, removes no directory, and
    saves and reads nothing.  On a directory that is absent it does what
    [os.makedirs] does, on one that is present it does nothing; run a second
    time it changes nothing, where [os.makedirs] without the test of line 39
    would raise [FileExistsError]. *)
Theorem ensure_dir_idempotent
    (genv : gmap string string) (n d subdir : string) (fs : fsys) :
genv !! n = Some d ->
exists fs1,
  ensure_dir genv n subdir fs = (fs1, inr tt) /\
  ensure_dir genv n subdir fs1 = (fs1, inr tt) /\
  makedirs (path_join d subdir) fs1 =
    (fs1, inl (FileExistsError (path_join d subdir))) /\
  (path_join d subdir ∉ dirs fs -> makedirs (path_join d subdir) fs = (fs1, inr tt)) /\
  (path_join d subdir ∈ dirs fs -> fs1 = fs) /\
  path_join d subdir ∈ dirs fs1 /\
  dirs fs ⊆ dirs fs1 /\
  saved fs1 = saved fs /\ loaded fs1 = loaded fs.
Proof.
intros H. eexists. split; [apply (ensure_dir_bound _ _ _ _ _ H)|].
assert (Hin : path_join d subdir ∈ {[path_join d subdir]} ∪ dirs fs)
  by (apply elem_of_union_l; now apply elem_of_singleton).
split; [|split; [|split; [|split]]].
- rewrite (ensure_dir_bound _ _ _ _ _ H). cbn [dirs saved loaded].
  f_equal. f_equal.
  now apply subseteq_union_1_L, singleton_subseteq_l.
- now apply makedirs_existing.
- apply makedirs_new.
- intros Hex. destruct fs as [ds sv ld]. cbn [dirs saved loaded] in *.
  f_equal. now apply subseteq_union_1_L, singleton_subseteq_l.
- cbn [dirs saved loaded].
  split; [exact Hin|].
  split; [apply union_subseteq_r|]. split; reflexivity.
Qed.

Lemma ensure_dir_idempotent_p225 :
exists fs1,
  ensure_dir Samples.loop_globals "targetDir" "p225" Samples.empty_fs = (fs1, inr tt) /\
  ensure_dir Samples.loop_globals "targetDir" "p225" fs1 = (fs1, inr tt) /\
  makedirs "assets/vctk_full_spmel/p225" fs1 =
    (fs1, inl (FileExistsError "assets/vctk_full_spmel/p225")) /\
  "assets/vctk_full_spmel/p225" ∈ dirs fs1.
Proof.
destruct (ensure_dir_idempotent Samples.loop_globals "targetDir"
            "assets/vctk_full_spmel" "p225" Samples.empty_fs eq_refl)
  as (fs1 & H1 & H2 & Hmk & _ & _ & Hin & _).
exists fs1. repeat split; assumption.
Defined.

(** X3.  After the length adjustment the sample count is never a multiple
    of 256, and adjusting twice is adjusting once. *)
Theorem length_adjust_never_multiple_of_256 (x : list R) :
length (length_adjust x) mod 256 <> 0 /\
length_adjust (length_adjust x) = length_adjust x.
Proof.
assert (Hlen : length (length_adjust x) mod 256 <> 0).
{ unfold length_adjust. destruct (length x mod 256 =? 0) eqn:E.
  - apply Nat.eqb_eq in E. rewrite length_app. simpl length.
    rewrite Nat.Div0.add_mod, E. simpl. discriminate.
  - now apply Nat.eqb_neq in E. }
split; [exact Hlen|].
unfold length_adjust at 1. apply Nat.eqb_neq in Hlen. now rewrite Hlen.
Qed.

End ScriptEdgeCases.

Section SignalSteps.
Import Py MakeSpectF0.
Local Open Scope R_scope.

Lemma dither_length y r : length r = length y -> length (dither y r) = length y.
Proof.
intros H. unfold dither. rewrite length_map, length_combine. lia.
Qed.

Lemma dither_nth_error y : forall r i yi wi,
nth_error y i = Some yi -> nth_error (dither y r) i = Some wi ->
exists ri, nth_error r i = Some ri /\
  wi = yi * (96 / 100) + (ri - 5 / 10) * (1 / 1000000).
Proof.
unfold dither. induction y as [|a y IH]; intros r i yi wi Hy Hw.
- destruct i; discriminate.
- destruct r as [|b r]; [destruct i; discriminate|].
  destruct i as [|i]; simpl in *.
  + inversion Hy; inversion Hw; subst. exists b. split; reflexivity.
  + eapply IH; eassumption.
Qed.

(** X4.  When the generator delivers as many numbers as there are samples,
    all of them in [[0, 1)], the cleaned waveform has the length of the
    filtered one and each of its samples differs from 0.96 times the
    filtered sample by at most 5e-07. *)
Theorem clean_dither_amplitude (ex : extern) (seed : Z) (drawn : nat) (x : list R) :
let y := filtered ex x in
let r := rand ex seed drawn (length y) in
length r = length y ->
Forall (fun v => 0 <= v < 1) r ->
length (clean ex seed drawn x) = length y /\
forall i yi wi,
  nth_error y i = Some yi ->
  nth_error (clean ex seed drawn x) i = Some wi ->
  Rabs (wi - yi * (96 / 100)) <= 5 / 10000000.
Proof.
intros y r Hlen Hr. unfold clean. fold y. fold r.
split; [now apply dither_length|].
intros i yi wi Hy Hw.
destruct (dither_nth_error _ _ _ _ _ Hy Hw) as (ri & Hri & ->).
rewrite Forall_forall in Hr. apply nth_error_In, list_elem_of_In in Hri.
specialize (Hr ri Hri).
apply Rabs_le. lra.
Qed.

Lemma clean_dither_amplitude_two_samples :
length (clean Samples.ex_aligned 225 0 [0; 0]) = 2%nat.
Proof.
apply (clean_dither_amplitude Samples.ex_aligned 225 0 [0; 0]).
- reflexivity.
- simpl. repeat constructor; lra.
Defined.

Lemma vec_add_length u v : length (vec_add u v) = Nat.min (length u) (length v).
Proof. unfold vec_add. now rewrite length_map, length_combine. Qed.

Lemma vec_add_nth u : forall v j,
(j < length u)%nat -> (j < length v)%nat ->
nth j (vec_add u v) 0 = nth j u 0 + nth j v 0.
Proof.
unfold vec_add. induction u as [|a u IH]; intros v j Hu Hv; simpl in *; [lia|].
destruct v as [|b v]; simpl in *; [lia|].
destruct j as [|j]; simpl; [reflexivity|]. apply IH; lia.
Qed.

Lemma fold_vec_add_length vs : forall v d,
length v = d -> Forall (fun u => length u = d) vs ->
length (fold_left vec_add vs v) = d.
Proof.
induction vs as [|u vs IH]; intros v d Hv Hall; simpl; [exact Hv|].
inversion Hall as [|? ? Hu Hrest]; subst.
apply IH; [|exact Hrest]. rewrite vec_add_length. lia.
Qed.

Lemma fold_vec_add_nth vs : forall v d j,
length v = d -> Forall (fun u => length u = d) vs -> (j < d)%nat ->
nth j (fold_left vec_add vs v) 0 = nth j v 0 + sum (map (fun u => nth j u 0) vs).
Proof.
induction vs as [|u vs IH]; intros v d j Hv Hall Hj; simpl.
- unfold sum. simpl. ring.
- inversion Hall as [|? ? Hu Hrest]; subst.
  assert (Hl : length (vec_add v u) = length v).
  { rewrite vec_add_length. lia. }
  rewrite (IH (vec_add v u) (length v) j Hl Hrest Hj), vec_add_nth by lia.
  unfold sum. simpl. ring.
Qed.

(** X5.  For a non-empty list of embeddings of one dimension [d], the
    speaker embedding of line 106 has dimension [d] and its [j]-th entry is
    the sum of the [j]-th entries divided by the number of utterances. *)
Theorem mean_axis0_entries (vs : list (list R)) (d : nat) :
vs <> [] ->
Forall (fun v => length v = d) vs ->
length (mean_axis0 vs) = d /\
forall j, (j < d)%nat ->
  nth j (mean_axis0 vs) 0 =
  sum (map (fun v => nth j v 0) vs) / INR (length vs).
Proof.
intros Hne Hall. destruct vs as [|v vs]; [congruence|].
inversion Hall as [|? ? Hv Hrest]; subst.
unfold mean_axis0. split.
- rewrite length_map. now apply fold_vec_add_length.
- intros j Hj.
  rewrite (nth_indep _ 0 ((fun s => s / INR (length (v :: vs))) 0))
    by (rewrite length_map, (fold_vec_add_length vs v (length v)); auto).
  rewrite (map_nth (fun s => s / INR (length (v :: vs)))).
  rewrite (fold_vec_add_nth vs v (length v) j eq_refl Hrest Hj).
  unfold sum. simpl. reflexivity.
Qed.

Lemma mean_axis0_one_utterance :
length (mean_axis0 [[1; 2]]) = 2%nat /\
nth 1 (mean_axis0 [[1; 2]]) 0 = 2.
Proof.
destruct (mean_axis0_entries [[1; 2]] 2) as [Hl Hn].
- discriminate.
- repeat constructor.
- split; [exact Hl|]. rewrite (Hn 1%nat) by lia.
  unfold sum. simpl. field.
Defined.

End SignalSteps.

Section SpeakerLoop.
Import Py MakeSpectF0.

(** Inversion of a computation that returned. *)
Lemma bind_inr {A B} (c : M A) (k : A -> M B) fs fs' b :
bind c k fs = (fs', inr b) ->
exists fs1 a, c fs = (fs1, inr a) /\ k a fs1 = (fs', inr b).
Proof.
unfold bind. destruct (c fs) as [fs1 [e|a]]; [discriminate|]. eauto.
Qed.

Lemma name_lookup_inr genv n fs fs' v :
name_lookup genv n fs = (fs', inr v) -> genv !! n = Some v /\ fs' = fs.
Proof.
unfold name_lookup. destruct (genv !! n); unfold ret, raise; intros H;
  inversion H; auto.
Qed.

Lemma assert_inr b fs fs' u :
assert b fs = (fs', inr u) -> b = true /\ fs' = fs.
Proof.
unfold assert. destruct b; unfold ret, raise; intros H; inversion H; auto.
Qed.

Lemma ensure_dir_inr genv n subdir fs fs' u :
ensure_dir genv n subdir fs = (fs', inr u) ->
exists d, genv !! n = Some d /\
  fs' = mkFsys ({[ path_join d subdir ]} ∪ dirs fs) (saved fs) (loaded fs).
Proof.
destruct (genv !! n) as [d|] eqn:E.
- rewrite (ensure_dir_bound _ _ _ _ _ E). intros H. inversion H; subst. eauto.
- rewrite (ensure_dir_unbound _ _ _ _ E). discriminate.
Qed.

(** Inversion of a computation that raised. *)
Lemma bind_inl {A B} (c : M A) (k : A -> M B) fs fs' e :
bind c k fs = (fs', inl e) ->
c fs = (fs', inl e) \/ exists fs1 a, c fs = (fs1, inr a) /\ k a fs1 = (fs', inl e).
Proof.
unfold bind. destruct (c fs) as [fs1 [e'|a]]; simpl; intros H;
  [inversion H; subst; now left | right; eauto].
Qed.

Lemma name_lookup_inl genv n fs fs' e :
name_lookup genv n fs = (fs', inl e) -> fs' = fs.
Proof.
unfold name_lookup. destruct (genv !! n); unfold ret, raise; intros H;
  inversion H; auto.
Qed.

Lemma assert_inl b fs fs' e :
assert b fs = (fs', inl e) -> fs' = fs.
Proof.
unfold assert. destruct b; unfold ret, raise; intros H; inversion H; auto.
Qed.

(** What an iteration of the inner loop that returned has done. *)
Lemma process_file_inr genv ex c subdir lo hi seed st fileName fs0 fs1 st1 :
process_file genv ex c subdir lo hi seed st fileName fs0 = (fs1, inr st1) ->
(is_wav fileName = false /\ fs1 = fs0 /\ st1 = st) \/
(is_wav fileName = true /\
 exists dn x t t0 te,
   genv !! "dirName" = Some dn /\
   genv !! "targetDir" = Some t /\
   genv !! "targetDir_f0" = Some t0 /\
   genv !! "targetDir_emb" = Some te /\
   load c (wav_path dn subdir fileName) = inr (x, 16000%Z) /\
   length (spectrogram ex (clean ex seed (fst st) x)) =
     length (pitch ex (clean ex seed (fst st) x) 16000 lo hi) /\
   fs1 = mkFsys (dirs fs0)
           (saved fs0 ++
            [(out_path t subdir fileName,
              Arr2 (spectrogram ex (clean ex seed (fst st) x)));
             (out_path t0 subdir fileName,
              Arr1 (normalize_f0 (pitch ex (clean ex seed (fst st) x) 16000 lo hi)));
             (out_path te subdir fileName,
              Arr1 (embed_utterance ex (clean ex seed (fst st) x)))])
           (loaded fs0 ++ [wav_path dn subdir fileName]) /\
   st1 = (fst st + length (filtered ex x),
          snd st ++ [embed_utterance ex (clean ex seed (fst st) x)])).
Proof.
unfold process_file. fold (is_wav fileName).
destruct (is_wav fileName) eqn:Ew; cbn [negb].
2:{ unfold ret. intros H. inversion H; subst. left. auto. }
intros H. right. split; [reflexivity|].
apply bind_inr in H as (fsa & dn & Hdn & H).
apply name_lookup_inr in Hdn as [Hdn ->].
apply bind_inr in H as (fsb & [x fs] & Hload & H).
unfold librosa_load in Hload. inversion Hload as [[Hfsb Hl]]. clear Hload.
apply bind_inr in H as (fsc & [] & Has & H).
apply assert_inr in Has as [Hfs ->]. apply Z.eqb_eq in Hfs. subst fs.
apply bind_inr in H as (fsd & [] & Has & H).
apply assert_inr in Has as [Hlen ->]. apply Nat.eqb_eq in Hlen.
apply bind_inr in H as (fse & t & Ht & H).
apply name_lookup_inr in Ht as [Ht ->].
apply bind_inr in H as (fsf & [] & Hs1 & H).
unfold np_save in Hs1. inversion Hs1 as [Hfsf]. clear Hs1.
apply bind_inr in H as (fsg & t0 & Ht0 & H).
apply name_lookup_inr in Ht0 as [Ht0 ->].
apply bind_inr in H as (fsh & [] & Hs2 & H).
unfold np_save in Hs2. inversion Hs2 as [Hfsh]. clear Hs2.
apply bind_inr in H as (fsi & te & Hte & H).
apply name_lookup_inr in Hte as [Hte ->].
apply bind_inr in H as (fsj & [] & Hs3 & H).
unfold np_save in Hs3. inversion Hs3 as [Hfsj]. clear Hs3.
unfold ret in H. inversion H; subst. clear H.
exists dn, x, t, t0, te. cbn [dirs saved loaded].
repeat (split; [assumption|]). split; [|reflexivity].
now rewrite <- !app_assoc.
Qed.

(** An iteration whose names are bound, whose waveform loads at 16 kHz and
    whose frame counts agree returns. *)
Lemma process_file_value genv ex c subdir lo hi seed st fileName fs0 dn x t t0 te :
is_wav fileName = true ->
genv !! "dirName" = Some dn ->
genv !! "targetDir" = Some t ->
genv !! "targetDir_f0" = Some t0 ->
genv !! "targetDir_emb" = Some te ->
load c (wav_path dn subdir fileName) = inr (x, 16000%Z) ->
length (spectrogram ex (clean ex seed (fst st) x)) =
  length (pitch ex (clean ex seed (fst st) x) 16000 lo hi) ->
process_file genv ex c subdir lo hi seed st fileName fs0 =
  (mkFsys (dirs fs0)
     (saved fs0 ++
      [(out_path t subdir fileName,
        Arr2 (spectrogram ex (clean ex seed (fst st) x)));
       (out_path t0 subdir fileName,
        Arr1 (normalize_f0 (pitch ex (clean ex seed (fst st) x) 16000 lo hi)));
       (out_path te subdir fileName,
        Arr1 (embed_utterance ex (clean ex seed (fst st) x)))])
     (loaded fs0 ++ [wav_path dn subdir fileName]),
   inr (fst st + length (filtered ex x),
        snd st ++ [embed_utterance ex (clean ex seed (fst st) x)])).
Proof.
intros Hw Hdn Ht Ht0 Hte Hload Hlen.
unfold process_file. fold (is_wav fileName). rewrite Hw. cbn [negb].
rewrite (bind_value _ _ _ _ _ (name_lookup_bound _ _ _ _ Hdn)).
set (fs1 := mkFsys (dirs fs0) (saved fs0) (loaded fs0 ++ [wav_path dn subdir fileName])).
rewrite (bind_value _ _ fs0 fs1 (x, 16000%Z))
  by (unfold librosa_load; now rewrite Hload).
rewrite (bind_value _ _ fs1 fs1 tt) by reflexivity.
apply Nat.eqb_eq in Hlen. rewrite Hlen.
rewrite (bind_value _ _ fs1 fs1 tt) by reflexivity.
rewrite (bind_value _ _ _ _ _ (name_lookup_bound _ _ _ _ Ht)).
erewrite bind_value by reflexivity.
rewrite (bind_value _ _ _ _ _ (name_lookup_bound _ _ _ _ Ht0)).
erewrite bind_value by reflexivity.
rewrite (bind_value _ _ _ _ _ (name_lookup_bound _ _ _ _ Hte)).
erewrite bind_value by reflexivity.
unfold ret. subst fs1. cbn [dirs saved loaded].
now rewrite <- !app_assoc.
Qed.

(** A state reached from [fs0] by saving at most [k] artifacts and reading
    at most one waveform. *)
Lemma grows_by fs0 ds sv ld part l k :
ds = dirs fs0 -> sv = saved fs0 ++ part -> ld = loaded fs0 ++ l ->
length part <= k -> length l <= 1 ->
dirs (mkFsys ds sv ld) = dirs fs0 /\
(exists part, saved (mkFsys ds sv ld) = saved fs0 ++ part /\ length part <= k) /\
(exists l, loaded (mkFsys ds sv ld) = loaded fs0 ++ l /\ length l <= 1).
Proof.
intros -> -> -> Hp Hl. cbn [dirs saved loaded].
split; [reflexivity|]. split; eexists; split; try reflexivity; assumption.
Qed.

Lemma grows_refl fs0 k :
dirs fs0 = dirs fs0 /\
(exists part, saved fs0 = saved fs0 ++ part /\ length part <= k) /\
(exists l, loaded fs0 = loaded fs0 ++ l /\ length l <= 1).
Proof.
split; [reflexivity|]. split; exists []; rewrite app_nil_r; simpl; split; auto; lia.
Qed.

(** X6.  An iteration of the inner loop that ends normally has done one of
    two things.  Either the file name does not end in [.wav], and nothing
    changed.  Or it does, the four directory names are bound, the waveform
    loaded at 16 kHz and the two frame counts agree; then one waveform was
    read and exactly three artifacts were saved, in the order spectrogram,
    normalized pitch, embedding, one random number was drawn per filtered
    sample and the utterance's embedding was appended to [uttr_embs].  An
    iteration that raises is one on a [.wav] file; it has created no
    directory, read at most one waveform and saved at most two artifacts. *)
Theorem process_file_returns_after_three_saves
    (genv : gmap string string) (ex : extern) (c : corpus) (subdir : string)
    (lo hi seed : Z) (st st1 : nat * list (list R)) (fileName : string)
    (fs0 fs1 : fsys) :
(process_file genv ex c subdir lo hi seed st fileName fs0 = (fs1, inr st1) ->
 (is_wav fileName = false /\ fs1 = fs0 /\ st1 = st) \/
 (is_wav fileName = true /\
  exists dn x t t0 te,
    genv !! "dirName" = Some dn /\
    genv !! "targetDir" = Some t /\
    genv !! "targetDir_f0" = Some t0 /\
    genv !! "targetDir_emb" = Some te /\
    load c (wav_path dn subdir fileName) = inr (x, 16000%Z) /\
    length (spectrogram ex (clean ex seed (fst st) x)) =
      length (pitch ex (clean ex seed (fst st) x) 16000 lo hi) /\
    fs1 = mkFsys (dirs fs0)
            (saved fs0 ++
             [(out_path t subdir fileName,
               Arr2 (spectrogram ex (clean ex seed (fst st) x)));
              (out_path t0 subdir fileName,
               Arr1 (normalize_f0 (pitch ex (clean ex seed (fst st) x) 16000 lo hi)));
              (out_path te subdir fileName,
               Arr1 (embed_utterance ex (clean ex seed (fst st) x)))])
            (loaded fs0 ++ [wav_path dn subdir fileName]) /\
    st1 = (fst st + length (filtered ex x),
           snd st ++ [embed_utterance ex (clean ex seed (fst st) x)]))) /\
(forall e,
   process_file genv ex c subdir lo hi seed st fileName fs0 = (fs1, inl e) ->
   is_wav fileName = true /\
   dirs fs1 = dirs fs0 /\
   (exists part, saved fs1 = saved fs0 ++ part /\ length part <= 2) /\
   (exists l, loaded fs1 = loaded fs0 ++ l /\ length l <= 1)).
Proof.
split; [apply process_file_inr|].
intros e. unfold process_file. fold (is_wav fileName).
destruct (is_wav fileName) eqn:Ew; cbn [negb]; [|discriminate].
intros H. split; [reflexivity|].
apply bind_inl in H as [H | (fsa & dn & Hdn & H)].
{ apply name_lookup_inl in H as ->. apply grows_refl. }
apply name_lookup_inr in Hdn as [Hdn ->].
set (fsl := mkFsys (dirs fs0) (saved fs0) (loaded fs0 ++ [wav_path dn subdir fileName])).
assert (Hfsl : forall k, dirs fsl = dirs fs0 /\
  (exists part, saved fsl = saved fs0 ++ part /\ length part <= k) /\
  (exists l, loaded fsl = loaded fs0 ++ l /\ length l <= 1)).
{ intros k. apply (grows_by fs0 _ _ _ [] [wav_path dn subdir fileName]);
    try reflexivity; [now rewrite app_nil_r | simpl; lia]. }
apply bind_inl in H as [H | (fsb & [x fs] & Hload & H)].
{ unfold librosa_load in H. inversion H; subst. apply Hfsl. }
unfold librosa_load in Hload. inversion Hload as [[Hfsb Hl]]. clear Hload.
fold fsl in Hfsb. subst fsb.
apply bind_inl in H as [H | (fsc & [] & Has & H)].
{ apply assert_inl in H as ->. apply Hfsl. }
apply assert_inr in Has as [_ ->].
apply bind_inl in H as [H | (fsd & [] & Has & H)].
{ apply assert_inl in H as ->. apply Hfsl. }
apply assert_inr in Has as [_ ->].
apply bind_inl in H as [H | (fse & t & Ht & H)].
{ apply name_lookup_inl in H as ->. apply Hfsl. }
apply name_lookup_inr in Ht as [Ht ->].
apply bind_inl in H as [H | (fsf & [] & Hs1 & H)]; [discriminate|].
unfold np_save in Hs1. inversion Hs1 as [Hfsf]. clear Hs1. subst fsf.
apply bind_inl in H as [H | (fsg & t0 & Ht0 & H)].
{ apply name_lookup_inl in H as ->.
  eapply (grows_by fs0 _ _ _ [_] [_]); try reflexivity; simpl; lia. }
apply name_lookup_inr in Ht0 as [Ht0 ->].
apply bind_inl in H as [H | (fsh & [] & Hs2 & H)]; [discriminate|].
unfold np_save in Hs2. inversion Hs2 as [Hfsh]. clear Hs2. subst fsh.
apply bind_inl in H as [H | (fsi & te & Hte & H)].
{ apply name_lookup_inl in H as ->. cbn [dirs saved loaded].
  eapply (grows_by fs0 _ _ _ [_; _] [_]); try reflexivity;
    try (simpl; lia).
  symmetry. apply (app_assoc (saved fs0) [_] [_]). }
apply name_lookup_inr in Hte as [Hte ->].
apply bind_inl in H as [H | (fsj & [] & Hs3 & H)]; discriminate.
Qed.

Lemma process_file_p225_three_saves :
exists fs1 st1,
  process_file Samples.repaired_globals Samples.ex_aligned Samples.two_speakers
    "p225" 100 600 225 (0, []) "p225_001.wav" Samples.empty_fs = (fs1, inr st1) /\
  length (saved fs1) = 3 /\ loaded fs1 = ["assets/vctk_full/p225/p225_001.wav"].
Proof.
pose proof (process_file_value
              Samples.repaired_globals Samples.ex_aligned Samples.two_speakers
              "p225" 100 600 225 (0, []) "p225_001.wav" Samples.empty_fs
              "assets/vctk_full" [0%R; 0%R]
              "assets/vctk_full_spmel" "assets/vctk_full_raptf0"
              "assets/vctk_full_emb"
              eq_refl eq_refl eq_refl eq_refl eq_refl eq_refl eq_refl) as Hrun.
destruct (proj1 (process_file_returns_after_three_saves _ _ _ _ _ _ _ _ _ _ _ _) Hrun)
  as [(Hw & _) | (_ & dn & x & t & t0 & te & _ & _ & _ & _ & _ & _ & Hfs & _)].
- discriminate.
- eexists. eexists. split; [exact Hrun|]. split; reflexivity.
Defined.

(** The inner loop as a whole, when it returns: it has computed and saved
    the utterances of the waveform files, in order. *)
Lemma for_fold_inr genv ex c subdir lo hi seed dn t t0 te files :
forall st fs st' fs',
genv !! "dirName" = Some dn ->
genv !! "targetDir" = Some t ->
genv !! "targetDir_f0" = Some t0 ->
genv !! "targetDir_emb" = Some te ->
for_fold files (process_file genv ex c subdir lo hi seed) st fs = (fs', inr st') ->
let wavs := List.filter is_wav files in
let us := utterances ex c dn subdir lo hi seed (fst st) wavs in
map u_file us = wavs /\
List.Forall (fun f => exists x, load c (wav_path dn subdir f) = inr (x, 16000%Z)) wavs /\
List.Forall (fun u => length (u_S u) = length (u_f0_rapt u)) us /\
dirs fs' = dirs fs /\
saved fs' = saved fs ++ concat (map (utterance_artifacts t t0 te subdir) us) /\
loaded fs' = loaded fs ++ map (wav_path dn subdir) wavs /\
snd st' = snd st ++ map u_emb us.
Proof.
induction files as [|f files IH]; intros st fs st' fs' Hdn Ht Ht0 Hte H; simpl in H.
- unfold ret in H. inversion H; subst. simpl.
  rewrite !app_nil_r. repeat split; constructor.
- apply bind_inr in H as (fs1 & st1 & Hone & Hrest).
  specialize (IH _ _ _ _ Hdn Ht Ht0 Hte Hrest).
  apply process_file_inr in Hone
    as [(Hw & -> & ->) |
        (Hw & dn' & x & t' & t0' & te' & Hdn' & Ht' & Ht0' & Hte' & Hload & Hlen & -> & ->)].
  + cbn [List.filter]. rewrite Hw. exact IH.
  + assert (dn' = dn) by congruence. subst dn'.
    assert (t' = t) by congruence. subst t'.
    assert (t0' = t0) by congruence. subst t0'.
    assert (te' = te) by congruence. subst te'.
    cbn [List.filter]. rewrite Hw.
    cbn [utterances]. rewrite Hload.
    cbn [dirs saved loaded fst snd] in IH.
    destruct IH as (Hf & Hl16 & Heq & Hd & Hs & Hl & He).
    cbn [map concat u_file u_emb utterance_of].
    split; [now rewrite Hf|].
    split; [constructor; [eauto | exact Hl16]|].
    split.
    { constructor; [|exact Heq]. unfold utterance_of. cbn [u_S u_f0_rapt].
      exact Hlen. }
    split; [exact Hd|].
    split; [rewrite Hs, <- app_assoc; reflexivity|].
    split; [rewrite Hl, <- app_assoc; reflexivity|].
    rewrite He, <- app_assoc. reflexivity.
Qed.

(** X7.  A speaker whose body of the outer loop ends normally has gender
    ["M"] or ["F"], which fixes the pitch bounds, and a name whose tail
    [int] reads as a seed of 32 bits.  Its three output directories are in
    place.  Exactly the files of its directory whose names end in [.wav]
    were read, in sorted order, each at 16 kHz.  For each of them the
    spectrogram, the normalized pitch contour and the embedding were saved,
    computed from the waveform cleaned with the random numbers that follow
    those of the files before it; the spectrogram has as many frames as the
    pitch contour.  One last artifact
    follows under the name of the speaker with [_avg] appended: the mean of
    exactly these embeddings, in this order, or the zero-dimensional [nan]
    when there was no such file. *)
Theorem process_speaker_saves_three_per_wav_and_mean
    (genv : gmap string string) (ex : extern) (c : corpus) (subdir : string)
    (fs0 fs1 : fsys) :
process_speaker genv ex c subdir fs0 = (fs1, inr tt) ->
exists dn t t0 te subdirs fileList g lo hi seed,
  genv !! "dirName" = Some dn /\
  genv !! "targetDir" = Some t /\
  genv !! "targetDir_f0" = Some t0 /\
  genv !! "targetDir_emb" = Some te /\
  walk c (path_join dn subdir) = Some (subdirs, fileList) /\
  spk2gen c !! subdir = Some g /\
  (g = "M" /\ lo = 50%Z /\ hi = 250%Z \/ g = "F" /\ lo = 100%Z /\ hi = 600%Z) /\
  py_int ex (str_from 1 subdir) = inr seed /\
  (0 <= seed < 2 ^ 32)%Z /\
  let us := utterances ex c dn subdir lo hi seed 0 (wav_files fileList) in
  map u_file us = wav_files fileList /\
  List.Forall (fun f => exists x, load c (wav_path dn subdir f) = inr (x, 16000%Z))
    (wav_files fileList) /\
  List.Forall (fun u => length (u_S u) = length (u_f0_rapt u)) us /\
  dirs fs1 =
    {[ path_join te subdir ]} ∪ ({[ path_join t0 subdir ]} ∪
      ({[ path_join t subdir ]} ∪ dirs fs0)) /\
  loaded fs1 = loaded fs0 ++ map (wav_path dn subdir) (wav_files fileList) /\
  saved fs1 =
    saved fs0 ++ concat (map (utterance_artifacts t t0 te subdir) us) ++
    [(path_join (path_join te subdir) (subdir ++ "_avg"), spkr_emb (map u_emb us))].
Proof.
intros H. unfold process_speaker in H.
apply bind_inr in H as (fsa & [] & He1 & H).
apply ensure_dir_inr in He1 as (t & Ht & ->).
apply bind_inr in H as (fsb & [] & He2 & H).
apply ensure_dir_inr in He2 as (t0 & Ht0 & ->).
apply bind_inr in H as (fsc & [] & He3 & H).
apply ensure_dir_inr in He3 as (te & Hte & ->).
cbn [dirs saved loaded] in H.
apply bind_inr in H as (fsd & dn & Hdn & H).
apply name_lookup_inr in Hdn as [Hdn ->].
apply bind_inr in H as (fse & [subdirs fileList] & Hw & H).
unfold next_walk in Hw.
destruct (walk c (path_join dn subdir)) as [w|] eqn:Ew; [|discriminate].
unfold ret in Hw. inversion Hw as [[Hfse Hw']]. clear Hw. subst w.
apply bind_inr in H as (fsf & lohi & Hb & H).
assert (Hg : exists g, spk2gen c !! subdir = Some g /\
  (g = "M" /\ lohi = (50, 250)%Z \/ g = "F" /\ lohi = (100, 600)%Z) /\ fsf = fse).
{ unfold select_bounds, bind, spk2gen_get in Hb.
  destruct (spk2gen c !! subdir) as [g|]; [|discriminate]. unfold ret in Hb.
  exists g. destruct (String.eqb g "M") eqn:EM.
  - apply String.eqb_eq in EM. inversion Hb; auto.
  - destruct (String.eqb g "F") eqn:EF; [|discriminate].
    apply String.eqb_eq in EF. inversion Hb; auto. }
destruct Hg as (g & Hg & HMF & ->).
apply bind_inr in H as (fsg & n & Hn & H).
unfold lift in Hn. inversion Hn as [[Hfsg Hint]]. subst fsg. clear Hn.
apply bind_inr in H as (fsh & seed & Hseed & H).
assert (Hrange : fsh = fse /\ seed = n /\ (0 <= n < 2 ^ 32)%Z).
{ unfold RandomState in Hseed.
  destruct ((0 <=? n)%Z && (n <? 2 ^ 32)%Z) eqn:Er; unfold ret, raise in Hseed;
    inversion Hseed; subst.
  apply andb_true_iff in Er as [E1 E2].
  apply Z.leb_le in E1. apply Z.ltb_lt in E2. auto. }
destruct Hrange as (-> & -> & Hrange).
apply bind_inr in H as (fsi & st & Hloop & H).
apply bind_inr in H as (fsj & te' & Hte' & H).
apply name_lookup_inr in Hte' as [Hte' ->].
assert (te' = te) by congruence. subst te'.
unfold np_save in H. inversion H; subst fs1. clear H.
destruct (for_fold_inr _ _ _ _ _ _ _ _ _ _ _ _ _ _ _ _ Hdn Ht Ht0 Hte Hloop)
  as (Hf & Hl16 & Heq & Hd & Hs & Hl & Hemb).
cbn [fst snd app] in Hf, Hl16, Heq, Hd, Hs, Hl, Hemb.
subst fse. cbn [dirs saved loaded] in Hd, Hs, Hl.
exists dn, t, t0, te, subdirs, fileList, g, (fst lohi), (snd lohi), n.
repeat (split; [assumption|]).
split.
{ destruct HMF as [[-> ->] | [-> ->]]; [left | right]; auto. }
split; [exact Hint|]. split; [exact Hrange|].
cbn [dirs saved loaded]. unfold wav_files.
split; [exact Hf|]. split; [exact Hl16|]. split; [exact Heq|].
split; [exact Hd|]. split; [exact Hl|].
rewrite Hs, Hemb, <- app_assoc. reflexivity.
Qed.

Lemma process_speaker_p225_four_saves :
exists fs1,
  process_speaker Samples.repaired_globals Samples.ex_aligned Samples.two_speakers
    "p225" Samples.empty_fs = (fs1, inr tt) /\
  length (saved fs1) = 4 /\
  loaded fs1 = ["assets/vctk_full/p225/p225_001.wav"].
Proof.
assert (Hrun : exists fs1,
  process_speaker Samples.repaired_globals Samples.ex_aligned Samples.two_speakers
    "p225" Samples.empty_fs = (fs1, inr tt)).
{ unfold process_speaker.
  erewrite bind_value by (apply ensure_dir_bound; reflexivity).
  erewrite bind_value by (apply ensure_dir_bound; reflexivity).
  erewrite bind_value by (apply ensure_dir_bound; reflexivity).
  erewrite bind_value by (apply name_lookup_bound; reflexivity).
  erewrite bind_value by reflexivity.
  erewrite bind_value by (apply select_bounds_F; reflexivity).
  erewrite bind_value by reflexivity.
  erewrite bind_value by reflexivity.
  erewrite bind_value.
  2:{ cbn [snd sorted fold_right insert_sorted for_fold].
      erewrite bind_value by (apply process_file_value; reflexivity).
      reflexivity. }
  erewrite bind_value by (apply name_lookup_bound; reflexivity).
  eexists. reflexivity. }
destruct Hrun as [fs1 Hrun].
destruct (process_speaker_saves_three_per_wav_and_mean _ _ _ _ _ _ Hrun)
  as (dn & t & t0 & te & subdirs & fileList & g & lo & hi & seed
      & Hdn & _ & _ & _ & Hw & _ & _ & _ & _ & _ & _ & _ & _ & Hl & Hs).
assert (dn = "assets/vctk_full") by (inversion Hdn; reflexivity). subst dn.
assert (fileList = ["p225_001.wav"]) by (inversion Hw; reflexivity). subst fileList.
exists fs1. split; [exact Hrun|]. split.
- rewrite Hs, !length_app. reflexivity.
- rewrite Hl. reflexivity.
Defined.

End SpeakerLoop.

(** * Further properties of [iemocap_loader_ft.py] *)

Section LabelEncoding.
Import Py Iemocap.

Lemma emo2idx_from_notin sel : forall i m e,
~ In e sel -> emo2idx_from i sel m !! e = m !! e.
Proof.
induction sel as [|a sel IH]; intros i m e Hn; simpl; [reflexivity|].
rewrite IH by (intros H; apply Hn; now right).
apply lookup_insert_ne. intros ->. apply Hn. now left.
Qed.

(** A listed label is sent to its last position in the list. *)
Lemma emo2idx_from_in sel : forall i m e,
In e sel ->
exists j, nth_error sel j = Some e /\
          emo2idx_from i sel m !! e = Some (i + j) /\
          forall j', j < j' -> nth_error sel j' <> Some e.
Proof.
induction sel as [|a sel IH]; intros i m e Hin; [contradiction|].
destruct (in_dec string_dec e sel) as [Hrest|Hrest].
- destruct (IH (S i) (<[a := i]> m) e Hrest) as (j & Hj & Hl & Hlast).
  exists (S j). split; [exact Hj|]. split.
  + simpl. rewrite Hl. f_equal. lia.
  + intros [|j'] Hlt; [lia|]. simpl. apply Hlast. lia.
- destruct Hin as [->|Hin]; [|contradiction].
  exists 0. split; [reflexivity|]. split.
  + simpl. rewrite emo2idx_from_notin by exact Hrest.
    rewrite lookup_insert_eq. f_equal. lia.
  + intros [|j'] Hlt; [lia|]. simpl. intros Hj. apply Hrest.
    eapply nth_error_In. exact Hj.
Qed.

Lemma idx2emo_from_lookup sel : forall i m k,
idx2emo_from i sel m !! k =
  if decide (i <= k < i + length sel) then nth_error sel (k - i) else m !! k.
Proof.
induction sel as [|a sel IH]; intros i m k; simpl.
- destruct (decide (i <= k < i + 0)); [lia | reflexivity].
- rewrite IH.
  destruct (decide (S i <= k < S i + length sel)) as [H1|H1];
    destruct (decide (i <= k < i + S (length sel))) as [H2|H2]; try lia.
  + replace (k - i) with (S (k - S i)) by lia. reflexivity.
  + assert (k = i) by lia. subst k. rewrite lookup_insert_eq.
    now rewrite Nat.sub_diag.
  + apply lookup_insert_ne. lia.
Qed.

Lemma emo2idx_lookup sel e k :
emo2idx sel !! e = Some k ->
nth_error sel k = Some e /\ forall k', k < k' -> nth_error sel k' <> Some e.
Proof.
unfold emo2idx. intros H.
destruct (in_dec string_dec e sel) as [Hin|Hn].
- destruct (emo2idx_from_in sel 0 ∅ e Hin) as (j & Hj & Hl & Hlast).
  rewrite H in Hl. inversion Hl; subst. simpl. auto.
- rewrite (emo2idx_from_notin sel 0 ∅ e Hn) in H. discriminate.
Qed.

Lemma idx2emo_nth_error sel k : idx2emo sel !! k = nth_error sel k.
Proof.
unfold idx2emo. rewrite idx2emo_from_lookup, Nat.sub_0_r.
destruct (decide (0 <= k < 0 + length sel)) as [H|H]; [reflexivity|].
symmetry. rewrite lookup_empty. apply nth_error_None. lia.
Qed.

(** X8.  [idx2emo] is the list of selected labels read by position;
    [emo2idx] is defined exactly on the listed labels and sends a label to a
    position where the list holds it, the last one when the label is
    listed twice; so decoding an encoded label gives the label back, and,
    when no label is listed twice, encoding a decoded position gives the
    position back. *)
Theorem emo2idx_idx2emo_round_trip (selected_emos : list string) :
(forall k, idx2emo selected_emos !! k = nth_error selected_emos k) /\
(forall e, In e selected_emos <-> is_Some (emo2idx selected_emos !! e)) /\
(forall e k, emo2idx selected_emos !! e = Some k ->
   k < length selected_emos /\
   idx2emo selected_emos !! k = Some e /\
   forall k', k < k' -> idx2emo selected_emos !! k' <> Some e) /\
(List.NoDup selected_emos ->
 forall k e, idx2emo selected_emos !! k = Some e ->
             emo2idx selected_emos !! e = Some k).
Proof.
assert (Hidx : forall k, idx2emo selected_emos !! k = nth_error selected_emos k)
  by (intros k; apply idx2emo_nth_error).
split; [exact Hidx|]. split; [|split].
- intros e. split.
  + intros Hin. destruct (emo2idx_from_in selected_emos 0 ∅ e Hin) as (j & _ & Hl & _).
    unfold emo2idx. rewrite Hl. eauto.
  + intros [k Hk]. apply emo2idx_lookup in Hk as [Hk _].
    eapply nth_error_In. exact Hk.
- intros e k Hk. apply emo2idx_lookup in Hk as [Hk Hlast].
  split; [apply nth_error_Some; congruence|].
  split; [now rewrite Hidx|]. intros k' Hlt. rewrite Hidx. now apply Hlast.
- intros Hnd k e Hk. rewrite Hidx in Hk.
  assert (Hin : In e selected_emos) by (eapply nth_error_In; exact Hk).
  destruct (emo2idx_from_in selected_emos 0 ∅ e Hin) as (j & Hj & Hl & _).
  unfold emo2idx. rewrite Hl. simpl. f_equal.
  rewrite List.NoDup_nth_error in Hnd. apply Hnd.
  + apply nth_error_Some. congruence.
  + congruence.
Qed.

(** Instances: a label listed twice is encoded by its last position. *)
Lemma emo2idx_twice_listed :
emo2idx ["ang"; "neu"; "ang"] !! "ang" = Some 2 /\
idx2emo ["ang"; "neu"; "ang"] !! 0 = Some "ang" /\
emo2idx ["ang"; "neu"; "hap"; "sad"] !! "neu" = Some 1.
Proof.
destruct (emo2idx_idx2emo_round_trip ["ang"; "neu"; "hap"; "sad"])
  as (_ & _ & _ & Hnd).
split; [reflexivity|]. split; [reflexivity|].
apply Hnd; [|reflexivity].
repeat constructor; simpl; intuition discriminate.
Defined.

(** The rows after lines 46-50 are the selected rows of the manifest with
    the label replaced by its code and the session filled in. *)
Lemma preprocess_meta_row selected_emos meta0 r :
In r (meta (preprocess selected_emos meta0)) ->
exists r0 e k,
  In r0 meta0 /\ emotion r0 = Str e /\ In e selected_emos /\
  emo2idx selected_emos !! e = Some k /\
  r = mkRow (index r0) (wav_file r0) (Int k) (path_spmel r0) (path_raptf0 r0)
        (path_emb r0) (str_slice 3 5 (wav_file r0)).
Proof.
unfold preprocess. cbn [meta]. intros Hin.
apply in_map_iff in Hin as (r1 & <- & Hin).
apply in_map_iff in Hin as (r0 & <- & Hin).
apply filter_In in Hin as [Hin Hsel].
destruct (emotion r0) as [e|n] eqn:Ee; simpl in Hsel; [|discriminate].
apply bool_decide_eq_true in Hsel. apply list_elem_of_In in Hsel.
destruct (emo2idx_from_in selected_emos 0 ∅ e Hsel) as (k & _ & Hk & _).
exists r0, e, k. repeat split; auto.
unfold add_session, encode, set_session, set_emotion. cbn.
rewrite Ee. cbn. unfold emo2idx. now rewrite Hk.
Qed.

(** X9.  Every row of the preprocessed frame, hence of each partition,
    comes from a manifest row with a selected label: its label is replaced
    by an integer code below the number of selected labels that decodes to
    the original label, its session is characters 3-5 of the wav
    identifier, and its index, wav identifier and three paths are
    unchanged.  No partition keeps a label that is not an integer. *)
Theorem preprocess_encodes_labels (selected_emos : list string) (meta0 : list row) :
let d := preprocess selected_emos meta0 in
(forall r, In r (meta d) ->
   exists r0 e k,
     In r0 meta0 /\ emotion r0 = Str e /\ In e selected_emos /\
     emotion r = Int k /\ k < length selected_emos /\
     idx2emo selected_emos !! k = Some e /\
     index r = index r0 /\ wav_file r = wav_file r0 /\
     path_spmel r = path_spmel r0 /\ path_raptf0 r = path_raptf0 r0 /\
     path_emb r = path_emb r0 /\
     session r = str_slice 3 5 (wav_file r0)) /\
length (codes (meta_train d)) = length (meta_train d) /\
length (codes (meta_val d)) = length (meta_val d) /\
length (codes (meta_test d)) = length (meta_test d).
Proof.
intros d.
assert (Hrow : forall r, In r (meta d) -> exists k, emotion r = Int k).
{ intros r Hr. destruct (preprocess_meta_row _ _ _ Hr) as (r0 & e & k & _ & _ & _ & _ & ->).
  eauto. }
assert (Hcodes : forall p : row -> bool,
          length (codes (List.filter p (meta d))) = length (List.filter p (meta d))).
{ intros p. unfold codes.
  assert (Hsub : forall r, In r (List.filter p (meta d)) -> exists k, emotion r = Int k).
  { intros r Hr. apply filter_In in Hr as [Hr _]. now apply Hrow. }
  induction (List.filter p (meta d)) as [|r l IH]; [reflexivity|].
  destruct (Hsub r (or_introl eq_refl)) as [k Hk]. simpl. rewrite Hk. simpl.
  f_equal. apply IH. intros r' Hr'. apply Hsub. now right. }
split; [|split; [|split]]; try apply Hcodes.
intros r Hr. destruct (preprocess_meta_row _ _ _ Hr) as (r0 & e & k & H0 & He & Hin & Hk & ->).
destruct (emo2idx_lookup _ _ _ Hk) as [Hnth _].
exists r0, e, k. cbn. repeat split; auto.
- apply nth_error_Some. congruence.
- now rewrite idx2emo_nth_error.
Qed.

End LabelEncoding.

Section DatasetAccess.
Import Py Iemocap.

(** X10.  For the modes ["train"], ["val"] and ["test"], [__len__] is the
    size of the partition [__getitem__] reads.  For any other mode
    [__len__] counts the validation partition while [__getitem__] reads the
    test partition. *)
Theorem len_getitem_mode_dispatch (d : dataset) (mode : string) :
(mode = "train" \/ mode = "val" \/ mode = "test" ->
 len d mode = length (getitem_meta d mode)) /\
(mode <> "train" -> mode <> "val" -> mode <> "test" ->
 len d mode = length (meta_val d) /\ getitem_meta d mode = meta_test d).
Proof.
unfold len, getitem_meta. split.
- intros [-> | [-> | ->]]; reflexivity.
- intros Ht Hv Hs. apply String.eqb_neq in Ht, Hv, Hs.
  rewrite Ht, Hv, Hs. split; reflexivity.
Qed.

(** An instance: in mode ["dev"] the sample manifest has length 0 although
    item 0 can be read. *)
Lemma len_getitem_mode_dev :
len (preprocess ["ang"; "neu"; "hap"; "sad"] Samples.manifest) "dev" = 0 /\
length (getitem_meta (preprocess ["ang"; "neu"; "hap"; "sad"] Samples.manifest) "dev") = 1.
Proof.
destruct (len_getitem_mode_dispatch
            (preprocess ["ang"; "neu"; "hap"; "sad"] Samples.manifest) "dev")
  as [_ H].
destruct H as [Hl Hg]; try discriminate.
rewrite Hl, Hg. split; reflexivity.
Defined.

Lemma np_load_inr files path a :
np_load files path = inr a <-> files !! (path ++ ".npy")%string = Some a.
Proof.
unfold np_load. destruct (files !! _); split; intros H; inversion H; reflexivity.
Qed.

(** X11.  [__getitem__] returns exactly when the index is below the size of
    the partition of its mode and the three files named by that row, with
    [.npy] appended, exist; it then returns their contents and the row's
    label.  An index at or beyond the size raises the key error before any
    file is opened.  On the frame built by [preprocess] the returned label
    is an integer code below the number of selected labels. *)
Theorem getitem_returns_row_arrays
    (selected_emos : list string) (meta0 : list row) (mode : string)
    (files : gmap string ndarray) (i : nat) :
let d := preprocess selected_emos meta0 in
(forall m e f l,
   getitem d mode files i = inr (m, e, f, l) <->
   exists r,
     nth_error (getitem_meta d mode) i = Some r /\
     files !! (path_spmel r ++ ".npy")%string = Some m /\
     files !! (path_raptf0 r ++ ".npy")%string = Some f /\
     files !! (path_emb r ++ ".npy")%string = Some e /\
     l = emotion r) /\
(length (getitem_meta d mode) <= i ->
 getitem d mode files i = inl (IndexKeyError i)) /\
(forall m e f l,
   getitem d mode files i = inr (m, e, f, l) ->
   exists k, l = Int k /\ k < length selected_emos).
Proof.
intros d.
assert (Hiff : forall m e f l,
   getitem d mode files i = inr (m, e, f, l) <->
   exists r,
     nth_error (getitem_meta d mode) i = Some r /\
     files !! (path_spmel r ++ ".npy")%string = Some m /\
     files !! (path_raptf0 r ++ ".npy")%string = Some f /\
     files !! (path_emb r ++ ".npy")%string = Some e /\
     l = emotion r).
{ intros m e f l. unfold getitem. split.
  - destruct (nth_error (getitem_meta d mode) i) as [r|]; [|discriminate].
    destruct (np_load files (path_spmel r)) as [?|m'] eqn:Em; [discriminate|].
    destruct (np_load files (path_raptf0 r)) as [?|f'] eqn:Ef; [discriminate|].
    destruct (np_load files (path_emb r)) as [?|e'] eqn:Ee; [discriminate|].
    intros H. inversion H; subst. exists r.
    apply np_load_inr in Em, Ef, Ee. auto.
  - intros (r & -> & Hm & Hf & He & ->).
    apply np_load_inr in Hm, Hf, He. now rewrite Hm, Hf, He. }
split; [exact Hiff|]. split.
- intros Hle. unfold getitem.
  apply nth_error_None in Hle. now rewrite Hle.
- intros m e f l H. apply Hiff in H as (r & Hr & _ & _ & _ & ->).
  apply nth_error_In in Hr.
  assert (Hmeta : In r (meta d)).
  { unfold getitem_meta in Hr.
    destruct (String.eqb mode "train"); [|destruct (String.eqb mode "val")];
      unfold d, preprocess in Hr; cbn [meta_train meta_val meta_test] in Hr;
      apply filter_In in Hr as [Hr _]; exact Hr. }
  destruct (preprocess_meta_row _ _ _ Hmeta) as (r0 & e0 & k & _ & _ & _ & Hk & ->).
  exists k. split; [reflexivity|].
  apply emo2idx_lookup in Hk as [Hk _]. apply nth_error_Some. congruence.
Qed.

End DatasetAccess.

Section ClassWeights.
Import Py Iemocap.

Lemma insert_unique_sorted x l :
StronglySorted lt l -> StronglySorted lt (insert_unique x l).
Proof.
induction l as [|z l IH]; intros Hs; simpl.
- repeat constructor.
- inversion Hs as [|? ? Hl Hz]; subst.
  destruct (x <? z) eqn:Hlt.
  + apply Nat.ltb_lt in Hlt. constructor; [exact Hs|].
    constructor; [exact Hlt|].
    apply List.Forall_forall. intros a Ha.
    rewrite List.Forall_forall in Hz. specialize (Hz a Ha). lia.
  + destruct (x =? z) eqn:Heq; [exact Hs|].
    apply Nat.ltb_ge in Hlt. apply Nat.eqb_neq in Heq.
    constructor; [now apply IH|].
    apply List.Forall_forall. intros a Ha. apply insert_unique_In in Ha as [->|Ha].
    * lia.
    * rewrite List.Forall_forall in Hz. now apply Hz.
Qed.

Lemma np_unique_sorted l : StronglySorted lt (np_unique l).
Proof.
unfold np_unique. induction l as [|a l IH]; simpl; [constructor|].
now apply insert_unique_sorted.
Qed.

Lemma sorted_lt_NoDup l : StronglySorted lt l -> List.NoDup l.
Proof.
induction 1 as [|a l Hs IH Ha]; constructor; [|exact IH].
intros Hin. rewrite List.Forall_forall in Ha. specialize (Ha a Hin). lia.
Qed.

(** A list of distinct numbers below [n] has at most [n] entries, and fewer
    when some number below [n] is missing. *)
Lemma NoDup_below_length (l : list nat) n :
List.NoDup l -> (forall x, In x l -> x < n) -> length l <= n.
Proof.
intros Hnd Hlt.
apply Nat.le_trans with (length (seq 0 n)); [|rewrite length_seq; lia].
apply List.NoDup_incl_length; [exact Hnd|].
intros x Hx. apply in_seq. specialize (Hlt x Hx). lia.
Qed.

Lemma NoDup_below_missing (l : list nat) n k :
List.NoDup l -> (forall x, In x l -> x < n) -> k < n -> ~ In k l -> length l < n.
Proof.
intros Hnd Hlt Hk Hnk.
assert (Hle : length (k :: l) <= n).
{ apply NoDup_below_length; [now constructor|].
  intros x [<-|Hx]; [exact Hk | now apply Hlt]. }
simpl in Hle. lia.
Qed.

Lemma codes_In rs k :
In k (codes rs) -> exists r, In r rs /\ emotion r = Int k.
Proof.
unfold codes. induction rs as [|r rs IH]; simpl; [contradiction|].
destruct (emotion r) as [e|n] eqn:E; simpl.
- intros H. destruct (IH H) as (r' & Hr' & Hk). eauto.
- intros [<-|H]; [eauto|]. destruct (IH H) as (r' & Hr' & Hk). eauto.
Qed.

(** X12.  [class_weight] has one entry per distinct label of the train
    partition, in increasing order of the label code, and none for a label
    without a train row: it has at most as many entries as there are
    selected labels, and strictly fewer as soon as the code of some selected
    label does not occur in the train partition. *)
Theorem class_weight_one_entry_per_train_label
    (selected_emos : list string) (meta0 : list row) :
let d := preprocess selected_emos meta0 in
let y := codes (meta_train d) in
StronglySorted lt (np_unique y) /\
(forall c, In c (np_unique y) <-> In c y) /\
length (class_weight d) = length (np_unique y) /\
length (class_weight d) <= length selected_emos /\
(forall e k, emo2idx selected_emos !! e = Some k -> ~ In k y ->
   length (class_weight d) < length selected_emos).
Proof.
intros d y.
assert (Hlen : length (class_weight d) = length (np_unique y)).
{ unfold d, preprocess. cbn [class_weight]. unfold compute_class_weight.
  apply length_map. }
assert (Hbelow : forall x, In x (np_unique y) -> x < length selected_emos).
{ intros x Hx. apply (proj1 (np_unique_In _ _)) in Hx.
  apply codes_In in Hx as (r & Hr & Hk).
  assert (Hmeta : In r (meta d)).
  { unfold d, preprocess in Hr. cbn [meta_train] in Hr.
    apply filter_In in Hr as [Hr _]. exact Hr. }
  destruct (preprocess_meta_row _ _ _ Hmeta) as (r0 & e0 & k & _ & _ & _ & Hk0 & ->).
  cbn in Hk. inversion Hk; subst.
  apply emo2idx_lookup in Hk0 as [Hk0 _]. apply nth_error_Some. congruence. }
split; [apply np_unique_sorted|]. split; [intros c; apply np_unique_In|].
split; [exact Hlen|]. split.
- rewrite Hlen. apply NoDup_below_length; [|exact Hbelow].
  apply sorted_lt_NoDup, np_unique_sorted.
- intros e k Hk Hnk. rewrite Hlen.
  apply (NoDup_below_missing _ _ k); [| exact Hbelow | |].
  + apply sorted_lt_NoDup, np_unique_sorted.
  + apply emo2idx_lookup in Hk as [Hk _]. apply nth_error_Some. congruence.
  + intros Hin. apply Hnk. now apply np_unique_In.
Qed.

(** An instance: four selected labels, two of them in the train partition. *)
Lemma class_weight_two_of_four :
length (class_weight (preprocess ["ang"; "neu"; "hap"; "sad"] Samples.manifest)) < 4.
Proof.
destruct (class_weight_one_entry_per_train_label
            ["ang"; "neu"; "hap"; "sad"] Samples.manifest)
  as (_ & _ & _ & _ & Hmiss).
apply (Hmiss "hap" 2); [reflexivity|].
vm_compute. intuition discriminate.
Defined.

Lemma inject_nat_pos m : 0 < m -> (0 < inject_Z (Z.of_nat m))%Q.
Proof. intros Hm. unfold Qlt. simpl. lia. Qed.

Lemma inject_nat_nonzero m : 0 < m -> ~ (inject_Z (Z.of_nat m) == 0)%Q.
Proof.
intros Hm H. pose proof (inject_nat_pos m Hm) as Hp. rewrite H in Hp.
now apply Qlt_irrefl in Hp.
Qed.

Lemma Qsum_constant {A} (g : A -> Q) (a : Q) (l : list A) :
(forall c, In c l -> (g c == a)%Q) ->
(fold_right Qplus 0%Q (map g l) == inject_Z (Z.of_nat (length l)) * a)%Q.
Proof.
induction l as [|c l IH]; intros H.
- simpl. ring.
- cbn [map fold_right length]. rewrite IH by (intros c' Hc'; apply H; now right).
  rewrite (H c) by now left.
  rewrite Nat2Z.inj_succ. unfold Z.succ. rewrite inject_Z_plus. ring.
Qed.

Lemma Qmult_div_cancel (a b : Q) : ~ (b == 0)%Q -> (b * (a / b) == a)%Q.
Proof. intros Hb. field. exact Hb. Qed.

Lemma Qdiv_mult_count (a b c : Q) :
~ (b == 0)%Q -> ~ (c == 0)%Q -> (a / (b * c) * c == a / b)%Q.
Proof. intros Hb Hc. field. split; assumption. Qed.

(** X13.  The balanced weights are positive, and each weight times the
    number of train utterances of its label, summed over the labels of the
    train partition, gives the number of train utterances. *)
Theorem class_weight_weighted_count
    (selected_emos : list string) (meta0 : list row) :
let d := preprocess selected_emos meta0 in
let y := codes (meta_train d) in
(fold_right Qplus 0%Q
   (map (fun p => (fst p * inject_Z (Z.of_nat (bincount y (snd p))))%Q)
        (combine (class_weight d) (np_unique y)))
 == inject_Z (Z.of_nat (length y)))%Q /\
(forall w, In w (class_weight d) -> (0 < w)%Q).
Proof.
intros d y.
assert (Hcw : class_weight d = compute_class_weight (np_unique y) y) by reflexivity.
rewrite Hcw. unfold compute_class_weight.
set (n := inject_Z (Z.of_nat (length y))).
set (k := inject_Z (Z.of_nat (length (np_unique y)))).
set (f := fun c => (n / (k * inject_Z (Z.of_nat (bincount y c))))%Q).
assert (Hcnt : forall c, In c (np_unique y) -> 0 < bincount y c).
{ intros c Hc. apply bincount_pos. now apply (proj1 (np_unique_In _ _)). }
destruct (Nat.eq_dec (length (np_unique y)) 0) as [Hz|Hz].
- assert (Hy : y = []).
  { destruct y as [|a y']; [reflexivity|]. exfalso.
    assert (Hin : In a (np_unique (a :: y'))) by (apply np_unique_In; now left).
    apply length_zero_iff_nil in Hz. rewrite Hz in Hin. contradiction. }
  apply length_zero_iff_nil in Hz.
  subst f k n. rewrite Hz, Hy. simpl. split; [reflexivity | contradiction].
- assert (Hk : 0 < length (np_unique y)) by lia.
  assert (Hn : 0 < length y).
  { destruct y; [simpl in Hk; lia | simpl; lia]. }
  split.
  + assert (Hcomb : forall l : list nat,
              combine (map f l) l = map (fun c => (f c, c)) l).
    { induction l as [|a l IH]; simpl; [reflexivity | now rewrite IH]. }
    rewrite Hcomb, map_map. cbn [fst snd].
    rewrite (Qsum_constant _ (n / k)%Q).
    * apply Qmult_div_cancel. now apply inject_nat_nonzero.
    * intros c Hc. unfold f. apply Qdiv_mult_count.
      -- now apply inject_nat_nonzero.
      -- apply inject_nat_nonzero. now apply Hcnt.
  + intros w Hw. apply in_map_iff in Hw as (c & <- & Hc).
    unfold Qdiv. apply Qmult_lt_0_compat; [now apply inject_nat_pos|].
    apply Qinv_lt_0_compat. apply Qmult_lt_0_compat; apply inject_nat_pos; auto.
Qed.

End ClassWeights.

Section CollatorEdgeCases.
Import Py Iemocap.

(** X14.  Clipping leaves a value unchanged exactly when it lies in
    [[0, 1]]; it is idempotent and monotone. *)
Theorem clip_fixes_unit_interval (x y : Q) :
((clip x == x)%Q <-> (0 <= x /\ x <= 1)%Q) /\
clip (clip x) = clip x /\
((x <= y)%Q -> (clip x <= clip y)%Q).
Proof.
assert (Hcase : forall z,
  (Qle_bool z 0 = true /\ (z <= 0)%Q /\ clip z = 0%Q) \/
  (Qle_bool z 0 = false /\ Qle_bool 1 z = true /\ (0 < z)%Q /\ (1 <= z)%Q /\ clip z = 1%Q) \/
  (Qle_bool z 0 = false /\ Qle_bool 1 z = false /\ (0 < z)%Q /\ (z < 1)%Q /\ clip z = z)).
{ intros z. unfold clip. destruct (Qle_bool z 0) eqn:E0.
  - left. apply Qle_bool_iff in E0. auto.
  - right. assert (H0 : (0 < z)%Q).
    { apply Qnot_le_lt. rewrite <- Qle_bool_iff. congruence. }
    destruct (Qle_bool 1 z) eqn:E1.
    + left. apply Qle_bool_iff in E1. auto.
    + right. assert (H1 : (z < 1)%Q).
      { apply Qnot_le_lt. rewrite <- Qle_bool_iff. congruence. }
      auto. }
split; [|split].
- destruct (Hcase x) as [(_ & Hx & ->) | [(_ & _ & H0 & H1 & ->) | (_ & _ & H0 & H1 & ->)]].
  + split.
    * intros H. rewrite <- H. split; [apply Qle_refl | discriminate].
    * intros [Hl _]. apply Qle_antisym; assumption.
  + split.
    * intros H. rewrite <- H. split; [discriminate | apply Qle_refl].
    * intros [_ Hu]. apply Qle_antisym; assumption.
  + split; [|reflexivity]. intros _. split; now apply Qlt_le_weak.
- destruct (Hcase x) as [(_ & _ & ->) | [(_ & _ & _ & _ & ->) | (E0 & E1 & _ & _ & Hc)]].
  + reflexivity.
  + reflexivity.
  + rewrite Hc. exact Hc.
- intros Hxy.
  destruct (Hcase x) as [(_ & Hx & ->) | [(_ & _ & Hx0 & Hx1 & ->) | (_ & _ & Hx0 & Hx1 & ->)]];
  destruct (Hcase y) as [(_ & Hy & ->) | [(_ & _ & Hy0 & Hy1 & ->) | (_ & _ & Hy0 & Hy1 & ->)]];
  try apply Qle_refl; try discriminate; try (now apply Qlt_le_weak); try assumption.
  + exfalso. apply (Qlt_irrefl 0). eapply Qlt_le_trans; [exact Hx0|].
    eapply Qle_trans; eassumption.
  + exfalso. apply (Qlt_irrefl y). eapply Qlt_le_trans; [exact Hy1|].
    eapply Qle_trans; eassumption.
  + exfalso. apply (Qlt_irrefl 0). eapply Qlt_le_trans; [exact Hx0|].
    eapply Qle_trans; eassumption.
Qed.

Lemma clip_three_halves_and_below :
clip (3 # 2) = 1%Q /\ (clip (1 # 3) <= clip (3 # 2))%Q.
Proof.
destruct (clip_fixes_unit_interval (1 # 3) (3 # 2)) as (_ & _ & Hmono).
split; [reflexivity|]. apply Hmono. discriminate.
Defined.

Lemma crop_rng hp g tok a c n g' :
crop hp g tok = inr (a, c, n, g') ->
draws g' = draws g /\
pos g' = pos g + (if is_long hp tok then 1 else 0).
Proof.
unfold crop, is_long.
destruct (max_len_seq hp <? length (rows (melsp tok))).
- unfold randint. destruct (0 <? _); [|discriminate]. cbn [fst snd].
  intros H. inversion H; subst. cbn. split; [reflexivity | lia].
- intros H. inversion H; subst. split; [reflexivity | lia].
Qed.

Lemma assemble_all_rng hp batch : forall g items g',
assemble_all hp g batch = inr (items, g') ->
draws g' = draws g /\
pos g' = pos g + length (List.filter (is_long hp) batch).
Proof.
induction batch as [|tok batch IH]; intros g items g' H; simpl in H.
- inversion H; subst. simpl. split; [reflexivity | lia].
- destruct (assemble hp g tok) as [e|[it g1]] eqn:E0; [discriminate|].
  cbn [fst snd] in H.
  destruct (assemble_all hp g1 batch) as [e|[its g2]] eqn:E1; [discriminate|].
  inversion H; subst. clear H.
  destruct (assemble_inr _ _ _ _ _ E0) as (a & c & Hc & _).
  destruct (crop_rng _ _ _ _ _ _ _ Hc) as [Hd Hp].
  destruct (IH _ _ _ E1) as [Hd' Hp'].
  split; [congruence|]. rewrite Hp', Hp. simpl.
  destruct (is_long hp tok); simpl; lia.
Qed.

Lemma assemble_short_any_rng hp g g2 tok it g' :
is_long hp tok = false ->
assemble hp g tok = inr (it, g') ->
g' = g /\ assemble hp g2 tok = inr (it, g2).
Proof.
intros Hs. unfold is_long in Hs. apply Nat.ltb_ge in Hs.
unfold assemble. rewrite (crop_short hp g tok Hs), (crop_short hp g2 tok Hs).
destruct (np_pad (rows (np_clip (melsp tok))) _ _) as [e|ar]; [discriminate|].
destruct (np_pad (map _ (f0_org tok)) _ _) as [e|cp]; [discriminate|].
intros H. inversion H; subst. split; reflexivity.
Qed.

Lemma assemble_all_short_any_rng hp g2 batch : forall g items g',
(forall tok, In tok batch -> is_long hp tok = false) ->
assemble_all hp g batch = inr (items, g') ->
g' = g /\ assemble_all hp g2 batch = inr (items, g2).
Proof.
induction batch as [|tok batch IH]; intros g items g' Hs H; simpl in H |- *.
- inversion H; subst. split; reflexivity.
- destruct (assemble hp g tok) as [e|[it g1]] eqn:E0; [discriminate|].
  cbn [fst snd] in H.
  destruct (assemble_all hp g1 batch) as [e|[its g3]] eqn:E1; [discriminate|].
  inversion H; subst. clear H.
  destruct (assemble_short_any_rng hp g g2 tok it g1 (Hs tok (or_introl eq_refl)) E0)
    as [-> E0'].
  destruct (IH g its g' (fun t Ht => Hs t (or_intror Ht)) E1) as [-> E1'].
  rewrite E0'. cbn [fst snd]. rewrite E1'. split; reflexivity.
Qed.

(** X15.  A call of the collator that returns draws exactly one random
    number for every utterance longer than [max_len_seq] and none for the
    others.  When no utterance of the batch is longer than [max_len_seq] the
    result does not depend on the generator, which is left as it was. *)
Theorem collate_draws_once_per_long_utterance
    (hp : hparams) (g g' : rng) (batch : list token) (out : batch_out) :
collate hp g batch = inr (out, g') ->
draws g' = draws g /\
pos g' = pos g + length (List.filter (is_long hp) batch) /\
((forall tok, In tok batch -> is_long hp tok = false) ->
 g' = g /\ forall g2, collate hp g2 batch = inr (out, g2)).
Proof.
intros H. destruct (collate_inr _ _ _ _ _ H) as (items & Hall & Hout).
destruct (assemble_all_rng _ _ _ _ _ Hall) as [Hd Hp].
split; [exact Hd|]. split; [exact Hp|].
intros Hs.
destruct (assemble_all_short_any_rng hp g batch g items g' Hs Hall) as [-> _].
split; [reflexivity|]. intros g2.
destruct (assemble_all_short_any_rng hp g2 batch g items g Hs Hall) as [_ Hall2].
unfold collate in H |- *. rewrite Hall in H. rewrite Hall2.
cbn [fst snd] in H |- *.
destruct items as [|it items]; [discriminate|].
destruct (np_stack ncols _) as [e|m]; [discriminate|].
destruct (np_stack (@length Q) _) as [e|sp]; [discriminate|].
destruct (np_stack (@length (list Q)) _) as [e|pt]; [discriminate|].
inversion H; subst. reflexivity.
Qed.

(** An instance: a batch of one short and one long utterance. *)
Lemma collate_short_and_long_draws_once :
exists out g',
  collate Samples.hp_2_3 Samples.ones [Samples.utterance 1 0; Samples.utterance 3 1] =
    inr (out, g') /\
  pos g' = 1.
Proof.
assert (Hrun : exists out g',
  collate Samples.hp_2_3 Samples.ones [Samples.utterance 1 0; Samples.utterance 3 1] =
    inr (out, g')) by (eexists; eexists; vm_compute; reflexivity).
destruct Hrun as (out & g' & Hrun).
destruct (collate_draws_once_per_long_utterance _ _ _ _ _ Hrun) as (_ & Hp & _).
exists out, g'. split; [exact Hrun|]. rewrite Hp. reflexivity.
Defined.

Lemma np_pad_inl {A} (l : list A) target fill e :
np_pad l target fill = inl e -> e = ValueError.
Proof.
unfold np_pad. destruct (length l <=? target); [discriminate|]. now inversion 1.
Qed.

Lemma crop_rows_length hp g tok a c n g' :
crop hp g tok = inr (a, c, n, g') ->
length (rows a) = n /\ n <= max_len_seq hp /\ n <= length (rows (melsp tok)) /\
length c <= Nat.max n (length (f0_org tok)) /\
(is_long hp tok = true -> length c <= n) /\
(is_long hp tok = false -> a = melsp tok /\ c = f0_org tok).
Proof.
unfold is_long.
destruct (max_len_seq hp <? length (rows (melsp tok))) eqn:E.
- apply Nat.ltb_lt in E.
  destruct (crop_long hp g tok E) as (left & g1 & Hin & Hc).
  rewrite Hc. intros H. inversion H; subst. cbn [rows].
  assert (Hcl : length (slice left (left + max_len_seq hp) (f0_org tok)) <= max_len_seq hp).
  { unfold slice. rewrite length_firstn. lia. }
  split; [apply slice_length; lia|]. split; [lia|]. split; [lia|].
  split; [lia|]. split; [auto | discriminate].
- apply Nat.ltb_ge in E. rewrite (crop_short hp g tok E).
  intros H. inversion H; subst.
  split; [reflexivity|]. split; [lia|]. split; [lia|]. split; [lia|].
  split; [discriminate | auto].
Qed.

Lemma assemble_inl hp g tok e : assemble hp g tok = inl e -> e = ValueError.
Proof.
unfold assemble. destruct (crop hp g tok) as [e0|[[[a c] n] g1]] eqn:Ec.
- unfold crop in Ec. destruct (max_len_seq hp <? _); [|discriminate].
  unfold randint in Ec. destruct (0 <? _); [discriminate|].
  inversion Ec; subst. now inversion 1.
- destruct (np_pad (rows (np_clip a)) _ _) as [e1|ar] eqn:Ea.
  + apply np_pad_inl in Ea. subst. now inversion 1.
  + destruct (np_pad (map _ c) _ _) as [e2|cp] eqn:Ecp; [|discriminate].
    apply np_pad_inl in Ecp. subst. now inversion 1.
Qed.

(** The loop body returns exactly for the utterances that fit. *)
Lemma assemble_returns_iff hp g tok :
(exists it g', assemble hp g tok = inr (it, g')) <-> fits hp tok = true.
Proof.
unfold fits. split.
- intros (it & g' & H). unfold assemble in H.
  destruct (crop hp g tok) as [e0|[[[a c] n] g1]] eqn:Ec; [discriminate|].
  destruct (np_pad (rows (np_clip a)) _ _) as [e1|ar] eqn:Ea; [discriminate|].
  destruct (np_pad (map _ c) _ _) as [e2|cp] eqn:Ecp; [discriminate|].
  apply np_pad_inr in Ea as (Ha & _). apply np_pad_inr in Ecp as (Hc & _).
  cbn in Ha. rewrite !length_map in Ha, Hc.
  destruct (crop_rows_length _ _ _ _ _ _ _ Ec) as (Hn & _ & _ & _ & Hl & Hs).
  destruct (is_long hp tok) eqn:El.
  + unfold is_long in El. apply Nat.ltb_lt in El.
    destruct (crop_long hp g tok El) as (left & g2 & _ & Hc2).
    rewrite Hc2 in Ec. inversion Ec; subst. apply Nat.leb_le. lia.
  + destruct (Hs eq_refl) as [-> ->].
    apply andb_true_iff. split; apply Nat.leb_le; assumption.
- intros Hf. destruct (is_long hp tok) eqn:El.
  + apply Nat.leb_le in Hf. unfold is_long in El. apply Nat.ltb_lt in El.
    destruct (crop_long hp g tok El) as (left & g1 & Hin & Hc).
    destruct (assemble_crop _ _ _ _ _ _ _ Hc) as (it & Hit & _); cbn [rows].
    * rewrite slice_length; lia.
    * unfold slice. rewrite length_firstn. lia.
    * eauto.
  + apply andb_true_iff in Hf as [Ha Hc]. apply Nat.leb_le in Ha, Hc.
    unfold is_long in El. apply Nat.ltb_ge in El.
    destruct (assemble_crop _ _ _ _ _ _ _ (crop_short hp g tok El)) as (it & Hit & _);
      eauto.
Qed.

Lemma assemble_shape hp g tok it g' :
assemble hp g tok = inr (it, g') ->
ncols (a_pad it) = ncols (melsp tok) /\ b_emb it = emb_org tok /\
length (c_pad it) = max_len_pad hp.
Proof.
intros H.
destruct (assemble_inr _ _ _ _ _ H) as (a & c & Hc & Hn & _ & _ & Hb & _ & _ & Hl).
destruct (crop_len_crop _ _ _ _ _ _ _ Hc) as [_ Hnc].
split; [congruence|]. split; assumption.
Qed.

(** The loop over the batch: it returns exactly when every utterance fits,
    and then the items correspond to the utterances, one to one. *)
Lemma assemble_all_returns hp batch : forall g,
(forall tok, In tok batch -> fits hp tok = true) ->
exists items g', assemble_all hp g batch = inr (items, g').
Proof.
induction batch as [|tok batch IH]; intros g Hf; simpl.
- eauto.
- destruct (proj2 (assemble_returns_iff hp g tok) (Hf tok (or_introl eq_refl)))
    as (it & g1 & ->).
  cbn [fst snd].
  destruct (IH g1 (fun t Ht => Hf t (or_intror Ht))) as (its & g2 & ->).
  eauto.
Qed.

Lemma assemble_all_shapes hp batch : forall g items g',
assemble_all hp g batch = inr (items, g') ->
Forall2 (fun tok it =>
           fits hp tok = true /\ ncols (a_pad it) = ncols (melsp tok) /\
           b_emb it = emb_org tok /\ length (c_pad it) = max_len_pad hp)
        batch items.
Proof.
induction batch as [|tok batch IH]; intros g items g' H; simpl in H.
- inversion H; subst. constructor.
- destruct (assemble hp g tok) as [e|[it g1]] eqn:E0; [discriminate|].
  cbn [fst snd] in H.
  destruct (assemble_all hp g1 batch) as [e|[its g2]] eqn:E1; [discriminate|].
  inversion H; subst. clear H. constructor; [|eapply IH; exact E1].
  split; [apply (assemble_returns_iff hp g tok); eauto|].
  eapply assemble_shape; exact E0.
Qed.

Lemma assemble_all_inl hp batch : forall g e,
assemble_all hp g batch = inl e -> e = ValueError.
Proof.
induction batch as [|tok batch IH]; intros g e H; simpl in H; [discriminate|].
destruct (assemble hp g tok) as [e0|[it g1]] eqn:E0.
- inversion H; subst. eapply assemble_inl; exact E0.
- cbn [fst snd] in H.
  destruct (assemble_all hp g1 batch) as [e1|[its g2]] eqn:E1; [|discriminate].
  inversion H; subst. eapply IH; exact E1.
Qed.

Lemma np_stack_returns {A} (shape : A -> nat) (l : list A) :
np_stack shape l = inr l <->
l <> [] /\ forall x y, In x l -> In y l -> shape x = shape y.
Proof.
unfold np_stack. destruct l as [|x l].
- split; [discriminate | intros [H _]; congruence].
- destruct (forallb (fun y => shape y =? shape x) l) eqn:E.
  + split; [|reflexivity]. intros _. split; [discriminate|].
    rewrite forallb_forall in E.
    assert (Hx : forall y, In y (x :: l) -> shape y = shape x).
    { intros y [<-|Hy]; [reflexivity|]. apply Nat.eqb_eq. now apply E. }
    intros a b Ha Hb. rewrite (Hx a Ha), (Hx b Hb). reflexivity.
  + split; [discriminate|]. intros [_ H]. exfalso.
    assert (Hall : forallb (fun y => shape y =? shape x) l = true).
    { apply forallb_forall. intros y Hy. apply Nat.eqb_eq.
      apply H; [now right | now left]. }
    congruence.
Qed.

Lemma np_stack_inl {A} (shape : A -> nat) (l : list A) e :
np_stack shape l = inl e -> e = ValueError.
Proof.
unfold np_stack. destruct l as [|x l]; [now inversion 1|].
destruct (forallb _ l); [discriminate | now inversion 1].
Qed.

Lemma Forall2_In_left {A B} (P : A -> B -> Prop) l k x :
Forall2 P l k -> In x l -> exists y, In y k /\ P x y.
Proof.
induction 1 as [|a b l k Hab _ IH]; intros Hin; [contradiction|].
destruct Hin as [<-|Hin].
- exists b. split; [now left | exact Hab].
- destruct (IH Hin) as (y & Hy & Hp). exists y. split; [now right | exact Hp].
Qed.

Lemma Forall2_In_right {A B} (P : A -> B -> Prop) l k y :
Forall2 P l k -> In y k -> exists x, In x l /\ P x y.
Proof.
induction 1 as [|a b l k Hab _ IH]; intros Hin; [contradiction|].
destruct Hin as [<-|Hin].
- exists a. split; [now left | exact Hab].
- destruct (IH Hin) as (x & Hx & Hp). exists x. split; [now right | exact Hp].
Qed.

(** X16.  The collator returns a batch exactly when the batch is not
    empty, every utterance fits the pad length (its cropped length, or else
    both its frame count and its pitch length, are at most [max_len_pad]),
    and all utterances have the same number of mel bins and the same
    embedding length.  Whenever it does not return, the exception is
    [ValueError]. *)
Theorem collate_returns_iff (hp : hparams) (g : rng) (batch : list token) :
((exists out g', collate hp g batch = inr (out, g')) <->
 batch <> [] /\
 (forall tok, In tok batch -> fits hp tok = true) /\
 (forall t1 t2, In t1 batch -> In t2 batch ->
    ncols (melsp t1) = ncols (melsp t2) /\
    length (emb_org t1) = length (emb_org t2))) /\
(forall e, collate hp g batch = inl e -> e = ValueError).
Proof.
split.
- split.
  + intros (out & g' & H). unfold collate in H.
    destruct (assemble_all hp g batch) as [e|[items g1]] eqn:Eall; [discriminate|].
    cbn [fst snd] in H.
    pose proof (assemble_all_shapes _ _ _ _ _ Eall) as Hsh.
    destruct items as [|it items]; [discriminate|].
    destruct (np_stack ncols _) as [e|m] eqn:Em; [discriminate|].
    destruct (np_stack (@length Q) _) as [e|sp] eqn:Es; [discriminate|].
    pose proof (np_stack_inr _ _ _ Em) as Hm. subst m.
    pose proof (np_stack_inr _ _ _ Es) as Hs. subst sp.
    apply np_stack_returns in Em as [_ Hnc].
    apply np_stack_returns in Es as [_ Hel].
    split; [intros ->; inversion Hsh|]. split.
    * intros tok Ht. destruct (Forall2_In_left _ _ _ _ Hsh Ht) as (i & _ & Hf & _).
      exact Hf.
    * intros t1 t2 H1 H2.
      destruct (Forall2_In_left _ _ _ _ Hsh H1) as (i1 & Hi1 & _ & Hn1 & Hb1 & _).
      destruct (Forall2_In_left _ _ _ _ Hsh H2) as (i2 & Hi2 & _ & Hn2 & Hb2 & _).
      split.
      -- rewrite <- Hn1, <- Hn2. apply Hnc; now apply in_map.
      -- rewrite <- Hb1, <- Hb2. apply Hel; now apply in_map.
  + intros (Hne & Hfit & Hshape).
    destruct (assemble_all_returns hp batch g Hfit) as (items & g' & Hall).
    pose proof (assemble_all_shapes _ _ _ _ _ Hall) as Hsh.
    unfold collate. rewrite Hall. cbn [fst snd].
    destruct items as [|it items].
    { inversion Hsh; subst. congruence. }
    assert (Hm : np_stack ncols (map a_pad (it :: items)) = inr (map a_pad (it :: items))).
    { apply np_stack_returns. split; [discriminate|].
      intros x y Hx Hy. apply in_map_iff in Hx as (i1 & <- & Hi1).
      apply in_map_iff in Hy as (i2 & <- & Hi2).
      destruct (Forall2_In_right _ _ _ _ Hsh Hi1) as (t1 & Ht1 & _ & Hn1 & _).
      destruct (Forall2_In_right _ _ _ _ Hsh Hi2) as (t2 & Ht2 & _ & Hn2 & _).
      rewrite Hn1, Hn2. now apply Hshape. }
    assert (Hs : np_stack (@length Q) (map b_emb (it :: items)) =
                 inr (map b_emb (it :: items))).
    { apply np_stack_returns. split; [discriminate|].
      intros x y Hx Hy. apply in_map_iff in Hx as (i1 & <- & Hi1).
      apply in_map_iff in Hy as (i2 & <- & Hi2).
      destruct (Forall2_In_right _ _ _ _ Hsh Hi1) as (t1 & Ht1 & _ & _ & Hb1 & _).
      destruct (Forall2_In_right _ _ _ _ Hsh Hi2) as (t2 & Ht2 & _ & _ & Hb2 & _).
      rewrite Hb1, Hb2. now apply Hshape. }
    assert (Hp : np_stack (@length (list Q)) (map c_pad (it :: items)) =
                 inr (map c_pad (it :: items))).
    { apply np_stack_returns. split; [discriminate|].
      intros x y Hx Hy. apply in_map_iff in Hx as (i1 & <- & Hi1).
      apply in_map_iff in Hy as (i2 & <- & Hi2).
      destruct (Forall2_In_right _ _ _ _ Hsh Hi1) as (t1 & _ & _ & _ & _ & Hl1).
      destruct (Forall2_In_right _ _ _ _ Hsh Hi2) as (t2 & _ & _ & _ & _ & Hl2).
      congruence. }
    rewrite Hm, Hs, Hp. eauto.
- intros e H. unfold collate in H.
  destruct (assemble_all hp g batch) as [e0|[items g1]] eqn:Eall.
  + inversion H; subst. eapply assemble_all_inl; exact Eall.
  + cbn [fst snd] in H. destruct items as [|it items]; [now inversion H|].
    destruct (np_stack ncols _) as [e1|m] eqn:Em.
    { apply np_stack_inl in Em. now inversion H; subst. }
    destruct (np_stack (@length Q) _) as [e2|sp] eqn:Es.
    { apply np_stack_inl in Es. now inversion H; subst. }
    destruct (np_stack (@length (list Q)) _) as [e3|pt] eqn:Ep; [|discriminate].
    apply np_stack_inl in Ep. now inversion H; subst.
Qed.

(** Instances: the empty batch, and an utterance of 25 frames that does
    not fit [max_len_pad = 20] when [max_len_seq = 30]. *)
Lemma collate_empty_and_oversized :
collate Samples.hp_2_3 Samples.ones [] = inl ValueError /\
collate (mkHparams 0 30 20) Samples.ones [Samples.utterance 25 0] = inl ValueError.
Proof.
split.
- destruct (collate_returns_iff Samples.hp_2_3 Samples.ones []) as [_ He].
  destruct (collate Samples.hp_2_3 Samples.ones []) as [e|r] eqn:E.
  + now rewrite (He e eq_refl).
  + discriminate.
- destruct (collate_returns_iff (mkHparams 0 30 20) Samples.ones
              [Samples.utterance 25 0]) as [_ He].
  destruct (collate (mkHparams 0 30 20) Samples.ones [Samples.utterance 25 0])
    as [e|r] eqn:E.
  + now rewrite (He e eq_refl).
  + vm_compute in E. discriminate.
Defined.

Lemma nth_error_app_repeat {A} (l : list A) (x : A) k j :
length l <= j -> j < length l + k -> nth_error (l ++ repeat x k) j = Some x.
Proof.
intros Hl Hj. rewrite nth_error_app2 by exact Hl.
apply nth_error_repeat. lia.
Qed.

(** X17.  In a returned batch every crop length is at most [max_len_seq],
    at most [max_len_pad] and at most the frame count of its utterance;
    the spectrogram at the same position has [max_len_pad] rows, and its
    rows from the crop length on are zero rows; the pitch at that position
    has [max_len_pad] entries, each a single value, and when the utterance's
    pitch contour is as long as its spectrogram the entries from the crop
    length on are [-1e10]. *)
Theorem collate_pads_from_crop_length
    (hp : hparams) (g g' : rng) (batch : list token)
    (m_out : list array2) (spk_emb : list (list Q))
    (pitch : list (list (list Q))) (len_org : list nat) :
collate hp g batch = inr ((m_out, spk_emb, pitch, len_org), g') ->
forall i tok, nth_error batch i = Some tok ->
exists a p n,
  nth_error m_out i = Some a /\ nth_error pitch i = Some p /\
  nth_error len_org i = Some n /\
  n <= max_len_seq hp /\ n <= max_len_pad hp /\
  n <= length (rows (melsp tok)) /\
  length (rows a) = max_len_pad hp /\
  (forall j, n <= j -> j < max_len_pad hp ->
     nth_error (rows a) j = Some (repeat 0%Q (ncols (melsp tok)))) /\
  length p = max_len_pad hp /\
  (forall e, In e p -> length e = 1) /\
  (length (f0_org tok) = length (rows (melsp tok)) ->
   forall j, n <= j -> j < max_len_pad hp -> nth_error p j = Some [sentinel]).
Proof.
intros H i tok Hi.
destruct (collate_inr _ _ _ _ _ H) as (items & Hall & Hout).
inversion Hout; subst. clear Hout.
destruct (assemble_all_inr _ _ _ _ _ Hall) as [_ Hnth].
destruct (Hnth i tok Hi) as (it & gi & gi' & Hit & Has).
destruct (assemble_inr _ _ _ _ _ Has)
  as (a0 & c0 & Hc & Hnc & Ha & Hcp & _ & _ & Hla & Hlc).
destruct (crop_rows_length _ _ _ _ _ _ _ Hc) as (Hn & Hseq & Horig & _ & Hlong & Hshort).
destruct (crop_len_crop _ _ _ _ _ _ _ Hc) as [_ Hcols].
assert (Hpad : len_crop it <= max_len_pad hp).
{ rewrite Ha, length_app, length_map, repeat_length, Hn in Hla. lia. }
assert (Hcpad : length c0 <= max_len_pad hp).
{ rewrite Hcp, length_app, length_map, repeat_length in Hlc. lia. }
exists (a_pad it), (c_pad it), (len_crop it).
split; [now apply map_nth_error|]. split; [now apply map_nth_error|].
split; [now apply map_nth_error|].
split; [exact Hseq|]. split; [exact Hpad|]. split; [exact Horig|].
split; [exact Hla|]. split.
- intros j Hj Hjp. rewrite Ha, <- Hcols.
  apply nth_error_app_repeat; rewrite length_map, Hn; lia.
- split; [exact Hlc|]. split.
  + intros e He. rewrite Hcp in He. apply in_app_or in He as [He|He].
    * apply in_map_iff in He as (v & <- & _). reflexivity.
    * apply repeat_spec in He. now subst e.
  + intros Hsame j Hj Hjp.
    assert (Hc0 : length c0 <= len_crop it).
    { destruct (is_long hp tok) eqn:El; [now apply Hlong|].
      destruct (Hshort eq_refl) as [-> ->]. lia. }
    rewrite Hcp. apply nth_error_app_repeat; rewrite length_map; lia.
Qed.

(** An instance: three frames cropped to two and padded to three. *)
Lemma collate_pads_three_frames :
exists m s p l g' a q,
  collate Samples.hp_2_3 Samples.ones [Samples.utterance 3 0] =
    inr ((m, s, p, l), g') /\
  nth_error m 0 = Some a /\ nth_error (rows a) 2 = Some [0%Q] /\
  nth_error p 0 = Some q /\ nth_error q 2 = Some [sentinel].
Proof.
assert (Hrun : exists m s p l g',
  collate Samples.hp_2_3 Samples.ones [Samples.utterance 3 0] =
    inr ((m, s, p, l), g'))
  by (do 5 eexists; vm_compute; reflexivity).
destruct Hrun as (m & s & p & l & g' & Hrun).
destruct (collate_pads_from_crop_length _ _ _ _ _ _ _ _ Hrun 0
            (Samples.utterance 3 0) eq_refl)
  as (a & q & n & Ha & Hp & Hn & Hseq & _ & _ & _ & Hzero & _ & _ & Hsent).
exists m, s, p, l, g', a, q. split; [exact Hrun|]. split; [exact Ha|].
assert (Hn2 : n <= 2) by exact Hseq.
split; [apply (Hzero 2); [exact Hn2 | simpl; lia]|].
split; [exact Hp|].
apply (Hsent eq_refl 2); [exact Hn2 | simpl; lia].
Defined.

End CollatorEdgeCases.

(** * Properties of [tfcompat/hparam.py] *)

Section HParamFacts.
Import HParam.

Lemma assign_index_inr {V} name i (v : V) m results results' :
assign_index name i v m results = inr results' ->
m !! i = None /\ results' = <[name := Indexed (<[i := v]> m)]> results.
Proof.
unfold assign_index. destruct (m !! i); [discriminate|].
intros H. inversion H. auto.
Qed.

(** X18.  When [_process_scalar_value] returns, the value was parsed, no
    other name of the dictionary changed, and the name now holds the parsed
    value: as a scalar when no index was given, which requires the name to
    be new, or at the given index of the name's index dictionary, which
    requires that index to be new and the name not to hold a scalar or a
    list.  Assigning the same name and index a second time raises the reuse
    error. *)
Theorem process_scalar_value_assigns_once {V : Type}
    (name : string) (parse_fn : string -> option V) (val : string)
    (index : option nat) (results results' : gmap string (entry V)) :
process_scalar_value name parse_fn val index results = inr results' ->
(exists v,
   parse_fn val = Some v /\
   match index with
   | None =>
       results !! name = None /\ results' !! name = Some (Scalar v)
   | Some i =>
       exists m,
         (results !! name = None /\ m = ∅ \/ results !! name = Some (Indexed m)) /\
         m !! i = None /\
         results' !! name = Some (Indexed (<[i := v]> m))
   end) /\
(forall n, n <> name -> results' !! n = results !! n) /\
(forall val' v', parse_fn val' = Some v' ->
   process_scalar_value name parse_fn val' index results' =
   inl (ReuseFail name index)).
Proof.
unfold process_scalar_value at 1.
destruct (parse_fn val) as [v|] eqn:Ep; [|discriminate].
destruct index as [i|].
- destruct (results !! name) as [[s|l|m]|] eqn:Er; try discriminate.
  + intros H. apply assign_index_inr in H as [Hi ->].
    split; [|split].
    * exists v. split; [reflexivity|]. exists m.
      split; [now right|]. split; [exact Hi|]. apply lookup_insert_eq.
    * intros n Hn. now apply lookup_insert_ne.
    * intros val' v' Hp. unfold process_scalar_value. rewrite Hp.
      rewrite lookup_insert_eq. unfold assign_index.
      now rewrite lookup_insert_eq.
  + intros H. apply assign_index_inr in H as [Hi ->].
    split; [|split].
    * exists v. split; [reflexivity|]. exists ∅.
      split; [now left|]. split; [exact Hi|]. apply lookup_insert_eq.
    * intros n Hn. rewrite !lookup_insert_ne by auto. reflexivity.
    * intros val' v' Hp. unfold process_scalar_value. rewrite Hp.
      rewrite lookup_insert_eq. unfold assign_index.
      now rewrite lookup_insert_eq.
- destruct (results !! name) eqn:Er; [discriminate|].
  intros H. inversion H; subst. split; [|split].
  + exists v. split; [reflexivity|]. split; [reflexivity|]. apply lookup_insert_eq.
  + intros n Hn. now apply lookup_insert_ne.
  + intros val' v' Hp. unfold process_scalar_value. rewrite Hp.
    now rewrite lookup_insert_eq.
Qed.

(** An instance: [x[0]] and then [x[1]] are accepted. *)
Lemma process_scalar_value_two_indices :
exists r1 r2,
  process_scalar_value "x" (fun s => Some s) "a" (Some 0) ∅ = inr r1 /\
  process_scalar_value "x" (fun s => Some s) "b" (Some 1) r1 = inr r2 /\
  process_scalar_value "x" (fun s => Some s) "c" (Some 1) r2 =
    inl (ReuseFail "x" (Some 1)).
Proof.
assert (H1 : exists r1,
  process_scalar_value "x" (fun s : string => Some s) "a" (Some 0) ∅ = inr r1)
  by (eexists; reflexivity).
destruct H1 as [r1 H1].
destruct (process_scalar_value_assigns_once _ _ _ _ _ _ H1)
  as ((v & _ & m & Hm & _ & Hr1) & _ & _).
assert (H2 : exists r2,
  process_scalar_value "x" (fun s : string => Some s) "b" (Some 1) r1 = inr r2).
{ unfold process_scalar_value in H1 |- *. cbn in H1. inversion H1; subst.
  eexists. reflexivity. }
destruct H2 as [r2 H2].
destruct (process_scalar_value_assigns_once _ _ _ _ _ _ H2) as (_ & _ & Hre).
exists r1, r2. split; [exact H1|]. split; [exact H2|].
now apply (Hre "c" "c").
Defined.

Lemma list_ascii_of_string_append (s t : string) :
list_ascii_of_string (s ++ t)%string =
list_ascii_of_string s ++ list_ascii_of_string t.
Proof. induction s as [|a s IH]; simpl; [reflexivity | now rewrite IH]. Qed.

Lemma re_split_pieces s : forall cur e,
(forall c, In c (list_ascii_of_string cur) -> is_sep c = false) ->
In e (re_split cur s) ->
forall c, In c (list_ascii_of_string e) -> is_sep c = false.
Proof.
induction s as [|a s IH]; intros cur e Hcur He; simpl in He.
- destruct He as [<-|[]]. exact Hcur.
- destruct (is_sep a) eqn:Ea.
  + destruct He as [<-|He]; [exact Hcur|].
    apply (IH EmptyString e); [intros c []|exact He].
  + apply (IH (cur ++ String a EmptyString)%string e); [|exact He].
    intros c Hc. rewrite list_ascii_of_string_append in Hc.
    apply in_app_or in Hc as [Hc|[<-|[]]]; [now apply Hcur | exact Ea].
Qed.

Lemma parse_each_length {V} (parse_fn : string -> option V) es : forall vs,
parse_each parse_fn es = Some vs ->
length vs = length es /\
forall i e, nth_error es i = Some e ->
  exists v, parse_fn e = Some v /\ nth_error vs i = Some v.
Proof.
induction es as [|e es IH]; intros vs H; simpl in H.
- inversion H; subst. split; [reflexivity|]. intros [|i] e Hi; discriminate.
- destruct (parse_fn e) as [v|] eqn:Ev; [|discriminate].
  destruct (parse_each parse_fn es) as [vs'|]; [|discriminate].
  inversion H; subst. destruct (IH vs' eq_refl) as [Hl Hn].
  split; [simpl; now rewrite Hl|].
  intros [|i] e' Hi; simpl in Hi.
  + inversion Hi; subst. exists v. split; [exact Ev | reflexivity].
  + now apply Hn.
Qed.

Lemma append_cons (c : ascii) (a b : string) :
(String c a ++ b = String c (a ++ b))%string.
Proof. reflexivity. Qed.

Lemma append_nil_r (a : string) : (a ++ EmptyString = a)%string.
Proof.
induction a as [|c a IH]; [reflexivity|]. rewrite append_cons. now rewrite IH.
Qed.

Lemma append_assoc_one (cur : string) (a : ascii) (s : string) :
((cur ++ String a EmptyString) ++ s = cur ++ String a s)%string.
Proof.
induction cur as [|c cur IH]; [reflexivity|].
rewrite !append_cons. now rewrite IH.
Qed.

(** A text without blank or comma is one piece. *)
Lemma re_split_no_sep s : forall cur,
(forall c, In c (list_ascii_of_string s) -> is_sep c = false) ->
re_split cur s = [(cur ++ s)%string].
Proof.
induction s as [|a s IH]; intros cur Hs; cbn [re_split].
- now rewrite append_nil_r.
- rewrite (Hs a) by (simpl; auto).
  rewrite IH by (intros c Hc; apply Hs; simpl; auto).
  now rewrite append_assoc_one.
Qed.

(** A blank or a comma ends the piece being read and starts another. *)
Lemma re_split_sep a sep b : forall cur,
is_sep sep = true ->
re_split cur (a ++ String sep b) = re_split cur a ++ re_split EmptyString b.
Proof.
induction a as [|c a IH]; intros cur Hsep.
- change (EmptyString ++ String sep b)%string with (String sep b).
  cbn [re_split]. now rewrite Hsep.
- rewrite append_cons. cbn [re_split].
  destruct (is_sep c); [cbn [app]; f_equal|]; now apply IH.
Qed.

(** X19.  The elements [_process_list_value] parses are the non-empty
    pieces of the text between blanks and commas.  The empty text has none; a
    text without blank or comma is its only element; a blank or a comma
    splits the text, the elements of the whole being those of the part
    before it followed by those of the part after it.  Hence no element is
    empty and none holds a blank or a comma.  The function refuses an index,
    refuses a name that is already assigned, and when it returns it has
    stored under the name one parsed value per element, in order, and
    changed no other name. *)
Theorem process_list_value_parses_elements {V : Type}
    (name : string) (parse_fn : string -> option V) (vals : string)
    (index : option nat) (results : gmap string (entry V)) :
(vals = EmptyString -> elements vals = []) /\
(vals <> EmptyString ->
 (forall c, In c (list_ascii_of_string vals) -> is_sep c = false) ->
 elements vals = [vals]) /\
(forall a sep b, vals = (a ++ String sep b)%string -> is_sep sep = true ->
   elements vals = elements a ++ elements b) /\
(forall e, In e (elements vals) ->
   e <> EmptyString /\
   forall c, In c (list_ascii_of_string e) -> is_sep c = false) /\
(is_Some index ->
 process_list_value name parse_fn vals index results = inl ListIndexFail) /\
(index = None -> is_Some (results !! name) ->
 process_list_value name parse_fn vals index results = inl (ReuseFail name None)) /\
(forall results',
   process_list_value name parse_fn vals index results = inr results' ->
   index = None /\ results !! name = None /\
   exists vs,
     results' = <[name := Listed vs]> results /\
     length vs = length (elements vals) /\
     forall i e, nth_error (elements vals) i = Some e ->
       exists v, parse_fn e = Some v /\ nth_error vs i = Some v).
Proof.
split; [|split; [|split; [|split; [|split; [|split]]]]].
- intros ->. reflexivity.
- intros Hne Hns. unfold elements. rewrite (re_split_no_sep vals EmptyString Hns).
  change (EmptyString ++ vals)%string with vals. cbn [List.filter].
  destruct (String.eqb vals "") eqn:E; [|reflexivity].
  apply String.eqb_eq in E. contradiction.
- intros a sep b -> Hsep. unfold elements.
  rewrite (re_split_sep a sep b EmptyString Hsep). apply List.filter_app.
- intros e He. unfold elements in He. apply filter_In in He as [He Hne].
  split.
  + intros ->. discriminate.
  + apply (re_split_pieces vals EmptyString e); [intros c []|exact He].
- intros [i ->]. reflexivity.
- intros -> [x Hx]. unfold process_list_value. now rewrite Hx.
- intros results' H. unfold process_list_value in H.
  destruct index; [discriminate|].
  destruct (results !! name); [discriminate|].
  destruct (parse_each parse_fn (elements vals)) as [vs|] eqn:Ep; [|discriminate].
  inversion H; subst. split; [reflexivity|]. split; [reflexivity|].
  exists vs. split; [reflexivity|]. now apply parse_each_length.
Qed.

(** An instance: blanks and commas mixed, with empty pieces. *)
Lemma elements_of_mixed_separators :
elements "1, 2,,3 " = elements "1" ++ elements " 2,,3 " /\
elements "1, 2,,3 " = ["1"; "2"; "3"] /\
process_list_value "x" (fun s => Some s) "1, 2,,3 " (Some 0) ∅ = inl ListIndexFail.
Proof.
destruct (process_list_value_parses_elements "x" (fun s : string => Some s)
            "1, 2,,3 " (Some 0) ∅) as (_ & _ & Hsplit & _ & Hidx & _).
split; [apply (Hsplit "1" ","%char " 2,,3 "); reflexivity|].
split; [reflexivity|]. apply Hidx. eauto.
Defined.

(** X20.  [_cast_to_type_if_compatible] returns the value untouched for a
    parameter of type [NoneType].  For the other types it returns a value of
    the parameter's type unchanged; it turns an integer given to a float
    parameter into a float, unless the conversion overflows, and a [bytes]
    value given to a [str] parameter into the text of its literal; on a
    [str] value given to a [bytes] parameter the tests pass and the
    constructor raises [TypeError].  Every other combination raises the cast
    error: in particular a [bool] is never accepted for an [int] or a
    [float] parameter, nor an [int] for a [bool] one.  A value that is
    returned has the parameter's type, and casting it again returns it
    unchanged. *)
Theorem cast_accepts_matching_types {F : Type}
    (float_of_int : Z -> option F) (str_of_bytes : string -> string)
    (name : string) (t : ptype) (v : value F) :
(t = TNone ->
 cast_to_type_if_compatible float_of_int str_of_bytes name t v = inr v) /\
(t <> TNone ->
 (cast_to_type_if_compatible float_of_int str_of_bytes name t v =
    inl (CastFail name) <->
  type_of v <> t /\ ~ (t = TFloat /\ type_of v = TInt) /\
  ~ (t = TStr /\ type_of v = TBytes) /\ ~ (t = TBytes /\ type_of v = TStr)) /\
 (type_of v = t ->
  cast_to_type_if_compatible float_of_int str_of_bytes name t v = inr v) /\
 (forall z, t = TFloat -> v = VInt z ->
    cast_to_type_if_compatible float_of_int str_of_bytes name t v =
    match float_of_int z with
    | Some f => inr (VFloat f)
    | None => inl OverflowError
    end) /\
 (forall b, t = TStr -> v = VBytes b ->
    cast_to_type_if_compatible float_of_int str_of_bytes name t v =
    inr (VStr (str_of_bytes b))) /\
 (forall s, t = TBytes -> v = VStr s ->
    cast_to_type_if_compatible float_of_int str_of_bytes name t v = inl TypeError) /\
 (forall w,
    cast_to_type_if_compatible float_of_int str_of_bytes name t v = inr w ->
    type_of w = t /\
    cast_to_type_if_compatible float_of_int str_of_bytes name t w = inr w)).
Proof.
split; [intros ->; reflexivity|].
intros Ht. split; [|split; [|split; [|split; [|split]]]].
- destruct t, v; cbn; try congruence;
    try (split; [discriminate | intros [H _]; congruence]);
    try (split; [intros _; repeat split; try discriminate;
                   intros [? ?]; discriminate
                | reflexivity]).
  + destruct (float_of_int z);
      (split; [discriminate | intros (_ & H & _); exfalso; apply H; auto]).
  + split; [discriminate | intros (_ & _ & H & _); exfalso; apply H; auto].
  + split; [discriminate | intros (_ & _ & _ & H); exfalso; apply H; auto].
- intros <-. destruct v; reflexivity.
- intros z -> ->. reflexivity.
- intros b -> ->. reflexivity.
- intros s -> ->. reflexivity.
- intros w. destruct t, v; cbn; try congruence; try discriminate;
    try (intros H; inversion H; subst; split; reflexivity).
  destruct (float_of_int z); [|discriminate].
  intros H; inversion H; subst; split; reflexivity.
Qed.

(** Instances: [True] is refused for an [int] parameter, 3 is accepted for
    a [float] one, and the bytes [ab] come back as a string for a [str]
    one. *)
Lemma cast_bool_to_int_and_int_to_float :
cast_to_type_if_compatible (fun z => Some z) (fun b => "b'" ++ b ++ "'")%string
  "n" TInt (VBool true) = inl (CastFail "n") /\
cast_to_type_if_compatible (fun z => Some z) (fun b => "b'" ++ b ++ "'")%string
  "r" TFloat (VInt 3) = inr (VFloat 3%Z) /\
cast_to_type_if_compatible (fun z => Some z) (fun b => "b'" ++ b ++ "'")%string
  "s" TStr (VBytes "ab") = inr (VStr "b'ab'").
Proof.
destruct (cast_accepts_matching_types (fun z : Z => Some z)
            (fun b => "b'" ++ b ++ "'")%string "n" TInt (VBool true))
  as [_ H1].
destruct (H1 ltac:(discriminate)) as (Hfail & _).
destruct (cast_accepts_matching_types (fun z : Z => Some z)
            (fun b => "b'" ++ b ++ "'")%string "r" TFloat (VInt 3))
  as [_ H2].
destruct (H2 ltac:(discriminate)) as (_ & _ & Hint & _).
destruct (cast_accepts_matching_types (fun z : Z => Some z)
            (fun b => "b'" ++ b ++ "'")%string "s" TStr (VBytes "ab"))
  as [_ H3].
destruct (H3 ltac:(discriminate)) as (_ & _ & _ & Hbytes & _).
split; [|split].
- apply Hfail. repeat split; try discriminate; intros [? _]; discriminate.
- now apply (Hint 3%Z).
- now apply (Hbytes "ab").
Defined.

End HParamFacts.
